(** * lightroom-browser: OAuth handler, Lightroom API client and views

    A shallow embedding of [oauth_handler.py], [lightroom_client.py] and
    the views of [app.py], together with the parts of the Python standard
    library they call ([re], [json], [urllib.parse], [int], [str]).

    Conventions.
    - Text is [String.string]; a character above 127 stands for one byte of
      UTF-8 encoded text.  Whitespace classes are therefore the ASCII ones
      (Unicode-only spaces and case folds are outside the model).
    - Python exceptions are values of [exn]; a computation that may raise
      returns [result].
    - The interpreter's resource limits (recursion depth, the cap on the
      number of digits of an integer literal) are not modelled; floats are
      kept as the text of their literal.
    - The network is an oracle [upstream]: the k-th request sent by the
      process receives [upstream k request].  Every request is appended to
      the log of the [world]. *)

From Stdlib Require Import String Ascii List ZArith Lia Bool Arith.
From Stdlib Require Import DecimalString DecimalZ.
Import ListNotations.

Set Warnings "-register-all".
Open Scope string_scope.
Open Scope Z_scope.

(** ** Exceptions and results *)

Inductive exn : Type :=
| Exception (msg : string)          (* raise Exception("...") *)
| ValueError (msg : string)
| JSONDecodeError (msg : string)    (* subclass of ValueError *)
| HTTPError (msg : string)          (* requests.HTTPError *)
| RequestException (msg : string)   (* transport failure raised by requests *)
| AttributeError (msg : string)
| TypeError (msg : string)
| KeyError (msg : string)
| IndexError (msg : string)
| RecursionError (msg : string).

(** [str(e)] *)
Definition str_exn (e : exn) : string :=
  match e with
  | Exception m | ValueError m | JSONDecodeError m | HTTPError m
  | RequestException m | AttributeError m | TypeError m | KeyError m
  | IndexError m | RecursionError m => m
  end.

(** [isinstance(e, ValueError)] *)
Definition is_ValueError (e : exn) : bool :=
  match e with
  | ValueError _ | JSONDecodeError _ => true
  | _ => false
  end.

(** [isinstance(e, requests.HTTPError)] *)
Definition is_HTTPError (e : exn) : bool :=
  match e with
  | HTTPError _ => true
  | _ => false
  end.

Inductive result (A : Type) : Type :=
| Ok (a : A)
| Err (e : exn).
Arguments Ok {A} a.
Arguments Err {A} e.

Definition rbind {A B} (r : result A) (k : A -> result B) : result B :=
  match r with
  | Ok a => k a
  | Err e => Err e
  end.

Definition is_ok {A} (r : result A) : bool :=
  match r with
  | Ok _ => true
  | Err _ => false
  end.

Notation "x <-? c ;; k" := (rbind c (fun x => k))
  (at level 61, c at next level, right associativity).

(** The two errors the specification names. *)
Definition InvalidState : exn := ValueError "Invalid state parameter".
Definition TokenExpired : exn :=
  Exception "Access token expired. Please re-authenticate.".

(** ** Characters and strings *)

Definition ord (c : ascii) : N := N_of_ascii c.
Definition chr (n : N) : ascii := ascii_of_N n.

Definition in_range (lo hi : N) (c : ascii) : bool :=
  (N.leb lo (ord c) && N.leb (ord c) hi)%bool.

Definition is_digit (c : ascii) : bool := in_range 48 57 c.
Definition is_upper (c : ascii) : bool := in_range 65 90 c.
Definition is_lower (c : ascii) : bool := in_range 97 122 c.
Definition is_alpha (c : ascii) : bool := (is_upper c || is_lower c)%bool.

(** ASCII lower-casing, [str.lower] on one character. *)
Definition lower (c : ascii) : ascii :=
  if is_upper c then chr (ord c + 32) else c.

Fixpoint str_lower (s : string) : string :=
  match s with
  | EmptyString => EmptyString
  | String c r => String (lower c) (str_lower r)
  end.

(** [str.isspace] and the regular-expression class [\s], on ASCII:
    TAB, LF, VT, FF, CR, the four separators 28..31 and the space. *)
Definition is_space (c : ascii) : bool :=
  (in_range 9 13 c || in_range 28 31 c || Ascii.eqb c " ")%bool.

(** [s.startswith(p)] *)
Fixpoint startswith (p s : string) : bool :=
  match p with
  | EmptyString => true
  | String a p' =>
      match s with
      | EmptyString => false
      | String b s' => (Ascii.eqb a b && startswith p' s')%bool
      end
  end.

(** [s[n:]] *)
Fixpoint drop (n : nat) (s : string) : string :=
  match n with
  | O => s
  | S n' => match s with
            | EmptyString => EmptyString
            | String _ r => drop n' r
            end
  end.

(** [c in s] *)
Fixpoint contains (c : ascii) (s : string) : bool :=
  match s with
  | EmptyString => false
  | String a r => (Ascii.eqb a c || contains c r)%bool
  end.

(** [s.split(sep, 1)]: the text before the first [sep] and, when [sep]
    occurs, the text after it. *)
Fixpoint split1 (sep : ascii) (s : string) : string * option string :=
  match s with
  | EmptyString => (EmptyString, None)
  | String a r =>
      if Ascii.eqb a sep then (EmptyString, Some r)
      else let (h, t) := split1 sep r in (String a h, t)
  end.

(** [s.split(sep)] for a one-character separator. *)
Fixpoint split (sep : ascii) (s : string) : list string :=
  match s with
  | EmptyString => [EmptyString]
  | String a r =>
      if Ascii.eqb a sep then EmptyString :: split sep r
      else match split sep r with
           | [] => [String a EmptyString]
           | h :: t => String a h :: t
           end
  end.

(** [sep.join(l)] *)
Fixpoint join (sep : string) (l : list string) : string :=
  match l with
  | [] => EmptyString
  | [x] => x
  | x :: r => x ++ sep ++ join sep r
  end.

(** [s.lstrip()] and [s.strip()] *)
Fixpoint lstrip (s : string) : string :=
  match s with
  | EmptyString => EmptyString
  | String a r => if is_space a then lstrip r else s
  end.

Fixpoint rstrip (s : string) : string :=
  match s with
  | EmptyString => EmptyString
  | String a r =>
      match rstrip r with
      | EmptyString => if is_space a then EmptyString else String a EmptyString
      | r' => String a r'
      end
  end.

Definition strip (s : string) : string := rstrip (lstrip s).

(** ** Integers: [str(n)] and [int(s)] *)

Definition str_int (z : Z) : string := NilZero.string_of_int (Z.to_int z).

Definition digit_val (c : ascii) : Z := Z.of_N (ord c) - 48.

(** The digits of an [int()] literal: decimal digits, with single
    underscores allowed between two digits.  [prev] tells whether the
    previous character was a digit. *)
Fixpoint int_digits (prev : bool) (acc : Z) (s : string) : option Z :=
  match s with
  | EmptyString => if prev then Some acc else None
  | String c r =>
      if is_digit c then int_digits true (10 * acc + digit_val c) r
      else if (Ascii.eqb c "_" && prev)%bool then int_digits false acc r
      else None
  end.

Definition invalid_literal : exn :=
  ValueError "invalid literal for int() with base 10".

(** [int(s)] for a string [s]: surrounding whitespace is ignored, one sign
    is allowed. *)
Definition py_int (s : string) : result Z :=
  let t := strip s in
  let '(neg, body) :=
    match t with
    | String "-" r => (true, r)
    | String "+" r => (false, r)
    | _ => (false, t)
    end in
  match int_digits false 0 body with
  | Some n => Ok (if neg then - n else n)
  | None => Err invalid_literal
  end.

(** ** Python dictionaries

    A [dict] keeps its keys in insertion order; assigning to a key that is
    already present replaces the value in place. *)

Definition dict (V : Type) : Type := list (string * V).

Fixpoint dict_get {V} (d : dict V) (k : string) : option V :=
  match d with
  | [] => None
  | (k', v) :: r => if String.eqb k' k then Some v else dict_get r k
  end.

Fixpoint dict_set {V} (d : dict V) (k : string) (v : V) : dict V :=
  match d with
  | [] => [(k, v)]
  | (k', v') :: r =>
      if String.eqb k' k then (k', v) :: r else (k', v') :: dict_set r k v
  end.

(** [dict(pairs)] *)
Definition dict_of_pairs {V} (l : list (string * V)) : dict V :=
  fold_left (fun d kv => dict_set d (fst kv) (snd kv)) l [].

(** ** JSON values, as [json.loads] builds them *)

Inductive json : Type :=
| JNull                         (* None *)
| JBool (b : bool)
| JInt (z : Z)
| JFloat (lexeme : string)      (* a float, kept as the text of its literal *)
| JStr (s : string)
| JArr (l : list json)
| JObj (d : dict json).

Definition nonzero_digit (c : ascii) : bool := in_range 49 57 c.

(** The digits of the mantissa of a float literal (the text before the
    exponent) decide whether it is zero. *)
Fixpoint mantissa_nonzero (s : string) : bool :=
  match s with
  | EmptyString => false
  | String c r =>
      if (Ascii.eqb c "e" || Ascii.eqb c "E")%bool then false
      else (nonzero_digit c || mantissa_nonzero r)%bool
  end.

Definition float_truthy (lexeme : string) : bool :=
  match lexeme with
  | String "N" _ | String "I" _ | String "-" (String "I" _) => true
  | _ => mantissa_nonzero lexeme
  end.

(** [bool(v)] *)
Definition truthy (v : json) : bool :=
  match v with
  | JNull => false
  | JBool b => b
  | JInt z => negb (z =? 0)
  | JFloat x => float_truthy x
  | JStr s => negb (String.eqb s EmptyString)
  | JArr l => match l with [] => false | _ => true end
  | JObj d => match d with [] => false | _ => true end
  end.

(** [d.get(k, default)]: only a dict has [get]. *)
Definition py_get (d : json) (k : string) (default : json) : result json :=
  match d with
  | JObj m => Ok (match dict_get m k with Some v => v | None => default end)
  | _ => Err (AttributeError "object has no attribute 'get'")
  end.

(** [d[k]] for a string key [k]. *)
Definition py_item (d : json) (k : string) : result json :=
  match d with
  | JObj m => match dict_get m k with
              | Some v => Ok v
              | None => Err (KeyError k)
              end
  | JArr _ => Err (TypeError "list indices must be integers or slices, not str")
  | JStr _ => Err (TypeError "string indices must be integers, not 'str'")
  | _ => Err (TypeError "object is not subscriptable")
  end.

(** [v[0]] *)
Definition py_first (v : json) : result json :=
  match v with
  | JArr (x :: _) => Ok x
  | JArr [] => Err (IndexError "list index out of range")
  | JStr (String c _) => Ok (JStr (String c EmptyString))
  | JStr EmptyString => Err (IndexError "string index out of range")
  | JObj _ => Err (KeyError "0")
  | _ => Err (TypeError "object is not subscriptable")
  end.

(** ** [json.loads]

    The decoder of [json.decoder] / [json.scanner]. *)

Definition Expecting_value : exn := JSONDecodeError "Expecting value".
Definition Extra_data : exn := JSONDecodeError "Extra data".
Definition Unterminated_string : exn :=
  JSONDecodeError "Unterminated string starting at".
Definition Invalid_control : exn := JSONDecodeError "Invalid control character at".
Definition Invalid_escape : exn := JSONDecodeError "Invalid \escape".
Definition Invalid_uXXXX : exn := JSONDecodeError "Invalid \uXXXX escape".
Definition Expecting_comma : exn := JSONDecodeError "Expecting ',' delimiter".
Definition Expecting_colon : exn := JSONDecodeError "Expecting ':' delimiter".
Definition Expecting_name : exn :=
  JSONDecodeError "Expecting property name enclosed in double quotes".
Definition Unexpected_BOM : exn :=
  JSONDecodeError "Unexpected UTF-8 BOM (decode using utf-8-sig)".
Definition Too_deep : exn :=
  RecursionError "maximum recursion depth exceeded".

(** [WHITESPACE = re.compile(r'[ \t\n\r]*')] *)
Definition is_json_ws (c : ascii) : bool :=
  (Ascii.eqb c " " || Ascii.eqb c (chr 9) || Ascii.eqb c (chr 10)
   || Ascii.eqb c (chr 13))%bool.

Fixpoint skip_json_ws (s : string) : string :=
  match s with
  | EmptyString => EmptyString
  | String c r => if is_json_ws c then skip_json_ws r else s
  end.

(** The longest prefix of [s] whose characters satisfy [p], and the rest. *)
Fixpoint span (p : ascii -> bool) (s : string) : string * string :=
  match s with
  | EmptyString => (EmptyString, EmptyString)
  | String c r =>
      if p c then let (h, t) := span p r in (String c h, t)
      else (EmptyString, s)
  end.

(** The UTF-8 bytes of [chr(n)]. *)
Definition utf8 (n : N) : string :=
  let b (hi : N) (sh : N) := String (chr (hi + N.land (N.shiftr n sh) 63)) in
  (if n <? 128 then String (chr n) EmptyString
   else if n <? 2048 then
     String (chr (192 + N.shiftr n 6)) (b 128 0 EmptyString)
   else if n <? 65536 then
     String (chr (224 + N.shiftr n 12)) (b 128 6 (b 128 0 EmptyString))
   else
     String (chr (240 + N.shiftr n 18))
       (b 128 12 (b 128 6 (b 128 0 EmptyString))))%N.

Definition hex_val (c : ascii) : option N :=
  (if is_digit c then Some (ord c - 48)
   else if in_range 97 102 c then Some (ord c - 87)
   else if in_range 65 70 c then Some (ord c - 55)
   else None)%N.

Definition is_high_surrogate (n : N) : bool := ((55296 <=? n) && (n <=? 56319))%N%bool.
Definition is_low_surrogate (n : N) : bool := ((56320 <=? n) && (n <=? 57343))%N%bool.

(** States of [py_scanstring] between two characters of a string literal. *)
Inductive scan_state : Type :=
| SNorm                              (* in the text of the literal *)
| SEsc (hi : option N)               (* after a backslash *)
| SHex (hi : option N) (k : nat) (acc : N)
                                     (* in \uXXXX, [k] digits still to come *)
| SHigh (hi : N).                    (* after a \uXXXX that is a high surrogate *)

Definition emit (pre : string) (r : result (string * string))
  : result (string * string) :=
  match r with
  | Ok (str, rest) => Ok (pre ++ str, rest)
  | Err e => Err e
  end.

Definition emit_pending (hi : option N) : string :=
  match hi with
  | Some h => utf8 h
  | None => EmptyString
  end.

(** The character after a backslash, other than [u]. *)
Definition BACKSLASH (c : ascii) : option ascii :=
  if Ascii.eqb c "034" then Some "034"%char
  else if Ascii.eqb c "\" then Some "\"%char
  else if Ascii.eqb c "/" then Some "/"%char
  else if Ascii.eqb c "b" then Some (chr 8)
  else if Ascii.eqb c "f" then Some (chr 12)
  else if Ascii.eqb c "n" then Some (chr 10)
  else if Ascii.eqb c "r" then Some (chr 13)
  else if Ascii.eqb c "t" then Some (chr 9)
  else None.

(** A complete \uXXXX escape of value [uni], read while [hi] was pending. *)
Definition end_of_hex (k : scan_state -> result (string * string))
  (hi : option N) (uni : N) : result (string * string) :=
  match hi with
  | Some h =>
      if is_low_surrogate uni then
        emit (utf8 (65536 + N.lor (N.shiftl (h - 55296) 10) (uni - 56320))%N)
             (k SNorm)
      else if is_high_surrogate uni then emit (utf8 h) (k (SHigh uni))
      else emit (utf8 h ++ utf8 uni) (k SNorm)
  | None =>
      if is_high_surrogate uni then k (SHigh uni)
      else emit (utf8 uni) (k SNorm)
  end.

(** [py_scanstring(s, end, strict=True)], started after the opening quote:
    the decoded text and what follows the closing quote. *)
Fixpoint scanstring_from (st : scan_state) (s : string)
  : result (string * string) :=
  match s with
  | EmptyString => Err Unterminated_string
  | String c r =>
      let k st' := scanstring_from st' r in
      let norm (_ : unit) :=
        if Ascii.eqb c "034" then Ok (EmptyString, r)
        else if Ascii.eqb c "\" then k (SEsc None)
        else if (ord c <? 32)%N then Err Invalid_control
        else emit (String c EmptyString) (k SNorm) in
      match st with
      | SNorm => norm tt
      | SEsc hi =>
          if Ascii.eqb c "u" then k (SHex hi 4 0%N)
          else
            match BACKSLASH c with
            | Some x => emit (emit_pending hi ++ String x EmptyString) (k SNorm)
            | None => Err Invalid_escape
            end
      | SHex hi n acc =>
          match hex_val c with
          | None => Err Invalid_uXXXX
          | Some d =>
              let acc' := (16 * acc + d)%N in
              match n with
              | S (S n') => k (SHex hi (S n') acc')
              | _ => end_of_hex k hi acc'
              end
          end
      | SHigh h =>
          if Ascii.eqb c "\" then k (SEsc (Some h))
          else emit (utf8 h) (norm tt)
      end
  end.

Definition scanstring (s : string) : result (string * string) :=
  scanstring_from SNorm s.

(** [NUMBER_RE]: an optional minus sign, then 0 or a nonzero digit and
    digits; then optionally a dot and digits; then optionally an exponent. *)
Definition match_integer (s : string) : option (string * string) :=
  let '(sign, s1) :=
    match s with
    | String "-" r => ("-", r)
    | _ => (EmptyString, s)
    end in
  match s1 with
  | String c r =>
      if Ascii.eqb c "0" then Some (sign ++ "0", r)
      else if nonzero_digit c then
        let (ds, rest) := span is_digit r in Some (sign ++ String c ds, rest)
      else None
  | EmptyString => None
  end.

Definition match_frac (s : string) : string * string :=
  match s with
  | String "." r =>
      let (ds, rest) := span is_digit r in
      match ds with
      | EmptyString => (EmptyString, s)
      | _ => (String "." ds, rest)
      end
  | _ => (EmptyString, s)
  end.

Definition match_exp (s : string) : string * string :=
  match s with
  | String e r =>
      if (Ascii.eqb e "e" || Ascii.eqb e "E")%bool then
        let '(sg, r1) :=
          match r with
          | String "-" r' => ("-", r')
          | String "+" r' => ("+", r')
          | _ => (EmptyString, r)
          end in
        let (ds, rest) := span is_digit r1 in
        match ds with
        | EmptyString => (EmptyString, s)
        | _ => (String e (sg ++ ds), rest)
        end
      else (EmptyString, s)
  | EmptyString => (EmptyString, s)
  end.

Definition match_number (s : string) : option (json * string) :=
  match match_integer s with
  | None => None
  | Some (integer, r1) =>
      let (frac, r2) := match_frac r1 in
      let (exp, r3) := match_exp r2 in
      match frac, exp with
      | EmptyString, EmptyString =>
          match py_int integer with
          | Ok z => Some (JInt z, r3)
          | Err _ => None
          end
      | _, _ => Some (JFloat (integer ++ frac ++ exp), r3)
      end
  end.

(** The constants of [scan_once], tried in its order. *)
Definition match_constant (s : string) : option (json * string) :=
  if startswith "null" s then Some (JNull, drop 4 s)
  else if startswith "true" s then Some (JBool true, drop 4 s)
  else if startswith "false" s then Some (JBool false, drop 5 s)
  else match match_number s with
       | Some r => Some r
       | None =>
           if startswith "NaN" s then Some (JFloat "NaN", drop 3 s)
           else if startswith "Infinity" s then Some (JFloat "Infinity", drop 8 s)
           else if startswith "-Infinity" s then
                  Some (JFloat "-Infinity", drop 9 s)
           else None
       end.

(** [scan_once], [JSONArray] and [JSONObject].  [fuel] bounds the number of
    nested calls; [json_loads] gives twice the length of the text and one
    more, which is always enough ([scan_once_fuel] below). *)
Fixpoint scan_once (fuel : nat) (s : string) {struct fuel}
  : result (json * string) :=
  match fuel with
  | O => Err Too_deep
  | S f =>
      match s with
      | EmptyString => Err Expecting_value
      | String c r =>
          if Ascii.eqb c "034" then
            p <-? scanstring r ;; Ok (JStr (fst p), snd p)
          else if Ascii.eqb c "{" then
            match skip_json_ws r with
            | String x r' =>
                if Ascii.eqb x "}" then Ok (JObj [], r')
                else if Ascii.eqb x "034" then
                  p <-? JSONObject f r' ;;
                  Ok (JObj (dict_of_pairs (fst p)), snd p)
                else Err Expecting_name
            | EmptyString => Err Expecting_name
            end
          else if Ascii.eqb c "[" then
            if startswith "]" (skip_json_ws r)
            then Ok (JArr [], drop 1 (skip_json_ws r))
            else p <-? JSONArray f (skip_json_ws r) ;; Ok (JArr (fst p), snd p)
          else match match_constant s with
               | Some p => Ok p
               | None => Err Expecting_value
               end
      end
  end

(** The values of an array, from the first character of a value on. *)
with JSONArray (fuel : nat) (s : string) {struct fuel}
  : result (list json * string) :=
  match fuel with
  | O => Err Too_deep
  | S f =>
      v <-? scan_once f s ;;
      match skip_json_ws (snd v) with
      | String x r =>
          if Ascii.eqb x "]" then Ok ([fst v], r)
          else if Ascii.eqb x "," then
            p <-? JSONArray f (skip_json_ws r) ;; Ok (fst v :: fst p, snd p)
          else Err Expecting_comma
      | EmptyString => Err Expecting_comma
      end
  end

(** The pairs of an object, from after the opening quote of a key on. *)
with JSONObject (fuel : nat) (s : string) {struct fuel}
  : result (list (string * json) * string) :=
  match fuel with
  | O => Err Too_deep
  | S f =>
      key <-? scanstring s ;;
      match skip_json_ws (snd key) with
      | String x r =>
          if Ascii.eqb x ":" then
            v <-? scan_once f (skip_json_ws r) ;;
            match skip_json_ws (snd v) with
            | String y r' =>
                if Ascii.eqb y "}" then Ok ([(fst key, fst v)], r')
                else if Ascii.eqb y "," then
                  match skip_json_ws r' with
                  | String z r'' =>
                      if Ascii.eqb z "034" then
                        p <-? JSONObject f r'' ;;
                        Ok ((fst key, fst v) :: fst p, snd p)
                      else Err Expecting_name
                  | EmptyString => Err Expecting_name
                  end
                else Err Expecting_comma
            | EmptyString => Err Expecting_comma
            end
          else Err Expecting_colon
      | EmptyString => Err Expecting_colon
      end
  end.

Definition BOM : string :=
  String (chr 239) (String (chr 187) (String (chr 191) EmptyString)).

(** [JSONDecoder.decode] on the text after its leading whitespace. *)
Definition decode_from (s : string) : result json :=
  p <-? scan_once (S (2 * String.length s)) s ;;
  match skip_json_ws (snd p) with
  | EmptyString => Ok (fst p)
  | _ => Err Extra_data
  end.

(** [json.loads(s)] *)
Definition json_loads (s : string) : result json :=
  if startswith BOM s then Err Unexpected_BOM
  else decode_from (skip_json_ws s).

(** ** Regular expressions ([re])

    The fragment the client uses: a sequence of items, each one character of
    a class or a greedy repetition of a class, matched at the start of the
    text with backtracking. *)

Inductive re_item : Type :=
| One (cls : ascii -> bool)
| Star (cls : ascii -> bool).

(** [pattern.match(s)]: the text after the match, if the pattern matches at
    the start of [s]. *)
Fixpoint re_match (p : list re_item) (s : string) : option string :=
  match p with
  | [] => Some s
  | One cls :: p' =>
      match s with
      | String c r => if cls c then re_match p' r else None
      | EmptyString => None
      end
  | Star cls :: p' =>
      (fix star (s : string) : option string :=
         match s with
         | String c r =>
             if cls c then
               match star r with
               | Some rest => Some rest
               | None => re_match p' s
               end
             else re_match p' s
         | EmptyString => re_match p' s
         end) s
  end.

(** A literal character under [re.IGNORECASE]. *)
Definition lit_i (c : ascii) : re_item :=
  One (fun x => Ascii.eqb (lower x) (lower c)).

Definition ws_star : re_item := Star is_space.

(** [re.compile(r'^while\s*\(\s*1\s*\)\s*{\s*}\s*', re.IGNORECASE)] *)
Definition while1_regex : list re_item :=
  [lit_i "w"; lit_i "h"; lit_i "i"; lit_i "l"; lit_i "e"; ws_star;
   lit_i "("; ws_star; lit_i "1"; ws_star; lit_i ")"; ws_star;
   lit_i "{"; ws_star; lit_i "}"; ws_star].

(** [pattern.sub('', s)] for a pattern anchored with [^]: the only match
    there can be is the one at the start of the text. *)
Definition re_sub_empty (p : list re_item) (s : string) : string :=
  match re_match p s with
  | Some rest => rest
  | None => s
  end.

(** [LightroomClient._process_json_response] *)
Definition _process_json_response (response_text : string) : result json :=
  match response_text with
  | EmptyString => Ok JNull
  | _ =>
      let cleaned_text := re_sub_empty while1_regex response_text in
      json_loads cleaned_text
  end.

(** ** [urllib.parse] *)

Definition mem (s : string) (l : list string) : bool :=
  existsb (String.eqb s) l.

Definition uses_relative : list string :=
  [EmptyString; "ftp"; "http"; "gopher"; "nntp"; "imap"; "wais"; "file";
   "https"; "shttp"; "mms"; "prospero"; "rtsp"; "rtspu"; "sftp"; "svn";
   "svn+ssh"; "ws"; "wss"].

Definition uses_netloc : list string :=
  [EmptyString; "ftp"; "http"; "gopher"; "nntp"; "telnet"; "imap"; "wais";
   "file"; "mms"; "https"; "shttp"; "snews"; "prospero"; "rtsp"; "rtspu";
   "rsync"; "svn"; "svn+ssh"; "sftp"; "nfs"; "git"; "git+ssh"; "ws"; "wss"].

Definition uses_params : list string :=
  [EmptyString; "ftp"; "hdl"; "prospero"; "http"; "imap"; "https"; "shttp";
   "rtsp"; "rtspu"; "sip"; "sips"; "mms"; "sftp"; "tel"].

Definition scheme_char (c : ascii) : bool :=
  (is_alpha c || is_digit c || Ascii.eqb c "+" || Ascii.eqb c "-"
   || Ascii.eqb c ".")%bool.

Fixpoint str_forall (p : ascii -> bool) (s : string) : bool :=
  match s with
  | EmptyString => true
  | String c r => (p c && str_forall p r)%bool
  end.

Fixpoint str_filter (p : ascii -> bool) (s : string) : string :=
  match s with
  | EmptyString => EmptyString
  | String c r => if p c then String c (str_filter p r) else str_filter p r
  end.

(** [s.replace(a, b)] for single characters. *)
Fixpoint replace_char (a b : ascii) (s : string) : string :=
  match s with
  | EmptyString => EmptyString
  | String c r => String (if Ascii.eqb c a then b else c) (replace_char a b r)
  end.

(** [url.lstrip(_WHATWG_C0_CONTROL_OR_SPACE)] *)
Fixpoint lstrip_c0 (s : string) : string :=
  match s with
  | EmptyString => EmptyString
  | String c r => if (ord c <=? 32)%N then lstrip_c0 r else s
  end.

Fixpoint rstrip_c0 (s : string) : string :=
  match s with
  | EmptyString => EmptyString
  | String c r =>
      match rstrip_c0 r with
      | EmptyString =>
          if (ord c <=? 32)%N then EmptyString else String c EmptyString
      | r' => String c r'
      end
  end.

(** Removal of [_UNSAFE_URL_BYTES_TO_REMOVE]: TAB, CR, LF. *)
Definition remove_unsafe (s : string) : string :=
  str_filter (fun c => negb (Ascii.eqb c (chr 9) || Ascii.eqb c (chr 13)
                             || Ascii.eqb c (chr 10))) s.

(** [_splitnetloc(url, 2)] on the text after the two slashes. *)
Definition _splitnetloc (s : string) : string * string :=
  span (fun c => negb (Ascii.eqb c "/" || Ascii.eqb c "?" || Ascii.eqb c "#")) s.

Record ParseResult : Type := mkParseResult {
  scheme : string;
  netloc : string;
  path : string;
  params : string;
  query : string;
  fragment : string
}.

(** [parsed._replace(query=q)] *)
Definition replace_query (p : ParseResult) (q : string) : ParseResult :=
  mkParseResult (scheme p) (netloc p) (path p) (params p) q (fragment p).

(** The scheme of a URL and the text after its colon, when the text before
    the first colon is a scheme. *)
Definition split_scheme (url : string) : option (string * string) :=
  match split1 ":" url with
  | (String c h, Some t) =>
      if (is_alpha c && str_forall scheme_char (String c h))%bool
      then Some (str_lower (String c h), t)
      else None
  | _ => None
  end.

(** [url.rfind('/')] and [url.find(';', i)] of [_splitparams]: the last
    segment of the path is where parameters are looked for. *)
Fixpoint last_segment (s : string) : string * string :=
  match s with
  | EmptyString => (EmptyString, EmptyString)
  | String c r =>
      if contains "/" r then
        let (h, t) := last_segment r in (String c h, t)
      else if Ascii.eqb c "/" then (String c EmptyString, r)
      else (EmptyString, s)
  end.

Definition _splitparams (url : string) : string * string :=
  let (h, seg) := last_segment url in
  match split1 ";" seg with
  | (a, Some b) => (h ++ a, b)
  | (_, None) => (url, EmptyString)
  end.

(** [urlunsplit] and [urlunparse] *)
Definition urlunsplit (scheme netloc url query fragment : string) : string :=
  let url :=
    if (negb (String.eqb netloc EmptyString)
        || (negb (String.eqb scheme EmptyString) && mem scheme uses_netloc
            && negb (startswith "//" url)))%bool
    then "//" ++ netloc ++
         (if (negb (String.eqb url EmptyString) && negb (startswith "/" url))%bool
          then "/" ++ url else url)
    else url in
  let url := if String.eqb scheme EmptyString then url else scheme ++ ":" ++ url in
  let url := if String.eqb query EmptyString then url else url ++ "?" ++ query in
  if String.eqb fragment EmptyString then url else url ++ "#" ++ fragment.

Definition urlunparse (p : ParseResult) : string :=
  let url :=
    if String.eqb (params p) EmptyString then path p
    else path p ++ ";" ++ params p in
  urlunsplit (scheme p) (netloc p) url (query p) (fragment p).

(** Percent-encoding: [quote_plus], [unquote] *)

Definition always_safe (c : ascii) : bool :=
  (is_alpha c || is_digit c || Ascii.eqb c "_" || Ascii.eqb c "."
   || Ascii.eqb c "-" || Ascii.eqb c "~")%bool.

Definition hex_digit (n : N) : ascii :=
  (if n <? 10 then chr (48 + n) else chr (55 + n))%N.

Definition quote_char (c : ascii) : string :=
  if always_safe c then String c EmptyString
  else if Ascii.eqb c " " then "+"
  else String "%" (String (hex_digit (ord c / 16))
                     (String (hex_digit (ord c mod 16)) EmptyString)).

Fixpoint quote_plus (s : string) : string :=
  match s with
  | EmptyString => EmptyString
  | String c r => quote_char c ++ quote_plus r
  end.

Fixpoint unquote (s : string) : string :=
  match s with
  | EmptyString => EmptyString
  | String c r =>
      if Ascii.eqb c "%" then
        match r with
        | String a (String b r') =>
            match hex_val a, hex_val b with
            | Some x, Some y => String (chr (16 * x + y)) (unquote r')
            | _, _ => String c (unquote r)
            end
        | _ => String c (unquote r)
        end
      else String c (unquote r)
  end.

(** [parse_qsl(qs)] with its defaults: blank values are dropped and
    malformed fields are skipped. *)
Definition parse_field (name_value : string) : option (string * string) :=
  match split1 "=" name_value with
  | (n, Some v) =>
      match v with
      | EmptyString => None
      | _ => Some (unquote (replace_char "+" " " n),
                   unquote (replace_char "+" " " v))
      end
  | (_, None) => None
  end.

Fixpoint filter_map {A B} (f : A -> option B) (l : list A) : list B :=
  match l with
  | [] => []
  | x :: r => match f x with
              | Some y => y :: filter_map f r
              | None => filter_map f r
              end
  end.

Definition parse_qsl (qs : string) : list (string * string) :=
  match qs with
  | EmptyString => []
  | _ => filter_map parse_field (split "&" qs)
  end.

(** [parsed_result[name].append(value)] or [parsed_result[name] = [value]] *)
Definition dict_append (d : dict (list string)) (name value : string)
  : dict (list string) :=
  match dict_get d name with
  | Some l => dict_set d name (l ++ [value])%list
  | None => dict_set d name [value]
  end.

Definition parse_qs (qs : string) : dict (list string) :=
  fold_left (fun d nv => dict_append d (fst nv) (snd nv)) (parse_qsl qs) [].

(** [urlencode(query, doseq=True)] for a dict of lists of strings. *)
Definition urlencode (q : dict (list string)) : string :=
  join "&"
    (flat_map (fun kv => map (fun elt => quote_plus (fst kv) ++ "=" ++ quote_plus elt)
                             (snd kv)) q).

Section Runtime.

(** The text [str(v)] of a value that is a float, a list or a dict. *)
Variable fmt : json -> string.

(** The checks [urlsplit] makes on a network location (matching brackets,
    a valid bracketed address, no character that normalises to a
    delimiter): [false] is [ValueError]. *)
Variable netloc_ok : string -> bool.

(** [str(v)], [f'{v}'] *)
Definition py_str (v : json) : string :=
  match v with
  | JStr s => s
  | JInt z => str_int z
  | JNull => "None"
  | JBool true => "True"
  | JBool false => "False"
  | _ => fmt v
  end.

(** [urlparse(url, scheme)] *)
Definition urlparse_with (url default_scheme : string) : result ParseResult :=
  let url := remove_unsafe (lstrip_c0 url) in
  let default_scheme := remove_unsafe (rstrip_c0 (lstrip_c0 default_scheme)) in
  let '(scheme, url) :=
    match split_scheme url with
    | Some (sc, rest) => (sc, rest)
    | None => (default_scheme, url)
    end in
  let '(netloc, url) :=
    if startswith "//" url then _splitnetloc (drop 2 url)
    else (EmptyString, url) in
  if negb (String.eqb netloc EmptyString || netloc_ok netloc) then
    Err (ValueError "Invalid IPv6 URL")
  else
    let '(url, fragment) :=
      match split1 "#" url with
      | (u, Some f) => (u, f)
      | (u, None) => (u, EmptyString)
      end in
    let '(url, query) :=
      match split1 "?" url with
      | (u, Some q) => (u, q)
      | (u, None) => (u, EmptyString)
      end in
    let '(url, params) :=
      if (mem scheme uses_params && contains ";" url)%bool
      then _splitparams url
      else (url, EmptyString) in
    Ok (mkParseResult scheme netloc url params query fragment).

Definition urlparse (url : string) : result ParseResult :=
  urlparse_with url EmptyString.

(** The dot-segment loop of [urljoin]. *)
Fixpoint resolve_segments (resolved_path segments : list string) : list string :=
  match segments with
  | [] => resolved_path
  | seg :: r =>
      if String.eqb seg ".." then resolve_segments (removelast resolved_path) r
      else if String.eqb seg "." then resolve_segments resolved_path r
      else resolve_segments (resolved_path ++ [seg])%list r
  end.

(** [segments[1:-1] = filter(None, segments[1:-1])] *)
Definition filter_middle (segments : list string) : list string :=
  match segments with
  | [] => []
  | [x] => [x]
  | x :: r =>
      (x :: filter (fun s => negb (String.eqb s EmptyString)) (removelast r)
         ++ [last r EmptyString])%list
  end.

(** [urljoin(base, url)] *)
Definition urljoin (base url : string) : result string :=
  if String.eqb base EmptyString then Ok url
  else if String.eqb url EmptyString then Ok base
  else
    b <-? urlparse base ;;
    u <-? urlparse_with url (scheme b) ;;
    if (negb (String.eqb (scheme u) (scheme b))
        || negb (mem (scheme u) uses_relative))%bool
    then Ok url
    else if (mem (scheme u) uses_netloc
             && negb (String.eqb (netloc u) EmptyString))%bool
    then Ok (urlunparse u)
    else
      let netloc' := if mem (scheme u) uses_netloc then netloc b else netloc u in
      if (String.eqb (path u) EmptyString && String.eqb (params u) EmptyString)%bool
      then
        let query' :=
          if String.eqb (query u) EmptyString then query b else query u in
        Ok (urlunparse (mkParseResult (scheme u) netloc' (path b) (params b)
                          query' (fragment u)))
      else
        let base_parts := split "/" (path b) in
        let base_parts :=
          if String.eqb (last base_parts EmptyString) EmptyString
          then base_parts else removelast base_parts in
        let segments :=
          if startswith "/" (path u) then split "/" (path u)
          else filter_middle (base_parts ++ split "/" (path u))%list in
        let resolved_path := resolve_segments [] segments in
        let resolved_path :=
          if (String.eqb (last segments EmptyString) "."
              || String.eqb (last segments EmptyString) "..")%bool
          then (resolved_path ++ [EmptyString])%list else resolved_path in
        let joined := join "/" resolved_path in
        Ok (urlunparse
              (mkParseResult (scheme u) netloc'
                 (if String.eqb joined EmptyString then "/" else joined)
                 (params u) (query u) (fragment u))).


(** ** The network and the process state *)

Record request : Type := mkRequest {
  req_method : string;
  req_url : string;
  req_headers : list (string * string);
  req_data : list (string * string);           (* form-encoded body *)
  req_auth : option (string * string)          (* HTTPBasicAuth *)
}.

Record response : Type := mkResponse {
  status_code : Z;
  text : string          (* the body; [response.content] is the same bytes *)
}.

Record world : Type := mkWorld {
  upstream : nat -> request -> result response;
                          (* what [requests] returns (or raises) for the
                             k-th request of the process *)
  token_urlsafe : nat -> string;
                          (* the k-th value of [secrets.token_urlsafe(32)] *)
  sent : list request;    (* the requests sent so far, oldest first *)
  drawn : nat             (* the number of random tokens drawn so far *)
}.

(** A method of an object of class [Self]: it may read and write [self], talk
    to the world, and return or raise. *)
Definition M (Self A : Type) : Type :=
  Self -> world -> result A * Self * world.

Definition ret {Self A} (a : A) : M Self A := fun self w => (Ok a, self, w).
Definition raise {Self A} (e : exn) : M Self A := fun self w => (Err e, self, w).

Definition bind {Self A B} (c : M Self A) (k : A -> M Self B) : M Self B :=
  fun self w =>
    match c self w with
    | (Ok a, self', w') => k a self' w'
    | (Err e, self', w') => (Err e, self', w')
    end.

Notation "x <- c ;; k" := (bind c (fun x => k))
  (at level 61, c at next level, right associativity).

(** [try: c  except <handles>: h e], other exceptions pass. *)
Definition try_except {Self A} (c : M Self A) (handles : exn -> bool)
  (h : exn -> M Self A) : M Self A :=
  fun self w =>
    match c self w with
    | (Err e, self', w') =>
        if handles e then h e self' w' else (Err e, self', w')
    | r => r
    end.

Definition lift {Self A} (r : result A) : M Self A := fun self w => (r, self, w).
Definition get_self {Self} : M Self Self := fun self w => (Ok self, self, w).
Definition set_self {Self} (s : Self) : M Self unit := fun _ w => (Ok tt, s, w).

(** The world once one more request has been sent. *)
Definition log_request (w : world) (r : request) : world :=
  mkWorld (upstream w) (token_urlsafe w) (sent w ++ [r])%list (drawn w).

(** [requests.request(method, url, headers=..., data=..., auth=...)] *)
Definition requests_request {Self} (r : request) : M Self response :=
  fun self w => (upstream w (List.length (sent w)) r, self, log_request w r).

(** [secrets.token_urlsafe(32)] *)
Definition secrets_token_urlsafe {Self} : M Self string :=
  fun self w =>
    (Ok (token_urlsafe w (drawn w)), self,
     mkWorld (upstream w) (token_urlsafe w) (sent w) (S (drawn w))).

(** [response.ok]; [raise_for_status] raises for 400..599. *)
Definition response_ok (r : response) : bool :=
  negb ((400 <=? status_code r) && (status_code r <? 600)).

Definition raise_for_status (r : response) : result unit :=
  if response_ok r then Ok tt
  else Err (HTTPError (str_int (status_code r) ++ " Error")).

(** [response.json()] *)
Definition response_json (r : response) : result json := json_loads (text r).

(** [urlencode(params)] for a dict of strings. *)
Definition urlencode_flat (q : list (string * string)) : string :=
  join "&" (map (fun kv => quote_plus (fst kv) ++ "=" ++ quote_plus (snd kv)) q).

(** ** [oauth_handler.py] *)

Record OAuthHandler : Type := mkOAuthHandler {
  client_id : string;
  client_secret : string;
  redirect_uri : string;
  state : option string     (* [None] until an authorization URL is built *)
}.

Definition AUTHORIZATION_URL : string :=
  "https://ims-na1.adobelogin.com/ims/authorize/v2".
Definition TOKEN_URL : string := "https://ims-na1.adobelogin.com/ims/token/v3".
Definition SCOPE : string :=
  "offline_access,AdobeID,lr_partner_rendition_apis,openid,lr_partner_apis".

(** [OAuthHandler.__init__] *)
Definition OAuthHandler_init (client_id client_secret redirect_uri : string)
  : result OAuthHandler :=
  if (String.eqb client_id EmptyString || String.eqb client_secret EmptyString)%bool
  then Err (ValueError "Client ID and Client Secret are required")
  else Ok (mkOAuthHandler client_id client_secret redirect_uri None).

Definition set_state (st : option string) : M OAuthHandler unit :=
  fun self w =>
    (Ok tt,
     mkOAuthHandler (client_id self) (client_secret self) (redirect_uri self) st,
     w).

(** [OAuthHandler.get_authorization_url] *)
Definition get_authorization_url : M OAuthHandler string :=
  tok <- secrets_token_urlsafe ;;
  _ <- set_state (Some tok) ;;
  self <- get_self ;;
  let params :=
    [("client_id", client_id self);
     ("redirect_uri", redirect_uri self);
     ("response_type", "code");
     ("scope", SCOPE);
     ("state", tok)] in
  ret (AUTHORIZATION_URL ++ "?" ++ urlencode_flat params).

(** [state and state != self.state] *)
Definition state_rejected (state_arg : option string) (stored : option string)
  : bool :=
  match state_arg with
  | None => false
  | Some s =>
      (negb (String.eqb s EmptyString) &&
       negb (match stored with
             | Some t => String.eqb s t
             | None => false
             end))%bool
  end.

(** The [error_detail] of a failed token exchange. *)
Definition token_error_detail (r : response) : result string :=
  match response_json r with
  | Ok error_json =>
      inner <-? py_get error_json "error" (JStr (text r)) ;;
      d <-? py_get error_json "error_description" inner ;;
      Ok (py_str d)
  | Err e =>
      if is_ValueError e then
        Ok (match text r with
            | EmptyString => "HTTP " ++ str_int (status_code r)
            | t => t
            end)
      else Err e
  end.

(** The request [get_access_token] posts to the token endpoint. *)
Definition token_request (self : OAuthHandler) (authorization_code : string)
  : request :=
  let data :=
    [("grant_type", "authorization_code");
     ("code", authorization_code);
     ("redirect_uri", redirect_uri self)] in
  let headers :=
    [("Content-Type", "application/x-www-form-urlencoded");
     ("x-api-key", client_id self)] in
  let auth := Some (client_id self, client_secret self) in
  mkRequest "POST" TOKEN_URL headers data auth.

(** The [try] block of [get_access_token]. *)
Definition exchange (self : OAuthHandler) (authorization_code : string)
  : M OAuthHandler json :=
  resp <- requests_request (token_request self authorization_code) ;;
  if negb (response_ok resp) then
    error_detail <- lift (token_error_detail resp) ;;
    raise (HTTPError ("Token exchange failed: " ++ error_detail
                      ++ " (Status: " ++ str_int (status_code resp) ++ ")"))
  else lift (response_json resp).

(** [OAuthHandler.get_access_token] *)
Definition get_access_token (authorization_code : string)
  (state_arg : option string) : M OAuthHandler json :=
  self <- get_self ;;
  if state_rejected state_arg (state self) then raise InvalidState
  else
    try_except (exchange self authorization_code)
      (fun e => negb (is_HTTPError e))
      (fun e => raise (Exception ("Unexpected error during token exchange: "
                                  ++ str_exn e))).

(** [OAuthHandler.refresh_access_token] *)
Definition refresh_access_token (refresh_token : string) : M OAuthHandler json :=
  self <- get_self ;;
  let data :=
    [("grant_type", "refresh_token"); ("refresh_token", refresh_token)] in
  let headers :=
    [("Content-Type", "application/x-www-form-urlencoded");
     ("x-api-key", client_id self)] in
  let auth := Some (client_id self, client_secret self) in
  resp <- requests_request (mkRequest "POST" TOKEN_URL headers data auth) ;;
  _ <- lift (raise_for_status resp) ;;
  lift (response_json resp).

(** ** [lightroom_client.py]

    The client keeps a reference to the OAuth handler and only ever reads
    its [client_id], which no method assigns; the record holds the handler
    by value. *)

Record LightroomClient : Type := mkLightroomClient {
  oauth_handler : OAuthHandler;
  catalog : json            (* [None] until a catalog has been fetched *)
}.

Definition API_BASE_URL : string := "https://lr.adobe.io/v2".

(** [LightroomClient.__init__] *)
Definition LightroomClient_init (oauth_handler : OAuthHandler) : LightroomClient :=
  mkLightroomClient oauth_handler JNull.

Definition set_catalog (c : json) : M LightroomClient unit :=
  fun self w => (Ok tt, mkLightroomClient (oauth_handler self) c, w).

(** [LightroomClient._get_headers] *)
Definition _get_headers (self : LightroomClient) (access_token : string)
  : list (string * string) :=
  [("Authorization", "Bearer " ++ access_token);
   ("x-api-key", client_id (oauth_handler self));
   ("Content-Type", "application/json")].

(** The URL a request for [endpoint] goes to. *)
Definition request_url (endpoint : string) : string :=
  if (startswith "http://" endpoint || startswith "https://" endpoint)%bool
  then endpoint
  else API_BASE_URL ++ endpoint.

(** [requests.request(method, url, headers=headers)] as the client sends it. *)
Definition api_request (self : LightroomClient) (access_token method url : string)
  : request :=
  mkRequest method url (_get_headers self access_token) [] None.

(** [LightroomClient._make_request] (the logging calls have no effect on
    the result and are left out). *)
Definition _make_request (access_token method endpoint : string)
  : M LightroomClient json :=
  self <- get_self ;;
  let url := request_url endpoint in
  resp <- requests_request (api_request self access_token method url) ;;
  if status_code resp =? 401 then raise TokenExpired
  else
    _ <- lift (raise_for_status resp) ;;
    lift (_process_json_response (text resp)).

(** [_make_request] when the endpoint is the value of an expression that
    need not be a string: [endpoint.startswith] exists on strings only. *)
Definition _make_request_value (access_token method : string) (endpoint : json)
  : M LightroomClient json :=
  match endpoint with
  | JStr e => _make_request access_token method e
  | _ => raise (AttributeError "object has no attribute 'startswith'")
  end.

(** [urljoin(base, url)] on values: the two early returns come before any
    look at the types. *)
Definition py_urljoin (base url : json) : result json :=
  if negb (truthy base) then Ok url
  else if negb (truthy url) then Ok base
  else
    match base, url with
    | JStr b, JStr u => r <-? urljoin b u ;; Ok (JStr r)
    | JStr _, _ | _, JStr _ =>
        Err (TypeError "Cannot mix str and non-str arguments")
    | _, _ => Err (AttributeError "object has no attribute 'decode'")
    end.

(** [urlparse(url)] on a value. *)
Definition py_urlparse (url : json) : result ParseResult :=
  match url with
  | JStr u => urlparse u
  | _ =>
      if truthy url then Err (AttributeError "object has no attribute 'decode'")
      else urlparse EmptyString
  end.

(** The iteration [list.extend] makes over a value. *)
Fixpoint chars (s : string) : list json :=
  match s with
  | EmptyString => []
  | String c r => JStr (String c EmptyString) :: chars r
  end.

Definition py_iter (v : json) : result (list json) :=
  match v with
  | JArr l => Ok l
  | JStr s => Ok (chars s)
  | JObj d => Ok (map (fun kv => JStr (fst kv)) d)
  | _ => Err (TypeError "object is not iterable")
  end.

(** [LightroomClient.get_catalog] *)
Definition get_catalog (access_token : string) : M LightroomClient json :=
  self <- get_self ;;
  match catalog self with
  | JNull =>
      c <- _make_request access_token "GET" "/catalog" ;;
      _ <- set_catalog c ;;
      ret c
  | c => ret c
  end.

(** The first lines of every catalog-scoped method: the catalog id. *)
Definition resolve_catalog_id (access_token : string) : M LightroomClient json :=
  catalog <- get_catalog access_token ;;
  if negb (truthy catalog) then raise (Exception "Could not retrieve catalog")
  else
    catalog_id <- lift (py_get catalog "id" JNull) ;;
    if negb (truthy catalog_id)
    then raise (Exception "Could not retrieve catalog ID")
    else ret catalog_id.

(** [links.get(rel) and links[rel].get('href')] *)
Definition link_href (links : json) (rel : string) : result json :=
  l <-? py_get links rel JNull ;;
  if truthy l then py_get l "href" JNull else Ok l.

(** The cursor in a resolved next link. *)
Definition name_after_of (parsed : ParseResult) : option string :=
  match dict_get (parse_qs (query parsed)) "name_after" with
  | Some (v :: _) => Some v
  | _ => None
  end.

(** The endpoint of an albums page. *)
Definition albums_endpoint (catalog_id : json) (limit : Z)
  (name_after : option string) : string :=
  let endpoint :=
    "/catalogs/" ++ py_str catalog_id ++ "/albums?limit=" ++ str_int limit in
  match name_after with
  | Some (String c r) => endpoint ++ "&name_after=" ++ String c r
  | _ => endpoint
  end.

(** What [get_albums_page] makes of the page it fetched: the resources and
    the cursor of the next page. *)
Definition albums_page_result (page : json) : result (json * option string) :=
  if negb (truthy page) then Ok (JArr [], None)
  else
    resources <-? py_get page "resources" (JArr []) ;;
    links <-? py_get page "links" (JObj []) ;;
    base <-? py_get page "base" (JStr API_BASE_URL) ;;
    next_href <-? link_href links "next" ;;
    if truthy next_href then
      joined <-? py_urljoin base next_href ;;
      parsed <-? py_urlparse joined ;;
      Ok (resources, name_after_of parsed)
    else Ok (resources, None).

(** [LightroomClient.get_albums_page] *)
Definition get_albums_page (access_token : string) (limit : Z)
  (name_after : option string) : M LightroomClient (json * option string) :=
  catalog_id <- resolve_catalog_id access_token ;;
  page <- _make_request access_token "GET"
            (albums_endpoint catalog_id limit name_after) ;;
  lift (albums_page_result page).

(** [LightroomClient.get_album] *)
Definition get_album (access_token album_id : string) : M LightroomClient json :=
  catalog_id <- resolve_catalog_id access_token ;;
  _make_request access_token "GET"
    ("/catalogs/" ++ py_str catalog_id ++ "/albums/" ++ album_id).

(** [int(qs.get(key, [default])[0])] *)
Definition int_param (qs : dict (list string)) (key : string) (default : Z)
  : result Z :=
  match dict_get qs key with
  | None => Ok default
  | Some (v :: _) => py_int v
  | Some [] => Err (IndexError "list index out of range")
  end.

(** [try: body  except ValueError: handler] on pure code. *)
Definition try_ValueError {A} (body handler : result A) : result A :=
  match body with
  | Err e => if is_ValueError e then handler else Err e
  | r => r
  end.

(** The [try] block of [get_album_assets_page]: the limit and offset of the
    current page. *)
Definition current_limit_offset (qs : dict (list string)) (limit : Z)
  : result (Z * Z) :=
  try_ValueError
    (current_limit <-? int_param qs "limit" limit ;;
     current_offset <-? int_param qs "offset" 0 ;;
     Ok (current_limit, current_offset))
    (Ok (limit, 0)).

(** The [elif page_url:] branch of [get_album_assets_page]: the previous
    page computed from the URL of the current one, [None] when there is
    none. *)
Definition synthesize_prev_url (page_url : string) (limit : Z) : result json :=
  parsed <-? urlparse page_url ;;
  let qs := parse_qs (query parsed) in
  lo <-? current_limit_offset qs limit ;;
  let '(current_limit, current_offset) := lo in
  if 0 <? current_offset then
    let new_offset := Z.max 0 (current_offset - current_limit) in
    let qs := dict_set qs "offset" [str_int new_offset] in
    let qs := dict_set qs "limit" [str_int current_limit] in
    let new_query := urlencode qs in
    Ok (JStr (urlunparse (replace_query parsed new_query)))
  else Ok JNull.

(** [if page_url:] *)
Definition given (page_url : option string) : option string :=
  match page_url with
  | Some (String c r) => Some (String c r)
  | _ => None
  end.

(** What [get_album_assets_page] makes of the page it fetched: the
    resources, the next URL and the previous URL ([None] is [JNull]). *)
Definition assets_page_result (page : json) (limit : Z)
  (page_url : option string) : result (json * json * json) :=
  if negb (truthy page) then Ok (JArr [], JNull, JNull)
  else
    resources <-? py_get page "resources" (JArr []) ;;
    links <-? py_get page "links" (JObj []) ;;
    base <-? py_get page "base" (JStr API_BASE_URL) ;;
    next_href <-? link_href links "next" ;;
    next_url <-?
      (if truthy next_href then py_urljoin base next_href else Ok JNull) ;;
    prev_href <-? link_href links "prev" ;;
    prev_url <-?
      (if truthy prev_href then py_urljoin base prev_href
       else match given page_url with
            | Some u => synthesize_prev_url u limit
            | None => Ok JNull
            end) ;;
    Ok (resources, next_url, prev_url).

(** The endpoint of the first page of the assets of an album. *)
Definition assets_endpoint (catalog_id : json) (album_id : string) (limit : Z)
  : string :=
  "/catalogs/" ++ py_str catalog_id ++ "/albums/" ++ album_id
  ++ "/assets?limit=" ++ str_int limit.

(** [LightroomClient.get_album_assets_page] *)
Definition get_album_assets_page (access_token album_id : string) (limit : Z)
  (page_url : option string) : M LightroomClient (json * json * json) :=
  catalog_id <- resolve_catalog_id access_token ;;
  page <-
    match given page_url with
    | Some u => _make_request access_token "GET" u
    | None =>
        _make_request access_token "GET"
          (assets_endpoint catalog_id album_id limit)
    end ;;
  lift (assets_page_result page limit page_url).

(** The body of the [try] of [get_album_first_asset]. *)
Definition first_asset_lookup (access_token album_id : string)
  : M LightroomClient json :=
  catalog_id <- resolve_catalog_id access_token ;;
  page <- _make_request access_token "GET" (assets_endpoint catalog_id album_id 1) ;;
  if truthy page then
    resources <- lift (py_get page "resources" JNull) ;;
    if truthy resources then
      first_asset <- lift (py_first resources) ;;
      asset <- lift (py_get first_asset "asset" (JObj [])) ;;
      lift (py_get asset "id" JNull)
    else ret JNull
  else ret JNull.

(** [LightroomClient.get_album_first_asset]: [except Exception] handles
    every exception of the model. *)
Definition get_album_first_asset (access_token album_id : string)
  : M LightroomClient json :=
  try_except (first_asset_lookup access_token album_id)
    (fun _ => true)
    (fun _ => ret JNull).

(** The URL of a rendition. *)
Definition rendition_url (catalog_id : json) (asset_id rendition_type : string)
  : string :=
  API_BASE_URL ++ "/catalogs/" ++ py_str catalog_id ++ "/assets/" ++ asset_id
  ++ "/renditions/" ++ rendition_type.

(** [LightroomClient.get_asset_rendition] *)
Definition get_asset_rendition (access_token asset_id rendition_type : string)
  : M LightroomClient string :=
  catalog_id <- resolve_catalog_id access_token ;;
  self <- get_self ;;
  let url := rendition_url catalog_id asset_id rendition_type in
  resp <- requests_request (api_request self access_token "GET" url) ;;
  if status_code resp =? 401 then raise TokenExpired
  else
    _ <- lift (raise_for_status resp) ;;
    ret (text resp).

(** One evaluation of the condition and the body of the [while] loop of
    [_get_paged_resources]. *)
Inductive loop_outcome : Type :=
| Continue (page : json) (resources : list json)
| Break (resources : list json).

Definition paged_step (access_token : string) (page : json)
  (resources : list json) : M LightroomClient loop_outcome :=
  links <- lift (py_get page "links" (JObj [])) ;;
  next <- lift (py_get links "next" JNull) ;;
  if negb (truthy next) then ret (Break resources)
  else
    next_href <- lift (py_get next "href" JNull) ;;
    if negb (truthy next_href) then ret (Break resources)
    else
      base <- lift (py_get page "base" (JStr API_BASE_URL)) ;;
      next_url <- lift (py_urljoin base next_href) ;;
      page' <- _make_request_value access_token "GET" next_url ;;
      if negb (truthy page') then ret (Break resources)
      else
        rs <- lift (py_get page' "resources" (JArr [])) ;;
        items <- lift (py_iter rs) ;;
        ret (Continue page' (resources ++ items)%list).

(** The [while] loop, run for at most [fuel] evaluations of its condition;
    [None] when the loop is still running after that. *)
Fixpoint paged_loop (fuel : nat) (access_token : string) (page : json)
  (resources : list json) (self : LightroomClient) (w : world)
  : option (result (list json) * LightroomClient * world) :=
  match fuel with
  | O => None
  | S fuel' =>
      match paged_step access_token page resources self w with
      | (Ok (Continue page' resources'), self', w') =>
          paged_loop fuel' access_token page' resources' self' w'
      | (Ok (Break resources'), self', w') => Some (Ok resources', self', w')
      | (Err e, self', w') => Some (Err e, self', w')
      end
  end.

(** [LightroomClient._get_paged_resources] *)
Definition _get_paged_resources (fuel : nat) (access_token initial_endpoint : string)
  (self : LightroomClient) (w : world)
  : option (result (list json) * LightroomClient * world) :=
  match _make_request access_token "GET" initial_endpoint self w with
  | (Err e, self', w') => Some (Err e, self', w')
  | (Ok page, self', w') =>
      if negb (truthy page) then Some (Ok [], self', w')
      else
        match (rs <-? py_get page "resources" (JArr []) ;; py_iter rs) with
        | Err e => Some (Err e, self', w')
        | Ok items => paged_loop fuel access_token page items self' w'
        end
  end.

End Runtime.

(** ** [app.py]

    The views of the Flask application, each a function of the query
    arguments of the request, the session of the browser and the two
    objects of the process (the OAuth handler and the Lightroom client,
    which shares the handler); it returns what the view returns and the
    session and the objects as the view leaves them.  Templates are not
    rendered: a rendered page is its name and its context.  [request.args]
    is a dict of strings (the first value of each key), the session a dict
    of JSON values, and [url_for] gives the path of the route. *)

Inductive view_result : Type :=
| Redirect (location : string)             (* redirect(...) *)
| Render (template : string) (context : dict json)
                                           (* render_template(name, **context) *)
| Text (body : string) (status : Z)        (* return body, status *)
| Json (body : json) (status : Z)          (* return a dict [, status] *)
| Image (data : string).                   (* Response(data, mimetype='image/jpeg') *)

(** [url_for('login')], [url_for('albums')] *)
Definition url_for_login : string := "/login".
Definition url_for_albums : string := "/albums".

(** The objects of the process: [oauth_handler], and the catalog memo of
    [lightroom_client], whose handler is that same object. *)
Record server : Type := mkServer {
  oauth : OAuthHandler;
  memo : json
}.

Definition lightroom_client (s : server) : LightroomClient :=
  mkLightroomClient (oauth s) (memo s).

(** A call of a method of [lightroom_client]. *)
Definition with_client {A} (c : M LightroomClient A) (s : server) (w : world)
  : result A * server * world :=
  let '(r, self, w') := c (lightroom_client s) w in
  (r, mkServer (oauth_handler self) (catalog self), w').

(** [str(e)] where the exception may be a [KeyError] of a string key. *)
Definition app_str (e : exn) : string :=
  match e with
  | KeyError k => "'" ++ k ++ "'"
  | _ => str_exn e
  end.

(** [if value:] for an optional string. *)
Definition present (v : option string) : option string :=
  match v with
  | Some (String c r) => Some (String c r)
  | _ => None
  end.

(** [album[key] = value] on a dict. *)
Definition set_item (d : json) (key : string) (value : json) : result json :=
  match d with
  | JObj m => Ok (JObj (dict_set m key value))
  | _ => Err (TypeError "object does not support item assignment")
  end.

Definition optional (v : option string) : json :=
  match v with
  | Some s => JStr s
  | None => JNull
  end.

Definition allowed_types : list string :=
  ["thumbnail"; "thumbnail2x"; "640"; "1280"; "1920"; "2048"; "2560"].

Section App.

Variable fmt : json -> string.
Variable netloc_ok : string -> bool.

(** [ALBUMS_PER_PAGE], [PHOTOS_PER_PAGE]: read from the environment when
    the module is loaded. *)
Variable ALBUMS_PER_PAGE : Z.
Variable PHOTOS_PER_PAGE : Z.

Notation "x <- c ;; k" := (bind c (fun x => k))
  (at level 61, c at next level, right associativity).

Definition view (A : Type) : Type :=
  dict json -> server -> world -> A * dict json * server * world.

(** [index] *)
Definition index : view view_result :=
  fun session s w =>
    match dict_get session "access_token" with
    | None => (Redirect url_for_login, session, s, w)
    | Some _ => (Redirect url_for_albums, session, s, w)
    end.

(** [login] *)
Definition login : view view_result :=
  fun session s w =>
    match dict_get session "access_token" with
    | Some _ => (Redirect url_for_albums, session, s, w)
    | None => (Render "login.html" [], session, s, w)
    end.

(** [oauth_start]; an exception that leaves a view is answered by Flask
    with status 500. *)
Definition oauth_start : view view_result :=
  fun session s w =>
    match dict_get session "access_token" with
    | Some _ => (Redirect url_for_albums, session, s, w)
    | None =>
        match get_authorization_url (oauth s) w with
        | (Ok auth_url, h, w') => (Redirect auth_url, session, mkServer h (memo s), w')
        | (Err e, h, w') =>
            (Text "Internal Server Error" 500, session, mkServer h (memo s), w')
        end
    end.

(** The assignments to the session in [callback]. *)
Definition store_token (token_data : json) (session : dict json)
  : result unit * dict json :=
  match py_item token_data "access_token" with
  | Err e => (Err e, session)
  | Ok access_token =>
      let session := dict_set session "access_token" access_token in
      match py_get token_data "refresh_token" JNull with
      | Err e => (Err e, session)
      | Ok refresh_token =>
          let session := dict_set session "refresh_token" refresh_token in
          match py_get token_data "expires_in" (JInt 3600) with
          | Err e => (Err e, session)
          | Ok expires_in => (Ok tt, dict_set session "expires_in" expires_in)
          end
      end
  end.

(** [callback] *)
Definition callback (args : dict string) : view view_result :=
  fun session s w =>
    let code := dict_get args "code" in
    let error := dict_get args "error" in
    let state := dict_get args "state" in
    match present error with
    | Some error =>
        let error_description :=
          match dict_get args "error_description" with
          | Some d => d
          | None => error
          end in
        (Text ("Authentication error: " ++ error_description) 400, session, s, w)
    | None =>
        match present code with
        | None => (Text "No authorization code provided" 400, session, s, w)
        | Some code =>
            let '(r, h, w') := get_access_token fmt code state (oauth s) w in
            let s' := mkServer h (memo s) in
            match r with
            | Err e =>
                (Text ("Error during authentication: " ++ app_str e) 500,
                 session, s', w')
            | Ok token_data =>
                match store_token token_data session with
                | (Ok _, session') => (Redirect url_for_albums, session', s', w')
                | (Err e, session') =>
                    (Text ("Error during authentication: " ++ app_str e) 500,
                     session', s', w')
                end
            end
        end
    end.

(** The body of the loop of [albums]. *)
Definition enrich_album (tok : string) (album : json) : M LightroomClient json :=
  album_id <- lift (py_get album "id" JNull) ;;
  if truthy album_id then
    first_asset_id <- get_album_first_asset fmt tok (py_str fmt album_id) ;;
    lift (set_item album "first_asset_id" first_asset_id)
  else ret album.

Fixpoint enrich_albums (tok : string) (albums_list : list json)
  : M LightroomClient (list json) :=
  match albums_list with
  | [] => ret []
  | album :: rest =>
      album' <- enrich_album tok album ;;
      rest' <- enrich_albums tok rest ;;
      ret (album' :: rest')
  end.

(** The loop of [albums] over the value of [albums_list]; a list is
    changed in place. *)
Definition enrich (tok : string) (albums_list : json) : M LightroomClient json :=
  items <- lift (py_iter albums_list) ;;
  items' <- enrich_albums tok items ;;
  ret (match albums_list with
       | JArr _ => JArr items'
       | v => v
       end).

(** [albums] *)
Definition albums : view view_result :=
  fun session s w =>
    match dict_get session "access_token" with
    | None => (Redirect url_for_login, session, s, w)
    | Some access_token =>
        let tok := py_str fmt access_token in
        let '(r, s', w') :=
          with_client
            (p <- get_albums_page fmt netloc_ok tok ALBUMS_PER_PAGE None ;;
             albums_list <- enrich tok (fst p) ;;
             ret (albums_list, snd p)) s w in
        (match r with
         | Ok (albums_list, next_name_after) =>
             Render "albums.html"
               [("albums", albums_list);
                ("next_name_after", optional next_name_after)]
         | Err e => Text ("Error fetching albums: " ++ app_str e) 500
         end, session, s', w')
    end.

(** The body of the loop of [albums_api]: the entry of an album, when it
    has an id. *)
Definition album_entry (tok : string) (album : json)
  : M LightroomClient (option json) :=
  album_id <- lift (py_get album "id" JNull) ;;
  if truthy album_id then
    first_asset_id <- get_album_first_asset fmt tok (py_str fmt album_id) ;;
    payload <- lift (py_get album "payload" (JObj [])) ;;
    name <- lift (py_get payload "name" (JStr "Untitled Album")) ;;
    asset_count <- lift (py_get payload "assetCount" (JInt 0)) ;;
    ret (Some (JObj [("id", album_id); ("name", name);
                     ("asset_count", asset_count);
                     ("first_asset_id", first_asset_id)]))
  else ret None.

Fixpoint album_entries (tok : string) (albums_list : list json)
  : M LightroomClient (list json) :=
  match albums_list with
  | [] => ret []
  | album :: rest =>
      entry <- album_entry tok album ;;
      rest' <- album_entries tok rest ;;
      ret (match entry with
           | Some e => e :: rest'
           | None => rest'
           end)
  end.

(** [albums_api] *)
Definition albums_api (args : dict string) : view view_result :=
  fun session s w =>
    match dict_get session "access_token" with
    | None => (Json (JObj [("error", JStr "Unauthorized")]) 401, session, s, w)
    | Some access_token =>
        match present (dict_get args "name_after") with
        | None =>
            (Json (JObj [("error", JStr "name_after parameter required")]) 400,
             session, s, w)
        | Some name_after =>
            let tok := py_str fmt access_token in
            let '(r, s', w') :=
              with_client
                (p <- get_albums_page fmt netloc_ok tok ALBUMS_PER_PAGE
                        (Some name_after) ;;
                 items <- lift (py_iter (fst p)) ;;
                 albums_data <- album_entries tok items ;;
                 ret (albums_data, snd p)) s w in
            (match r with
             | Ok (albums_data, next_name_after) =>
                 Json (JObj [("albums", JArr albums_data);
                             ("next_name_after", optional next_name_after)]) 200
             | Err e => Json (JObj [("error", JStr (app_str e))]) 500
             end, session, s', w')
        end
    end.

(** [album_view] *)
Definition album_view (album_id : string) (args : dict string) : view view_result :=
  fun session s w =>
    match dict_get session "access_token" with
    | None => (Redirect url_for_login, session, s, w)
    | Some access_token =>
        let page_url := present (dict_get args "page_url") in
        let tok := py_str fmt access_token in
        let '(r, s', w') :=
          with_client
            (album_info <- get_album fmt tok album_id ;;
             p <- get_album_assets_page fmt netloc_ok tok album_id PHOTOS_PER_PAGE
                    page_url ;;
             ret (album_info, p)) s w in
        (match r with
         | Ok (album_info, (photos, next_url, prev_url)) =>
             Render "gallery.html"
               [("album", album_info); ("photos", photos);
                ("next_url", next_url); ("prev_url", prev_url);
                ("album_id", JStr album_id)]
         | Err e => Text ("Error fetching album photos: " ++ app_str e) 500
         end, session, s', w')
    end.

(** The body of the loop of [album_photos_api]. *)
Definition photo_entry (photo : json) : result (option json) :=
  asset <-? py_get photo "asset" (JObj []) ;;
  asset_id <-? py_get asset "id" JNull ;;
  if truthy asset_id then
    payload <-? py_get asset "payload" (JObj []) ;;
    import_source <-? py_get payload "importSource" (JObj []) ;;
    filename <-? py_get import_source "fileName" (JStr "Photo") ;;
    Ok (Some (JObj [("asset_id", asset_id); ("filename", filename)]))
  else Ok None.

Fixpoint photo_entries (photos : list json) : result (list json) :=
  match photos with
  | [] => Ok []
  | photo :: rest =>
      entry <-? photo_entry photo ;;
      rest' <-? photo_entries rest ;;
      Ok (match entry with
          | Some e => e :: rest'
          | None => rest'
          end)
  end.

(** [album_photos_api] *)
Definition album_photos_api (album_id : string) (args : dict string)
  : view view_result :=
  fun session s w =>
    match dict_get session "access_token" with
    | None => (Json (JObj [("error", JStr "Unauthorized")]) 401, session, s, w)
    | Some access_token =>
        match present (dict_get args "page_url") with
        | None =>
            (Json (JObj [("error", JStr "page_url parameter required")]) 400,
             session, s, w)
        | Some page_url =>
            let tok := py_str fmt access_token in
            let '(r, s', w') :=
              with_client
                (p <- get_album_assets_page fmt netloc_ok tok album_id
                        PHOTOS_PER_PAGE (Some page_url) ;;
                 let '(photos, next_url, _) := p in
                 items <- lift (py_iter photos) ;;
                 photos_data <- lift (photo_entries items) ;;
                 ret (photos_data, next_url)) s w in
            (match r with
             | Ok (photos_data, next_url) =>
                 Json (JObj [("photos", JArr photos_data);
                             ("next_url", next_url)]) 200
             | Err e => Json (JObj [("error", JStr (app_str e))]) 500
             end, session, s', w')
        end
    end.

(** [thumbnail] *)
Definition thumbnail (asset_id : string) (args : dict string) : view view_result :=
  fun session s w =>
    match dict_get session "access_token" with
    | None => (Text "Unauthorized" 401, session, s, w)
    | Some access_token =>
        let rendition_type :=
          match dict_get args "type" with
          | Some t => t
          | None => "thumbnail2x"
          end in
        if negb (mem rendition_type allowed_types) then
          (Text ("Invalid rendition type. Allowed: " ++ join ", " allowed_types) 400,
           session, s, w)
        else
          let tok := py_str fmt access_token in
          let '(r, s', w') :=
            with_client (get_asset_rendition fmt tok asset_id rendition_type) s w in
          (match r with
           | Ok image_data => Image image_data
           | Err e => Text ("Error fetching image: " ++ app_str e) 500
           end, session, s', w')
    end.

(** [logout] *)
Definition logout : view view_result :=
  fun session s w => (Redirect url_for_login, [], s, w).

End App.

(** * Properties *)

(** ** The method monad *)

Lemma bind_ok {Self A B} (c : M Self A) (k : A -> M Self B) self w a self' w' :
  c self w = (Ok a, self', w') -> bind c k self w = k a self' w'.
Proof. intros H. unfold bind. rewrite H. reflexivity. Qed.

Lemma bind_err {Self A B} (c : M Self A) (k : A -> M Self B) self w e self' w' :
  c self w = (Err e, self', w') -> bind c k self w = (Err e, self', w').
Proof. intros H. unfold bind. rewrite H. reflexivity. Qed.

(** ** The OAuth handler *)

Lemma state_rejected_mismatch s stored :
  s <> EmptyString -> stored <> Some s -> state_rejected (Some s) stored = true.
Proof.
  intros Hs Hne. unfold state_rejected.
  destruct (String.eqb_spec s EmptyString) as [->|_]; [congruence|].
  destruct stored as [t|]; simpl; [|reflexivity].
  destruct (String.eqb_spec s t) as [->|_]; [congruence|reflexivity].
Qed.

Lemma state_rejected_absent st stored :
  st = None \/ st = Some EmptyString -> state_rejected st stored = false.
Proof. intros [->| ->]; reflexivity. Qed.

(** The exchange itself never touches the handler and sends exactly the
    token request. *)
Lemma exchange_frame fmt self code h w :
  exists r, exchange fmt self code h w = (r, h, log_request w (token_request self code)).
Proof.
  unfold exchange, bind, requests_request, lift, raise.
  destruct (upstream w _ _) as [resp|e]; [|eexists; reflexivity].
  destruct (negb (response_ok resp)); [|eexists; reflexivity].
  destruct (token_error_detail fmt resp); eexists; reflexivity.
Qed.

(** A call that passes the state check sends the token request, leaves the
    handler as it was, and does not end in [InvalidState]. *)
Lemma get_access_token_passed fmt code st h w :
  state_rejected st (state h) = false ->
  exists r,
    get_access_token fmt code st h w
      = (r, h, log_request w (token_request h code))
    /\ r <> Err InvalidState.
Proof.
  intros Hst. unfold get_access_token, bind, get_self. rewrite Hst.
  unfold try_except.
  destruct (exchange_frame fmt h code h w) as [r Hr]. rewrite Hr.
  destruct r as [v|e].
  - eexists; split; [reflexivity|discriminate].
  - destruct e; simpl; unfold raise; eexists; (split; [reflexivity|discriminate]).
Qed.

Lemma get_access_token_rejected fmt code st h w :
  state_rejected st (state h) = true ->
  get_access_token fmt code st h w = (Err InvalidState, h, w).
Proof.
  intros Hst. unfold get_access_token, bind, get_self. rewrite Hst. reflexivity.
Qed.

(** C1 (amended): a state argument that is given, not empty and different
    from the stored state makes [get_access_token] raise [InvalidState]
    with no request sent and nothing changed; a state argument that is
    absent or empty is not checked at all, whatever the stored state: the
    token request is sent and the call does not end in [InvalidState]. *)
Theorem get_access_token_state_check fmt code h w :
  (forall s, s <> EmptyString -> state h <> Some s ->
     get_access_token fmt code (Some s) h w = (Err InvalidState, h, w))
  /\ (forall st, st = None \/ st = Some EmptyString ->
      exists r,
        get_access_token fmt code st h w
          = (r, h, log_request w (token_request h code))
        /\ r <> Err InvalidState).
Proof.
  split.
  - intros s Hs Hne. apply get_access_token_rejected.
    now apply state_rejected_mismatch.
  - intros st Hst. apply get_access_token_passed.
    now apply state_rejected_absent.
Qed.

(** C9: [get_access_token] leaves the handler, and so the stored state,
    exactly as it was, whatever the outcome; hence a state value accepted
    once is accepted again by a later call; only [get_authorization_url]
    replaces the stored state, by the token it draws. *)
Theorem get_access_token_keeps_state fmt code st h w :
  snd (fst (get_access_token fmt code st h w)) = h
  /\ (forall v h1 w1,
        get_access_token fmt code st h w = (Ok v, h1, w1) ->
        forall code' w',
        exists r,
          get_access_token fmt code' st h1 w'
            = (r, h1, log_request w' (token_request h1 code'))
          /\ r <> Err InvalidState)
  /\ state (snd (fst (get_authorization_url h w)))
       = Some (token_urlsafe w (drawn w)).
Proof.
  assert (Hframe : snd (fst (get_access_token fmt code st h w)) = h).
  { destruct (state_rejected st (state h)) eqn:Hst.
    - rewrite get_access_token_rejected by assumption. reflexivity.
    - destruct (get_access_token_passed fmt code st h w Hst) as [r [-> _]].
      reflexivity. }
  split; [exact Hframe|split].
  - intros v h1 w1 Hcall code' w'.
    rewrite Hcall in Hframe. simpl in Hframe. subst h1.
    apply get_access_token_passed.
    destruct (state_rejected st (state h)) eqn:Hst; [|reflexivity].
    rewrite get_access_token_rejected in Hcall by assumption. discriminate.
  - reflexivity.
Qed.

(** ** The Lightroom client: requests *)

(** A request through [_make_request] leaves the client as it was and adds
    exactly one request to the log. *)
Lemma _make_request_frame tok method endpoint self w :
  exists r,
    _make_request tok method endpoint self w
      = (r, self,
         log_request w (api_request self tok method (request_url endpoint))).
Proof.
  unfold _make_request, bind, get_self, requests_request, raise, lift.
  destruct (upstream w _ _) as [resp|e]; [|eexists; reflexivity].
  destruct (status_code resp =? 401); [eexists; reflexivity|].
  destruct (raise_for_status resp); eexists; reflexivity.
Qed.

Lemma _make_request_401 tok method endpoint self w resp :
  upstream w (List.length (sent w))
    (api_request self tok method (request_url endpoint)) = Ok resp ->
  status_code resp = 401 ->
  _make_request tok method endpoint self w
    = (Err TokenExpired, self,
       log_request w (api_request self tok method (request_url endpoint))).
Proof.
  intros Hup Hst.
  unfold _make_request, bind, get_self, requests_request, raise.
  rewrite Hup, Hst. reflexivity.
Qed.

(** C3: a response with status 401 makes [_make_request] raise
    [TokenExpired] whatever its body is (the body is never looked at: the
    result is the same for every text, also one that does not decode), and
    so does the rendition request of [get_asset_rendition]. *)
Theorem status_401_is_TokenExpired fmt tok self w resp :
  status_code resp = 401 ->
  (forall method endpoint,
     upstream w (List.length (sent w))
       (api_request self tok method (request_url endpoint)) = Ok resp ->
     _make_request tok method endpoint self w
       = (Err TokenExpired, self,
          log_request w (api_request self tok method (request_url endpoint))))
  /\ (forall asset_id rendition_type self0 w0 cid,
        resolve_catalog_id tok self0 w0 = (Ok cid, self, w) ->
        upstream w (List.length (sent w))
          (api_request self tok "GET"
             (rendition_url fmt cid asset_id rendition_type)) = Ok resp ->
        get_asset_rendition fmt tok asset_id rendition_type self0 w0
          = (Err TokenExpired, self,
             log_request w
               (api_request self tok "GET"
                  (rendition_url fmt cid asset_id rendition_type)))).
Proof.
  intros Hst. split.
  - intros method endpoint Hup. now apply (_make_request_401 _ _ _ _ _ resp).
  - intros asset_id rendition_type self0 w0 cid Hcat Hup.
    unfold get_asset_rendition.
    rewrite (bind_ok _ _ _ _ _ _ _ Hcat).
    unfold bind, get_self, requests_request, raise.
    rewrite Hup, Hst. reflexivity.
Qed.

(** ** The Lightroom client: the catalog memo *)

Lemma get_catalog_memo tok self w :
  catalog self <> JNull -> get_catalog tok self w = (Ok (catalog self), self, w).
Proof.
  intros Hc. unfold get_catalog, bind, get_self.
  destruct (catalog self); try reflexivity. congruence.
Qed.

Lemma get_catalog_fetch tok self w :
  catalog self = JNull ->
  get_catalog tok self w
    = match _make_request tok "GET" "/catalog" self w with
      | (Ok c, self', w') =>
          (Ok c, mkLightroomClient (oauth_handler self') c, w')
      | (Err e, self', w') => (Err e, self', w')
      end.
Proof.
  intros Hc. unfold get_catalog, bind at 1. unfold get_self at 1. rewrite Hc.
  unfold bind, set_catalog, ret.
  destruct (_make_request tok "GET" "/catalog" self w) as [[[c|e] s'] w'];
    reflexivity.
Qed.

Definition catalog_request (self : LightroomClient) (tok : string) : request :=
  api_request self tok "GET" (request_url "/catalog").

(** C6 (amended): when a call of [get_catalog] returns a catalog that is
    not [None], that call sent at most one request (exactly one, the
    [/catalog] request, when nothing was memoized before), the value is
    memoized on the client, and every later call on that client (with any
    token, in any world) returns the same value and sends nothing. *)
Theorem get_catalog_memoizes tok self w c self1 w1 :
  get_catalog tok self w = (Ok c, self1, w1) ->
  c <> JNull ->
  catalog self1 = c
  /\ (catalog self = JNull ->
      w1 = log_request w (catalog_request self tok))
  /\ (catalog self <> JNull -> w1 = w)
  /\ (forall tok' w', get_catalog tok' self1 w' = (Ok c, self1, w')).
Proof.
  intros Hcall Hc.
  assert (Hmemo : catalog self1 = c).
  { destruct (catalog self) eqn:Hcat;
      try (rewrite get_catalog_memo in Hcall by congruence;
           injection Hcall as <- <- <-; reflexivity).
    rewrite get_catalog_fetch in Hcall by assumption.
    destruct (_make_request tok "GET" "/catalog" self w) as [[[c'|e] s'] w'];
      [|discriminate].
    injection Hcall as <- <- <-. reflexivity. }
  split; [exact Hmemo|]. split; [|split].
  - intros Hnull. rewrite get_catalog_fetch in Hcall by assumption.
    destruct (_make_request_frame tok "GET" "/catalog" self w) as [r Hr].
    rewrite Hr in Hcall. destruct r; [|discriminate].
    injection Hcall as _ _ <-. reflexivity.
  - intros Hsome. rewrite get_catalog_memo in Hcall by assumption.
    injection Hcall as _ _ <-. reflexivity.
  - intros tok' w'. rewrite get_catalog_memo by congruence.
    rewrite Hmemo. reflexivity.
Qed.

(** ** The Lightroom client: the first asset of an album *)

(** C7: [get_album_first_asset] never raises: it returns what the lookup
    returns when the lookup succeeds and [None] when the lookup raises,
    whatever the exception (catalog, request, shape of the response); an
    empty or absent page gives [None] as well. *)
Theorem get_album_first_asset_total fmt tok album_id self w :
  (exists v self' w',
     get_album_first_asset fmt tok album_id self w = (Ok v, self', w'))
  /\ (forall e self' w',
        first_asset_lookup fmt tok album_id self w = (Err e, self', w') ->
        get_album_first_asset fmt tok album_id self w = (Ok JNull, self', w'))
  /\ (forall cid self1 w1 page self2 w2,
        resolve_catalog_id tok self w = (Ok cid, self1, w1) ->
        _make_request tok "GET" (assets_endpoint fmt cid album_id 1) self1 w1
          = (Ok page, self2, w2) ->
        truthy page = false \/ py_get page "resources" JNull = Ok (JArr []) ->
        get_album_first_asset fmt tok album_id self w = (Ok JNull, self2, w2)).
Proof.
  unfold get_album_first_asset, try_except.
  split; [|split].
  - destruct (first_asset_lookup fmt tok album_id self w) as [[[v|e] s'] w'].
    + now exists v, s', w'.
    + now exists JNull, s', w'.
  - intros e s' w' ->. reflexivity.
  - intros cid self1 w1 page self2 w2 Hcat Hreq Hempty.
    unfold first_asset_lookup.
    rewrite (bind_ok _ _ _ _ _ _ _ Hcat), (bind_ok _ _ _ _ _ _ _ Hreq).
    destruct (truthy page) eqn:Hp.
    + destruct Hempty as [?|Hres]; [discriminate|].
      unfold bind, lift. rewrite Hres. reflexivity.
    + reflexivity.
Qed.

(** ** The decoder never runs out of fuel *)

Lemma skip_json_ws_length s :
  (String.length (skip_json_ws s) <= String.length s)%nat.
Proof.
  induction s as [|c s IH]; simpl; [lia|].
  destruct (is_json_ws c); simpl; lia.
Qed.

Lemma emit_ok pre x str r :
  emit pre x = Ok (str, r) -> exists str', x = Ok (str', r).
Proof.
  destruct x as [[s' r']|e]; simpl; [|discriminate]. intros [= _ <-]. eauto.
Qed.

Lemma end_of_hex_ok k hi uni str r :
  end_of_hex k hi uni = Ok (str, r) -> exists st' str', k st' = Ok (str', r).
Proof.
  unfold end_of_hex. destruct hi as [h|].
  - destruct (is_low_surrogate uni); [|destruct (is_high_surrogate uni)];
      intros H; apply emit_ok in H as [str' H]; eauto.
  - destruct (is_high_surrogate uni); [eauto|].
    intros H; apply emit_ok in H as [str' H]; eauto.
Qed.

(** A string literal ends after at least its closing quote. *)
Lemma scanstring_from_length s : forall st str r,
  scanstring_from st s = Ok (str, r) ->
  (String.length r < String.length s)%nat.
Proof.
  induction s as [|c s IH]; intros st str r H; [discriminate|].
  assert (K : forall st' str',
             scanstring_from st' s = Ok (str', r) ->
             (String.length r < String.length (String c s))%nat).
  { intros st' str' H'. apply IH in H'. simpl. lia. }
  cbn [scanstring_from] in H. cbv zeta in H.
  assert (Hnorm : forall str',
             (if Ascii.eqb c "034" then Ok (EmptyString, s)
              else if Ascii.eqb c "\" then scanstring_from (SEsc None) s
              else if (ord c <? 32)%N then Err Invalid_control
              else emit (String c EmptyString) (scanstring_from SNorm s))
             = Ok (str', r) ->
             (String.length r < String.length (String c s))%nat).
  { intros str'. destruct (Ascii.eqb c "034").
    - intros [= _ <-]. simpl. lia.
    - destruct (Ascii.eqb c "\"); [apply K|].
      destruct (ord c <? 32)%N; [discriminate|].
      intros H'. apply emit_ok in H' as [? H']. eapply K, H'. }
  destruct st as [|hi|hi n acc|h].
  - eapply Hnorm, H.
  - destruct (Ascii.eqb c "u"); [eapply K, H|].
    destruct (BACKSLASH c); [|discriminate].
    apply emit_ok in H as [? H]. eapply K, H.
  - destruct (hex_val c); [|discriminate].
    destruct n as [|[|n]]; try (eapply K, H);
      apply end_of_hex_ok in H as (st' & str' & H); eapply K, H.
  - destruct (Ascii.eqb c "\"); [eapply K, H|].
    apply emit_ok in H as [? H]. eapply Hnorm, H.
Qed.

Lemma span_length p s h t :
  span p s = (h, t) -> (String.length t <= String.length s)%nat.
Proof.
  revert h t. induction s as [|c s IH]; intros h t; simpl.
  - intros [= _ <-]. simpl. lia.
  - destruct (p c).
    + destruct (span p s) as [h' t'] eqn:E. intros [= _ <-].
      specialize (IH _ _ eq_refl). lia.
    + intros [= _ <-]. simpl. lia.
Qed.

Lemma startswith_drop p s :
  startswith p s = true ->
  (String.length (drop (String.length p) s) + String.length p
   = String.length s)%nat.
Proof.
  revert s. induction p as [|a p IH]; intros s; simpl; [lia|].
  destruct s as [|b s]; [discriminate|].
  intros H. apply andb_prop in H as [_ H]. apply IH in H. simpl. lia.
Qed.

Lemma match_integer_length s i r :
  match_integer s = Some (i, r) -> (String.length r < String.length s)%nat.
Proof.
  unfold match_integer.
  assert (H : forall sign s1,
             match s1 with
             | String c r0 =>
                 if Ascii.eqb c "0" then Some (sign ++ "0", r0)
                 else if nonzero_digit c then
                   let (ds, rest) := span is_digit r0 in
                   Some (sign ++ String c ds, rest)
                 else None
             | EmptyString => None
             end = Some (i, r) ->
             (String.length r < String.length s1)%nat).
  { intros sign [|c r0]; [discriminate|].
    destruct (Ascii.eqb c "0"); [intros [= _ <-]; simpl; lia|].
    destruct (nonzero_digit c); [|discriminate].
    destruct (span is_digit r0) as [ds rest] eqn:E. intros [= _ <-].
    apply span_length in E. simpl. lia. }
  destruct s as [|c s]; [discriminate|].
  destruct (Ascii.eqb c "-") eqn:Ec.
  - apply Ascii.eqb_eq in Ec as ->. intros H'. apply (H "-" s) in H'.
    simpl. lia.
  - replace (match String c s with
             | String "-" r0 => ("-", r0)
             | _ => (EmptyString, String c s)
             end) with (EmptyString, String c s).
    + apply (H EmptyString (String c s)).
    + destruct c as [[] [] [] [] [] [] [] []]; try reflexivity. discriminate.
Qed.

Lemma match_frac_length s f r :
  match_frac s = (f, r) -> (String.length r <= String.length s)%nat.
Proof.
  unfold match_frac. destruct s as [|c s]; [intros [= _ <-]; simpl; lia|].
  destruct (Ascii.eqb c ".") eqn:Ec.
  - apply Ascii.eqb_eq in Ec as ->.
    destruct (span is_digit s) as [ds rest] eqn:E. apply span_length in E.
    destruct ds; intros [= _ <-]; simpl; lia.
  - replace (match String c s with
             | String "." r0 =>
                 let (ds, rest) := span is_digit r0 in
                 match ds with
                 | EmptyString => (EmptyString, String c s)
                 | String _ _ => (String "." ds, rest)
                 end
             | _ => (EmptyString, String c s)
             end) with (EmptyString, String c s).
    + intros [= _ <-]. simpl. lia.
    + destruct c as [[] [] [] [] [] [] [] []]; try reflexivity. discriminate.
Qed.

Lemma match_exp_length s e r :
  match_exp s = (e, r) -> (String.length r <= String.length s)%nat.
Proof.
  unfold match_exp. destruct s as [|c s]; [intros [= _ <-]; simpl; lia|].
  destruct (Ascii.eqb c "e" || Ascii.eqb c "E")%bool;
    [|intros [= _ <-]; simpl; lia].
  destruct (match s with
            | String "-" r' => ("-", r')
            | String "+" r' => ("+", r')
            | _ => (EmptyString, s)
            end) as [sg r1] eqn:Esg.
  assert (Hr1 : (String.length r1 <= String.length s)%nat).
  { destruct s as [|x s']; [injection Esg as _ <-; simpl; lia|].
    destruct x as [[] [] [] [] [] [] [] []]; injection Esg as _ <-; simpl; lia. }
  destruct (span is_digit r1) as [ds rest] eqn:E. apply span_length in E.
  destruct ds; intros [= _ <-]; simpl; lia.
Qed.

Lemma match_number_length s v r :
  match_number s = Some (v, r) -> (String.length r < String.length s)%nat.
Proof.
  unfold match_number.
  destruct (match_integer s) as [[i r1]|] eqn:Ei; [|discriminate].
  apply match_integer_length in Ei.
  destruct (match_frac r1) as [f r2] eqn:Ef. apply match_frac_length in Ef.
  destruct (match_exp r2) as [e r3] eqn:Ee. apply match_exp_length in Ee.
  destruct f, e; try (intros [= _ <-]; lia).
  destruct (py_int i); [|discriminate]. intros [= _ <-]. lia.
Qed.

Lemma match_constant_length s v r :
  match_constant s = Some (v, r) -> (String.length r < String.length s)%nat.
Proof.
  unfold match_constant.
  repeat match goal with
  | |- context [if startswith ?p s then _ else _] =>
      let E := fresh "E" in
      destruct (startswith p s) eqn:E;
      [apply startswith_drop in E; simpl in E; intros [= _ <-]; lia|]
  | |- context [match match_number s with _ => _ end] =>
      let E := fresh "E" in
      destruct (match_number s) as [[v' r']|] eqn:E;
      [apply match_number_length in E; intros [= _ <-]; exact E|]
  end.
  discriminate.
Qed.

Definition decode_error (e : exn) : Prop := exists m, e = JSONDecodeError m.

Lemma emit_err pre x e : emit pre x = Err e -> x = Err e.
Proof. destruct x as [[s' r']|e']; simpl; [discriminate|]. now intros [= <-]. Qed.

Lemma end_of_hex_err k hi uni e :
  end_of_hex k hi uni = Err e -> exists st', k st' = Err e.
Proof.
  unfold end_of_hex. destruct hi as [h|].
  - destruct (is_low_surrogate uni); [|destruct (is_high_surrogate uni)];
      intros H; apply emit_err in H; eauto.
  - destruct (is_high_surrogate uni); [eauto|].
    intros H; apply emit_err in H; eauto.
Qed.

Lemma scanstring_from_err s : forall st e,
  scanstring_from st s = Err e -> decode_error e.
Proof.
  induction s as [|c s IH]; intros st e H.
  - injection H as <-. now eexists.
  - cbn [scanstring_from] in H. cbv zeta in H.
    assert (Hnorm :
             (if Ascii.eqb c "034" then Ok (EmptyString, s)
              else if Ascii.eqb c "\" then scanstring_from (SEsc None) s
              else if (ord c <? 32)%N then Err Invalid_control
              else emit (String c EmptyString) (scanstring_from SNorm s))
             = Err e -> decode_error e).
    { destruct (Ascii.eqb c "034"); [discriminate|].
      destruct (Ascii.eqb c "\"); [apply IH|].
      destruct (ord c <? 32)%N; [intros [= <-]; now eexists|].
      intros H'. apply emit_err in H'. eapply IH, H'. }
    destruct st as [|hi|hi n acc|h].
    + apply Hnorm, H.
    + destruct (Ascii.eqb c "u"); [eapply IH, H|].
      destruct (BACKSLASH c); [|injection H as <-; now eexists].
      apply emit_err in H. eapply IH, H.
    + destruct (hex_val c); [|injection H as <-; now eexists].
      destruct n as [|[|n]]; try (eapply IH, H);
        apply end_of_hex_err in H as (st' & H); eapply IH, H.
    + destruct (Ascii.eqb c "\"); [eapply IH, H|].
      apply emit_err in H. apply Hnorm, H.
Qed.

(** With twice the length of the text as fuel (and one or two more for the
    helpers) the decoder raises only [JSONDecodeError], never the error of
    the exhausted fuel, and what it leaves is shorter than what it got. *)
Lemma decoder_fuel : forall f,
  (forall s, (2 * String.length s + 1 <= f)%nat ->
     (forall e, scan_once f s = Err e -> decode_error e)
     /\ (forall v r, scan_once f s = Ok (v, r) ->
           (String.length r < String.length s)%nat))
  /\ (forall s, (2 * String.length s + 2 <= f)%nat ->
        (forall e, JSONArray f s = Err e -> decode_error e)
        /\ (forall l r, JSONArray f s = Ok (l, r) ->
              (String.length r < String.length s)%nat))
  /\ (forall s, (2 * String.length s + 1 <= f)%nat ->
        (forall e, JSONObject f s = Err e -> decode_error e)
        /\ (forall l r, JSONObject f s = Ok (l, r) ->
              (String.length r < String.length s)%nat)).
Proof.
  induction f as [|f (IHs & IHa & IHo)].
  - repeat split; intros; lia.
  - split; [|split].
    + (* scan_once *)
      intros s Hf. destruct s as [|c r0]; [split; intros; [|discriminate]|].
      { injection H as <-. now eexists. }
      cbn [scan_once]. simpl String.length in Hf.
      destruct (Ascii.eqb c "034").
      { unfold scanstring.
        destruct (scanstring_from SNorm r0) as [[str r]|e'] eqn:E; cbn [rbind fst snd].
        - split; [discriminate|]. intros v r' [= _ <-].
          apply scanstring_from_length in E. simpl. lia.
        - split; [|discriminate]. intros e [= <-].
          eapply scanstring_from_err, E. }
      destruct (Ascii.eqb c "{").
      { pose proof (skip_json_ws_length r0) as Hlen.
        destruct (skip_json_ws r0) as [|x r'] eqn:E;
          [split; [intros e [= <-]; now eexists|discriminate]|].
        simpl in Hlen.
        destruct (Ascii.eqb x "}");
          [split; [discriminate|intros v r [= _ <-]; simpl; lia]|].
        destruct (Ascii.eqb x "034");
          [|split; [intros e [= <-]; now eexists|discriminate]].
        destruct (IHo r') as [He Hok]; [lia|].
        destruct (JSONObject f r') as [[l r]|e'] eqn:Eo; cbn [rbind fst snd].
        - split; [discriminate|]. intros v r1 [= _ <-].
          specialize (Hok _ _ eq_refl). simpl. lia.
        - split; [|discriminate]. intros e [= <-]. now apply He. }
      destruct (Ascii.eqb c "[").
      { pose proof (skip_json_ws_length r0) as Hlen.
        destruct (startswith "]" (skip_json_ws r0)) eqn:Es.
        - split; [discriminate|]. intros v r [= _ <-].
          apply startswith_drop in Es. simpl in *. lia.
        - destruct (IHa (skip_json_ws r0)) as [He Hok]; [lia|].
          destruct (JSONArray f (skip_json_ws r0)) as [[l r]|e'] eqn:Ea;
            cbn [rbind fst snd].
          + split; [discriminate|]. intros v r1 [= _ <-].
            specialize (Hok _ _ eq_refl). simpl. lia.
          + split; [|discriminate]. intros e [= <-]. now apply He. }
      destruct (match_constant (String c r0)) as [[v r]|] eqn:Ec.
      { split; [discriminate|]. intros v' r' [= _ <-].
        now apply match_constant_length in Ec. }
      split; [intros e [= <-]; now eexists|discriminate].
    + (* JSONArray *)
      intros s Hf. cbn [JSONArray].
      destruct (IHs s) as [He Hok]; [lia|].
      destruct (scan_once f s) as [[v r]|e'] eqn:Es; cbn [rbind fst snd];
        [|split; [intros e [= <-]; now apply He|discriminate]].
      specialize (Hok _ _ eq_refl).
      pose proof (skip_json_ws_length r) as Hlen.
      destruct (skip_json_ws r) as [|x r'] eqn:E;
        [split; [intros e [= <-]; now eexists|discriminate]|].
      simpl in Hlen.
      destruct (Ascii.eqb x "]");
        [split; [discriminate|intros l r1 [= _ <-]; lia]|].
      destruct (Ascii.eqb x ",");
        [|split; [intros e [= <-]; now eexists|discriminate]].
      pose proof (skip_json_ws_length r') as Hlen'.
      destruct (IHa (skip_json_ws r')) as [He' Hok']; [lia|].
      destruct (JSONArray f (skip_json_ws r')) as [[l r1]|e'] eqn:Ea;
        cbn [rbind fst snd].
      * split; [discriminate|]. intros l' r2 [= _ <-].
        specialize (Hok' _ _ eq_refl). lia.
      * split; [|discriminate]. intros e [= <-]. now apply He'.
    + (* JSONObject *)
      intros s Hf. cbn [JSONObject]. unfold scanstring.
      destruct (scanstring_from SNorm s) as [[key r]|e'] eqn:Ek; cbn [rbind fst snd];
        [|split; [intros e [= <-]; eapply scanstring_from_err, Ek|discriminate]].
      apply scanstring_from_length in Ek.
      pose proof (skip_json_ws_length r) as Hlen.
      destruct (skip_json_ws r) as [|x r'] eqn:E;
        [split; [intros e [= <-]; now eexists|discriminate]|].
      simpl in Hlen.
      destruct (Ascii.eqb x ":");
        [|split; [intros e [= <-]; now eexists|discriminate]].
      pose proof (skip_json_ws_length r') as Hlen'.
      destruct (IHs (skip_json_ws r')) as [He Hok]; [lia|].
      destruct (scan_once f (skip_json_ws r')) as [[v r1]|e'] eqn:Es;
        cbn [rbind fst snd];
        [|split; [intros e [= <-]; now apply He|discriminate]].
      specialize (Hok _ _ eq_refl).
      pose proof (skip_json_ws_length r1) as Hlen1.
      destruct (skip_json_ws r1) as [|y r2] eqn:E1;
        [split; [intros e [= <-]; now eexists|discriminate]|].
      simpl in Hlen1.
      destruct (Ascii.eqb y "}");
        [split; [discriminate|intros l r3 [= _ <-]; lia]|].
      destruct (Ascii.eqb y ",");
        [|split; [intros e [= <-]; now eexists|discriminate]].
      pose proof (skip_json_ws_length r2) as Hlen2.
      destruct (skip_json_ws r2) as [|z r3] eqn:E2;
        [split; [intros e [= <-]; now eexists|discriminate]|].
      simpl in Hlen2.
      destruct (Ascii.eqb z "034");
        [|split; [intros e [= <-]; now eexists|discriminate]].
      destruct (IHo r3) as [He' Hok']; [lia|].
      destruct (JSONObject f r3) as [[l r4]|e'] eqn:Eo; cbn [rbind fst snd].
      * split; [discriminate|]. intros l' r5 [= _ <-].
        specialize (Hok' _ _ eq_refl). lia.
      * split; [|discriminate]. intros e [= <-]. now apply He'.
Qed.

Lemma scan_once_fuel s e :
  scan_once (S (2 * String.length s)) s = Err e -> decode_error e.
Proof.
  apply (proj1 (decoder_fuel (S (2 * String.length s)))). lia.
Qed.

(** [json.loads] raises nothing but [JSONDecodeError]. *)
Lemma json_loads_error s e : json_loads s = Err e -> is_ValueError e = true.
Proof.
  unfold json_loads. destruct (startswith BOM s); [now intros [= <-]|].
  unfold decode_from.
  destruct (scan_once _ (skip_json_ws s)) as [p|e'] eqn:E; cbn [rbind].
  - destruct (skip_json_ws (snd p)); [discriminate|]. now intros [= <-].
  - intros [= <-]. apply scan_once_fuel in E as [m ->]. reflexivity.
Qed.

(** ** Envelope decoding *)

Lemma re_match_star cls p' s :
  re_match (Star cls :: p') s
  = match s with
    | String c r =>
        if cls c then
          match re_match (Star cls :: p') r with
          | Some rest => Some rest
          | None => re_match p' s
          end
        else re_match p' s
    | EmptyString => re_match p' s
    end.
Proof. destruct s; reflexivity. Qed.

(** A greedy repetition takes a whole run of characters of its class when
    what follows the run lets the rest of the pattern match. *)
Lemma re_match_star_run cls p' ws s rest :
  str_forall cls ws = true ->
  re_match (Star cls :: p') s = Some rest ->
  re_match (Star cls :: p') (ws ++ s) = Some rest.
Proof.
  intros Hws Hs. induction ws as [|c ws IH]; cbn [append]; [exact Hs|].
  simpl in Hws. apply andb_prop in Hws as [Hc Hws].
  rewrite re_match_star. rewrite Hc, (IH Hws). reflexivity.
Qed.

Lemma re_match_star_stop cls p' c r :
  cls c = false ->
  re_match (Star cls :: p') (String c r) = re_match p' (String c r).
Proof. intros H. rewrite re_match_star, H. reflexivity. Qed.

Lemma re_match_star_last s : re_match [Star is_space] s = Some (lstrip s).
Proof.
  induction s as [|c r IH]; [reflexivity|].
  rewrite re_match_star. cbn [lstrip].
  destruct (is_space c); [rewrite IH|]; reflexivity.
Qed.

Lemma re_match_lit_i c x p' r :
  lower x = lower c ->
  re_match (lit_i c :: p') (String x r) = re_match p' r.
Proof.
  intros H. cbn [re_match lit_i]. now rewrite H, Ascii.eqb_refl.
Qed.

(** The forms of the prefix: the word [while] in any letter case, and
    whitespace (possibly none) between the tokens and after them. *)
Definition all_space (s : string) : Prop := str_forall is_space s = true.

Inductive while1_prefix : string -> Prop :=
| while1_prefix_intro (word s1 s2 s3 s4 s5 s6 : string) :
    str_lower word = "while" ->
    all_space s1 -> all_space s2 -> all_space s3 -> all_space s4 ->
    all_space s5 -> all_space s6 ->
    while1_prefix
      (word ++ s1 ++ "(" ++ s2 ++ "1" ++ s3 ++ ")" ++ s4 ++ "{" ++ s5 ++ "}" ++ s6).

Lemma append_assoc_r (a b c : string) : ((a ++ b) ++ c = a ++ (b ++ c))%string.
Proof. induction a; simpl; congruence. Qed.

(** One token of the pattern after a run of whitespace. *)
Lemma re_match_ws_lit c p' ws r rest :
  all_space ws -> is_space c = false ->
  re_match p' r = Some rest ->
  re_match (ws_star :: lit_i c :: p') (ws ++ String c r) = Some rest.
Proof.
  intros Hws Hc Hr. apply re_match_star_run; [exact Hws|].
  rewrite re_match_star_stop by exact Hc.
  now rewrite re_match_lit_i.
Qed.

Lemma while1_regex_strips p b :
  while1_prefix p -> re_match while1_regex (p ++ b) = Some (lstrip b).
Proof.
  intros [word s1 s2 s3 s4 s5 s6 Hw H1 H2 H3 H4 H5 H6].
  repeat rewrite append_assoc_r.
  destruct word as [|c1 [|c2 [|c3 [|c4 [|c5 [|c6 word]]]]]]; try discriminate.
  simpl in Hw. injection Hw as E1 E2 E3 E4 E5.
  unfold while1_regex. cbn [append].
  do 5 (rewrite re_match_lit_i by assumption).
  apply re_match_ws_lit; [assumption|reflexivity|].
  apply re_match_ws_lit; [assumption|reflexivity|].
  apply re_match_ws_lit; [assumption|reflexivity|].
  apply re_match_ws_lit; [assumption|reflexivity|].
  apply re_match_ws_lit; [assumption|reflexivity|].
  apply re_match_star_run; [assumption|].
  apply re_match_star_last.
Qed.

(** The characters a JSON value can start with. *)
Definition json_start (c : ascii) : bool :=
  (Ascii.eqb c "034" || Ascii.eqb c "{" || Ascii.eqb c "[" || Ascii.eqb c "n"
   || Ascii.eqb c "t" || Ascii.eqb c "f" || Ascii.eqb c "-" || is_digit c
   || Ascii.eqb c "N" || Ascii.eqb c "I")%bool.

Lemma scan_once_start f c r :
  json_start c = false -> scan_once (S f) (String c r) = Err Expecting_value.
Proof.
  destruct c as [[] [] [] [] [] [] [] []]; intros H;
    solve [discriminate H | reflexivity].
Qed.

Lemma json_start_facts c :
  json_start c = true ->
  is_space c = false /\ is_json_ws c = false
  /\ Ascii.eqb (lower c) (lower "w") = false /\ Ascii.eqb (chr 239) c = false.
Proof.
  destruct c as [[] [] [] [] [] [] [] []]; intros H;
    solve [discriminate H | repeat split; reflexivity].
Qed.

Lemma json_ws_facts c :
  is_json_ws c = true ->
  is_space c = true /\ Ascii.eqb (lower c) (lower "w") = false
  /\ Ascii.eqb (chr 239) c = false.
Proof.
  destruct c as [[] [] [] [] [] [] [] []]; intros H;
    solve [discriminate H | repeat split; reflexivity].
Qed.

Lemma scan_once_ok_start f s p :
  scan_once f s = Ok p ->
  exists c r, s = String c r /\ json_start c = true.
Proof.
  intros H. destruct f as [|f]; [discriminate|].
  destruct s as [|c r]; [discriminate|].
  exists c, r. split; [reflexivity|].
  destruct (json_start c) eqn:E; [reflexivity|].
  rewrite scan_once_start in H by exact E. discriminate.
Qed.

(** A text that decodes starts, after JSON whitespace, with the first
    character of a value. *)
Lemma json_loads_ok_shape b v :
  json_loads b = Ok v ->
  exists c r,
    skip_json_ws b = String c r /\ json_start c = true
    /\ decode_from (String c r) = Ok v.
Proof.
  unfold json_loads. destruct (startswith BOM b); [discriminate|].
  intros H. unfold decode_from in H.
  destruct (scan_once _ (skip_json_ws b)) as [p|e] eqn:Hs; [|discriminate].
  destruct (scan_once_ok_start _ _ _ Hs) as (c & r & E & Hc).
  exists c, r. split; [exact E|]. split; [exact Hc|].
  unfold decode_from. rewrite <- E, Hs. exact H.
Qed.

Lemma lstrip_skip_json_ws b c r :
  skip_json_ws b = String c r -> is_space c = false -> lstrip b = String c r.
Proof.
  induction b as [|x b IH]; simpl; [discriminate|].
  destruct (is_json_ws x) eqn:Hx.
  - intros E Hc. destruct (json_ws_facts x Hx) as [-> _]. now apply IH.
  - intros E Hc. injection E as -> ->. now rewrite Hc.
Qed.

Lemma json_loads_at_start c r v :
  json_start c = true -> decode_from (String c r) = Ok v ->
  json_loads (String c r) = Ok v.
Proof.
  intros Hc Hd. destruct (json_start_facts c Hc) as (_ & Hws & _ & Hbom).
  unfold json_loads. cbn [startswith BOM]. rewrite Hbom. cbn [andb].
  cbn [skip_json_ws]. rewrite Hws. exact Hd.
Qed.

(** A text that decodes does not start with the prefix. *)
Lemma while1_regex_no_match b v :
  json_loads b = Ok v -> re_match while1_regex b = None.
Proof.
  intros H. destruct (json_loads_ok_shape b v H) as (c & r & E & Hc & _).
  destruct b as [|x b]; [discriminate|].
  unfold while1_regex. cbn [re_match lit_i].
  simpl in E. destruct (is_json_ws x) eqn:Hx.
  - destruct (json_ws_facts x Hx) as (_ & -> & _). reflexivity.
  - injection E as -> ->. destruct (json_start_facts c Hc) as (_ & _ & -> & _).
    reflexivity.
Qed.

(** C4: for a body [b] that is JSON (it decodes to [v]), putting a
    [while(1){}] prefix before it, with any letter case of [while] and any
    whitespace between and after the tokens, does not change the result:
    both texts decode to [v]. *)
Theorem envelope_prefix_is_stripped p b v :
  while1_prefix p ->
  json_loads b = Ok v ->
  _process_json_response (p ++ b) = Ok v
  /\ _process_json_response b = Ok v.
Proof.
  intros Hp Hb.
  destruct (json_loads_ok_shape b v Hb) as (c & r & E & Hc & Hd).
  destruct (json_start_facts c Hc) as (Hsp & _).
  split.
  - unfold _process_json_response, re_sub_empty.
    rewrite (while1_regex_strips p b Hp).
    rewrite (lstrip_skip_json_ws b c r E Hsp).
    destruct Hp as [word s1 s2 s3 s4 s5 s6 Hw _ _ _ _ _ _].
    destruct word as [|c1 word]; [discriminate|]. cbn [append].
    now apply json_loads_at_start.
  - unfold _process_json_response, re_sub_empty.
    rewrite (while1_regex_no_match b v Hb).
    destruct b; [discriminate|exact Hb].
Qed.

(** ** The eager pagination loop *)

Lemma _make_request_ok tok method endpoint self w page self' w' :
  _make_request tok method endpoint self w = (Ok page, self', w') ->
  self' = self
  /\ w' = log_request w (api_request self tok method (request_url endpoint))
  /\ exists resp,
       upstream w (List.length (sent w))
         (api_request self tok method (request_url endpoint)) = Ok resp
       /\ _process_json_response (text resp) = Ok page.
Proof.
  unfold _make_request, bind, get_self, requests_request, raise, lift.
  destruct (upstream w _ _) as [resp|e] eqn:Hup; [|discriminate].
  destruct (status_code resp =? 401); [discriminate|].
  destruct (raise_for_status resp); [|discriminate].
  destruct (_process_json_response (text resp)) eqn:Hp; [|discriminate].
  intros H. injection H as <- <- <-. repeat split. now exists resp.
Qed.

(** The condition of the [while] loop: whether the page has a next link.
    (When the condition itself raises, the loop ends with that exception.) *)
Definition next_link (page : json) : bool :=
  match (links <-? py_get page "links" (JObj []) ;; py_get links "next" JNull) with
  | Ok next => truthy next
  | Err _ => false
  end.

(** On a page without next link the loop body is not entered: nothing is
    sent, nothing changes. *)
Lemma paged_step_stops netloc_ok tok page resources self w :
  next_link page = false ->
  paged_step netloc_ok tok page resources self w = (Ok (Break resources), self, w)
  \/ exists e, paged_step netloc_ok tok page resources self w = (Err e, self, w).
Proof.
  unfold next_link, paged_step, bind, lift, ret. intros H.
  destruct (py_get page "links" (JObj [])) as [links|e]; simpl in *;
    [|right; now exists e].
  destruct (py_get links "next" JNull) as [next|e]; simpl in *;
    [|right; now exists e].
  rewrite H. now left.
Qed.

(** An iteration that goes on has sent exactly one request, and the page
    it goes on with is the decoded answer to that request. *)
Lemma paged_step_continues netloc_ok tok page resources self w page' resources' self' w' :
  paged_step netloc_ok tok page resources self w
    = (Ok (Continue page' resources'), self', w') ->
  self' = self
  /\ upstream w' = upstream w
  /\ List.length (sent w') = S (List.length (sent w))
  /\ exists req resp,
       upstream w (List.length (sent w)) req = Ok resp
       /\ _process_json_response (text resp) = Ok page'.
Proof.
  unfold paged_step, bind at 1. unfold lift at 1.
  destruct (py_get page "links" (JObj [])) as [links|e]; [|discriminate].
  unfold bind at 1. unfold lift at 1.
  destruct (py_get links "next" JNull) as [next|e]; [|discriminate].
  destruct (negb (truthy next)); [discriminate|].
  unfold bind at 1. unfold lift at 1.
  destruct (py_get next "href" JNull) as [href|e]; [|discriminate].
  destruct (negb (truthy href)); [discriminate|].
  unfold bind at 1. unfold lift at 1.
  destruct (py_get page "base" (JStr API_BASE_URL)) as [base|e]; [|discriminate].
  unfold bind at 1. unfold lift at 1.
  destruct (py_urljoin netloc_ok base href) as [next_url|e]; [|discriminate].
  unfold bind at 1.
  destruct (_make_request_value tok "GET" next_url self w) as [[[p|e] s1] w1] eqn:Hreq;
    [|discriminate].
  destruct next_url; try discriminate Hreq. simpl in Hreq.
  apply _make_request_ok in Hreq as (-> & -> & resp & Hup & Hdec).
  destruct (negb (truthy p)); [discriminate|].
  unfold bind, lift, ret.
  destruct (py_get p "resources" (JArr [])) as [rs|e]; [|discriminate].
  destruct (py_iter rs) as [items|e]; [|discriminate].
  intros H. injection H as <- <- <- <-.
  repeat split.
  - simpl. rewrite length_app. simpl. lia.
  - eauto.
Qed.

(** The upstream has settled from request number [K] on: no answer from
    then on carries a next link. *)
Definition settled (K : nat) (w : world) : Prop :=
  forall k req resp page,
    (K <= k)%nat ->
    upstream w k req = Ok resp ->
    _process_json_response (text resp) = Ok page ->
    next_link page = false.

Lemma paged_loop_stops netloc_ok fuel tok page resources self w :
  next_link page = false ->
  exists r, paged_loop netloc_ok (S fuel) tok page resources self w = Some (r, self, w).
Proof.
  intros H. cbn [paged_loop].
  destruct (paged_step_stops netloc_ok tok page resources self w H) as [->|[e ->]];
    eauto.
Qed.

Lemma paged_loop_terminates netloc_ok K tok d :
  forall fuel page resources self w,
    settled K w ->
    (K - List.length (sent w) <= d)%nat ->
    (d + 2 <= fuel)%nat ->
    exists r, paged_loop netloc_ok fuel tok page resources self w = Some r.
Proof.
  induction d as [|d IH]; intros fuel page resources self w Hset Hd Hfuel.
  - destruct fuel as [|[|fuel]]; try lia. cbn [paged_loop].
    destruct (paged_step netloc_ok tok page resources self w)
      as [[[[page' resources'|resources']|e] self'] w'] eqn:Hstep; eauto.
    apply paged_step_continues in Hstep
      as (-> & Hup & Hlen & req & resp & Hreq & Hdec).
    assert (Hnext : next_link page' = false).
    { apply (Hset (List.length (sent w)) req resp page'); [lia|assumption..]. }
    destruct (paged_loop_stops netloc_ok fuel tok page' resources' self w' Hnext)
      as [r Hr].
    eauto.
  - destruct fuel as [|fuel]; try lia. cbn [paged_loop].
    destruct (paged_step netloc_ok tok page resources self w)
      as [[[[page' resources'|resources']|e] self'] w'] eqn:Hstep; eauto.
    apply paged_step_continues in Hstep
      as (-> & Hup & Hlen & req & resp & Hreq & Hdec).
    apply IH; [|lia|lia].
    unfold settled. rewrite Hup. exact Hset.
Qed.

(** C8 (amended): the loop of [_get_paged_resources] stops at the first
    page without next link, sending nothing more; so it terminates
    whenever the upstream, from some request number [K] on, answers without
    next link: [K + 2] evaluations of the loop condition are enough.  (The
    loop compares no cursors and counts no iterations.) *)
Theorem paged_resources_terminate netloc_ok K tok endpoint self w :
  settled K w ->
  (forall fuel page resources self1 w1,
     next_link page = false ->
     exists r,
       paged_loop netloc_ok (S fuel) tok page resources self1 w1
         = Some (r, self1, w1))
  /\ (forall fuel, (K + 2 <= fuel)%nat ->
      exists r, _get_paged_resources netloc_ok fuel tok endpoint self w = Some r).
Proof.
  intros Hset. split.
  - intros. now apply paged_loop_stops.
  - intros fuel Hfuel. unfold _get_paged_resources.
    destruct (_make_request tok "GET" endpoint self w) as [[[page|e] self1] w1] eqn:Hreq;
      [|eauto].
    destruct (negb (truthy page)); [eauto|].
    destruct (rbind _ _) as [items|e]; [|eauto].
    apply _make_request_ok in Hreq as (-> & -> & _).
    apply (paged_loop_terminates netloc_ok K tok K); [exact Hset|lia|lia].
Qed.

(** ** Query strings: [parse_qs] inverts [urlencode] *)

Lemma replace_char_app a b x y :
  replace_char a b (x ++ y) = replace_char a b x ++ replace_char a b y.
Proof. induction x; simpl; congruence. Qed.

Lemma contains_app c x y :
  contains c (x ++ y) = (contains c x || contains c y)%bool.
Proof.
  induction x as [|a x IH]; simpl; [reflexivity|].
  rewrite IH. now rewrite orb_assoc.
Qed.

(** One quoted character decodes to the character. *)
Lemma unquote_quote_char c t :
  unquote (replace_char "+" " " (quote_char c) ++ t) = String c (unquote t).
Proof. destruct c as [[] [] [] [] [] [] [] []]; reflexivity. Qed.

Lemma quote_char_plain c :
  contains "&" (quote_char c) = false /\ contains "=" (quote_char c) = false
  /\ quote_char c <> EmptyString.
Proof.
  destruct c as [[] [] [] [] [] [] [] []]; repeat split; discriminate.
Qed.

(** What [unquote] does to the text after a quoted name or value is what
    it does to that text alone, as long as plus signs are given back. *)
Lemma unquote_quote_plus s t :
  unquote (replace_char "+" " " (quote_plus s) ++ t) = s ++ unquote t.
Proof.
  induction s as [|c s IH]; [reflexivity|].
  cbn [quote_plus]. rewrite replace_char_app, append_assoc_r.
  rewrite unquote_quote_char, IH. reflexivity.
Qed.

Lemma append_empty_r (s : string) : s ++ EmptyString = s.
Proof. induction s; simpl; congruence. Qed.

Lemma unquote_plus_quote_plus s :
  unquote (replace_char "+" " " (quote_plus s)) = s.
Proof.
  rewrite <- (append_empty_r (replace_char _ _ _)).
  rewrite unquote_quote_plus. apply append_empty_r.
Qed.

Lemma quote_plus_plain s :
  contains "&" (quote_plus s) = false /\ contains "=" (quote_plus s) = false.
Proof.
  induction s as [|c s [IH1 IH2]]; [now split|].
  cbn [quote_plus]. rewrite !contains_app, IH1, IH2.
  destruct (quote_char_plain c) as (-> & -> & _). now split.
Qed.

Lemma quote_plus_nonempty s : s <> EmptyString -> quote_plus s <> EmptyString.
Proof.
  destruct s as [|c s]; [congruence|]. intros _. cbn [quote_plus].
  destruct (quote_char_plain c) as (_ & _ & H).
  destruct (quote_char c); [congruence|discriminate].
Qed.

Lemma split1_app sep x y :
  contains sep x = false ->
  split1 sep (x ++ String sep y) = (x, Some y).
Proof.
  induction x as [|a x IH]; simpl.
  - now rewrite Ascii.eqb_refl.
  - intros H. apply orb_false_elim in H as [Ha Hx].
    rewrite Ha, (IH Hx). reflexivity.
Qed.

Lemma split_plain sep x : contains sep x = false -> split sep x = [x].
Proof.
  induction x as [|a x IH]; simpl; [reflexivity|].
  intros H. apply orb_false_elim in H as [Ha Hx].
  rewrite Ha, (IH Hx). reflexivity.
Qed.

Lemma split_app sep x y :
  contains sep x = false ->
  split sep (x ++ String sep y) = x :: split sep y.
Proof.
  induction x as [|a x IH]; simpl.
  - now rewrite Ascii.eqb_refl.
  - intros H. apply orb_false_elim in H as [Ha Hx].
    rewrite Ha, (IH Hx). reflexivity.
Qed.

Lemma split_join (l : list string) :
  l <> [] ->
  Forall (fun x => contains "&" x = false) l ->
  split "&" (join "&" l) = l.
Proof.
  induction l as [|x l IH]; [congruence|]. intros _ Hall.
  inversion Hall as [|? ? Hx Hl]; subst.
  destruct l as [|y l].
  - simpl. now apply split_plain.
  - change (join "&" (x :: y :: l)) with (x ++ String "&" (join "&" (y :: l))).
    rewrite split_app by exact Hx. f_equal. apply IH; [discriminate|exact Hl].
Qed.

(** One field [name=value] of an encoded query decodes to the pair. *)
Lemma parse_field_encoded k v :
  v <> EmptyString ->
  parse_field (quote_plus k ++ "=" ++ quote_plus v) = Some (k, v).
Proof.
  intros Hv. unfold parse_field. cbn [append].
  rewrite split1_app by apply quote_plus_plain.
  rewrite !unquote_plus_quote_plus.
  destruct (quote_plus v) eqn:E; [|reflexivity].
  now apply quote_plus_nonempty in Hv.
Qed.

Lemma encoded_field_plain k v :
  contains "&" (quote_plus k ++ "=" ++ quote_plus v) = false.
Proof.
  rewrite !contains_app.
  destruct (quote_plus_plain k) as [-> _], (quote_plus_plain v) as [-> _].
  reflexivity.
Qed.







(** Dictionaries *)


Lemma dict_get_set_same {V} (d : dict V) k v : dict_get (dict_set d k v) k = Some v.
Proof.
  induction d as [|[k' v'] d IH]; simpl.
  - now rewrite String.eqb_refl.
  - destruct (String.eqb_spec k' k) as [->|Hne]; simpl.
    + now rewrite String.eqb_refl.
    + destruct (String.eqb_spec k' k); [congruence|exact IH].
Qed.

Lemma dict_get_set_other {V} (d : dict V) k k' v :
  k <> k' -> dict_get (dict_set d k v) k' = dict_get d k'.
Proof.
  intros Hne. induction d as [|[k0 v0] d IH]; simpl.
  - destruct (String.eqb_spec k k'); [congruence|reflexivity].
  - destruct (String.eqb_spec k0 k) as [->|H0]; simpl.
    + destruct (String.eqb_spec k k'); [congruence|reflexivity].
    + now rewrite IH.
Qed.













Definition add_pairs (d : dict (list string)) (ps : list (string * string))
  : dict (list string) :=
  fold_left (fun d nv => dict_append d (fst nv) (snd nv)) ps d.






Lemma add_pairs_cons d n v ps :
  add_pairs d ((n, v) :: ps) = add_pairs (dict_append d n v) ps.
Proof. reflexivity. Qed.






Lemma str_int_nonempty z : str_int z <> EmptyString.
Proof.
  unfold str_int. destruct (Z.to_int z) as [d|d]; simpl; [|discriminate].
  destruct d; discriminate.
Qed.

(** ** The previous page of an assets page *)



Lemma int_param_present qs key default v r :
  dict_get qs key = Some (v :: r) -> int_param qs key default = py_int v.
Proof. unfold int_param. now intros ->. Qed.







(** The value of a key of a page, with the default of [dict.get]. *)
Definition field (d : dict json) (k : string) (default : json) : json :=
  match dict_get d k with
  | Some v => v
  | None => default
  end.




(** ** The cursor of the next albums page *)

Lemma py_urljoin_str netloc_ok b h :
  py_urljoin netloc_ok (JStr b) (JStr h)
  = match urljoin netloc_ok b h with
    | Ok u => Ok (JStr u)
    | Err e => Err e
    end.
Proof.
  unfold py_urljoin, urljoin. cbn [truthy]. rewrite !negb_involutive.
  destruct (String.eqb b EmptyString); [reflexivity|].
  destruct (String.eqb h EmptyString); reflexivity.
Qed.

Lemma name_after_of_query parsed :
  (forall v r,
     dict_get (parse_qs (query parsed)) "name_after" = Some (v :: r) ->
     name_after_of parsed = Some v)
  /\ (dict_get (parse_qs (query parsed)) "name_after" = None ->
      name_after_of parsed = None).
Proof. unfold name_after_of. split; [intros v r ->|intros ->]; reflexivity. Qed.

(** C5: on a page (a non-empty dict) whose [links.next.href] is a
    non-empty string, the cursor [get_albums_page] returns is the first
    value of [name_after] in the query of that href resolved against the
    base of the page (the API base URL when the page has none), and absent
    when the query has no such value; it depends on nothing else in the
    page.  A resolved URL with query [limit=8&name_after=Zebra] gives
    [Zebra].  A page without next link gives no cursor. *)
Theorem albums_page_cursor netloc_ok d :
  d <> [] ->
  let links := field d "links" (JObj []) in
  let resources := field d "resources" (JArr []) in
  (forall h b u parsed,
     link_href links "next" = Ok (JStr h) -> h <> EmptyString ->
     field d "base" (JStr API_BASE_URL) = JStr b ->
     urljoin netloc_ok b h = Ok u ->
     urlparse netloc_ok u = Ok parsed ->
     albums_page_result netloc_ok (JObj d) = Ok (resources, name_after_of parsed)
     /\ (forall v r,
           dict_get (parse_qs (query parsed)) "name_after" = Some (v :: r) ->
           name_after_of parsed = Some v)
     /\ (dict_get (parse_qs (query parsed)) "name_after" = None ->
         name_after_of parsed = None)
     /\ (query parsed = "limit=8&name_after=Zebra" ->
         name_after_of parsed = Some "Zebra"))
  /\ (forall href,
        link_href links "next" = Ok href -> truthy href = false ->
        albums_page_result netloc_ok (JObj d) = Ok (resources, None))
  /\ (forall fmt tok limit name_after self w cid self1 w1 self2 w2,
        resolve_catalog_id tok self w = (Ok cid, self1, w1) ->
        _make_request tok "GET" (albums_endpoint fmt cid limit name_after) self1 w1
          = (Ok (JObj d), self2, w2) ->
        get_albums_page fmt netloc_ok tok limit name_after self w
          = (albums_page_result netloc_ok (JObj d), self2, w2)).
Proof.
  intros Hd links resources.
  assert (Hres : forall href,
             link_href links "next" = Ok href ->
             albums_page_result netloc_ok (JObj d)
             = if truthy href then
                 joined <-? py_urljoin netloc_ok (field d "base" (JStr API_BASE_URL)) href ;;
                 parsed <-? py_urlparse netloc_ok joined ;;
                 Ok (resources, name_after_of parsed)
               else Ok (resources, None)).
  { intros href Hl. unfold albums_page_result.
    destruct d as [|kv d']; [congruence|]. cbn [truthy negb py_get rbind].
    fold (field (kv :: d') "links" (JObj [])). fold links. rewrite Hl.
    reflexivity. }
  split; [|split].
  - intros h b u parsed Hl Hh Hb Hu Hparsed.
    split; [|split; [|split]]; try apply name_after_of_query.
    + rewrite (Hres _ Hl). cbn [truthy].
      destruct (String.eqb_spec h EmptyString); [congruence|]. cbn [negb].
      rewrite Hb, py_urljoin_str, Hu. cbn [rbind py_urlparse]. rewrite Hparsed.
      reflexivity.
    + unfold name_after_of. now intros ->.
  - intros href Hl Hf. rewrite (Hres _ Hl), Hf. reflexivity.
  - intros fmt tok limit name_after self w cid self1 w1 self2 w2 Hcat Hreq.
    unfold get_albums_page.
    rewrite (bind_ok _ _ _ _ _ _ _ Hcat), (bind_ok _ _ _ _ _ _ _ Hreq).
    reflexivity.
Qed.

(** * Scenarios

    Concrete handlers, clients and upstreams on which the properties above
    are exercised. *)

(** JSON texts are written with an apostrophe for the double quote. *)
Definition dq (s : string) : string := replace_char "'" "034" s.

Definition any_netloc (_ : string) : bool := true.
Definition no_fmt (_ : json) : string := "?".

(** An upstream that answers the k-th request with status [status k] and
    body [body k]. *)
Definition serve (status : nat -> Z) (body : nat -> string) : world :=
  mkWorld (fun k _ => Ok (mkResponse (status k) (body k)))
          (fun k => "nonce" ++ str_int (Z.of_nat k)) [] 0.

Definition handler0 : OAuthHandler :=
  mkOAuthHandler "client" "secret" "https://localhost:8443/callback" (Some "abc").

Definition client0 : LightroomClient := LightroomClient_init handler0.

(** A client that has its catalog memoized. *)
Definition catalog1 : json := JObj [("id", JStr "c1")].
Definition client1 : LightroomClient := mkLightroomClient handler0 catalog1.

Definition token_world : world :=
  serve (fun _ => 200) (fun _ => dq "{'access_token':'t'}").

(** C1, witness: a wrong state is rejected before anything is sent. *)
Lemma get_access_token_state_check_witness :
  get_access_token no_fmt "code" (Some "evil") handler0 token_world
  = (Err InvalidState, handler0, token_world).
Proof.
  apply (proj1 (get_access_token_state_check no_fmt "code" handler0 token_world));
    discriminate.
Defined.

(** C1, counterexample: the stored state is [abc] and the callback brings no
    state at all; the call is not rejected: the token request is sent and
    the token is returned. *)
Lemma missing_state_is_not_rejected :
  state handler0 = Some "abc"
  /\ fst (fst (get_access_token no_fmt "code" None handler0 token_world))
     = Ok (JObj [("access_token", JStr "t")])
  /\ sent (snd (get_access_token no_fmt "code" None handler0 token_world))
     = [token_request handler0 "code"].
Proof. repeat split. Qed.

(** C9, witness: after a successful exchange with state [abc], a second
    exchange with the same state passes the check again. *)
Lemma get_access_token_keeps_state_witness :
  snd (fst (get_access_token no_fmt "code" (Some "abc") handler0 token_world))
    = handler0
  /\ exists r,
       get_access_token no_fmt "again" (Some "abc") handler0 token_world
         = (r, handler0, log_request token_world (token_request handler0 "again"))
       /\ r <> Err InvalidState.
Proof.
  pose proof (get_access_token_keeps_state no_fmt "code" (Some "abc") handler0
                token_world) as (Hframe & Hagain & _).
  split; [exact Hframe|].
  apply (Hagain (JObj [("access_token", JStr "t")]) handler0
           (log_request token_world (token_request handler0 "code"))).
  reflexivity.
Defined.

(** C3, witness: a 401 whose body is not JSON. *)
Definition expired_world : world := serve (fun _ => 401) (fun _ => "<html>").

Lemma status_401_is_TokenExpired_witness :
  _make_request "T" "GET" "/catalog" client0 expired_world
  = (Err TokenExpired, client0,
     log_request expired_world (api_request client0 "T" "GET" (request_url "/catalog")))
  /\ get_asset_rendition no_fmt "T" "a1" "2048" client1 expired_world
     = (Err TokenExpired, client1,
        log_request expired_world
          (api_request client1 "T" "GET"
             (rendition_url no_fmt (JStr "c1") "a1" "2048"))).
Proof.
  pose proof (status_401_is_TokenExpired no_fmt "T" client0 expired_world
                (mkResponse 401 "<html>") eq_refl) as [Hreq _].
  pose proof (status_401_is_TokenExpired no_fmt "T" client1 expired_world
                (mkResponse 401 "<html>") eq_refl) as [_ Hrend].
  split.
  - apply Hreq. reflexivity.
  - apply (Hrend "a1" "2048" client1 expired_world (JStr "c1")); reflexivity.
Defined.

(** C4, witness: the body of the specification, under a prefix in mixed
    case with spaces. *)
Lemma envelope_prefix_is_stripped_witness :
  _process_json_response ("WhIlE (1) { } " ++ dq "{'resources':[]}")
    = Ok (JObj [("resources", JArr [])])
  /\ _process_json_response (dq "{'resources':[]}")
     = Ok (JObj [("resources", JArr [])]).
Proof.
  apply (envelope_prefix_is_stripped
           ("WhIlE" ++ " " ++ "(" ++ "" ++ "1" ++ "" ++ ")" ++ " " ++ "{" ++ " "
            ++ "}" ++ " ")).
  - apply while1_prefix_intro; reflexivity.
  - reflexivity.
Defined.

(** C6, witness: one catalog request, then the memo. *)
Definition catalog_world : world :=
  serve (fun _ => 200) (fun _ => dq "while(1){}{'id':'c1'}").

Lemma get_catalog_memoizes_witness :
  catalog client1 = catalog1
  /\ get_catalog "other" client1 catalog_world = (Ok catalog1, client1, catalog_world).
Proof.
  pose proof (get_catalog_memoizes "T" client0 catalog_world catalog1 client1
                (log_request catalog_world (catalog_request client0 "T")))
    as H.
  destruct H as (Hmemo & _ & _ & Hlater); [reflexivity|discriminate|].
  split; [exact Hmemo|apply Hlater].
Defined.

(** C6, counterexample: the upstream answers 200 with an empty body; the
    first call returns [None], nothing is memoized, and the second call on
    the same client with the same token sends the request again: two
    requests in all.  The same happens when the first call fails. *)
Definition empty_world : world := serve (fun _ => 200) (fun _ => EmptyString).

Lemma get_catalog_twice_two_requests :
  (let '(r1, s1, w1) := get_catalog "T" client0 empty_world in
   let '(r2, s2, w2) := get_catalog "T" s1 w1 in
   r1 = Ok JNull /\ r2 = Ok JNull
   /\ sent w2 = [catalog_request client0 "T"; catalog_request client0 "T"])
  /\ (let '(r1, s1, w1) := get_catalog "T" client0 expired_world in
      let '(r2, s2, w2) := get_catalog "T" s1 w1 in
      r1 = Err TokenExpired
      /\ sent w2 = [catalog_request client0 "T"; catalog_request client0 "T"]).
Proof. repeat split. Qed.

(** C7, witness: the asset request is answered 500. *)
Definition failing_world : world := serve (fun _ => 500) (fun _ => "oops").

Lemma get_album_first_asset_total_witness :
  get_album_first_asset no_fmt "T" "album" client1 failing_world
  = (Ok JNull, client1,
     log_request failing_world
       (api_request client1 "T" "GET"
          (request_url (assets_endpoint no_fmt (JStr "c1") "album" 1)))).
Proof.
  apply (proj1 (proj2 (get_album_first_asset_total no_fmt "T" "album" client1
                         failing_world))
           (HTTPError "500 Error")).
  reflexivity.
Defined.

(** C8, witness: an upstream whose pages carry no next link. *)
Definition last_page_text : string := dq "while(1){}{'resources':[{'id':'a'}]}".
Definition last_page_world : world := serve (fun _ => 200) (fun _ => last_page_text).

Lemma last_page_world_settled : settled 0 last_page_world.
Proof.
  intros k req resp page _ Hup Hdec.
  injection Hup as <-. vm_compute in Hdec. injection Hdec as <-. reflexivity.
Qed.

Lemma paged_resources_terminate_witness :
  exists r,
    _get_paged_resources any_netloc 2 "T" "/catalogs/c1/albums" client1
      last_page_world = Some r.
Proof.
  apply (proj2 (paged_resources_terminate any_netloc 0 "T" "/catalogs/c1/albums"
                  client1 last_page_world last_page_world_settled)).
  apply le_n.
Defined.

(** C8, counterexample: an upstream that answers every request with the
    same page, whose next link is always the same cursor.  The loop never
    ends: whatever the number of iterations allowed, it is still running. *)
Definition stuck_page : json :=
  JObj [("resources", JArr [JObj [("id", JStr "a")]]);
        ("links",
         JObj [("next", JObj [("href", JStr "albums?name_after=A")])]);
        ("base", JStr "https://lr.adobe.io/v2/catalogs/c1/")].

Definition stuck_text : string :=
  dq ("while(1){}{'resources':[{'id':'a'}],"
      ++ "'links':{'next':{'href':'albums?name_after=A'}},"
      ++ "'base':'https://lr.adobe.io/v2/catalogs/c1/'}").

Definition stuck_world : world := serve (fun _ => 200) (fun _ => stuck_text).

Lemma stuck_text_decodes : _process_json_response stuck_text = Ok stuck_page.
Proof. vm_compute. reflexivity. Qed.

Lemma stuck_step resources w :
  upstream w = upstream stuck_world ->
  exists w',
    paged_step any_netloc "T" stuck_page resources client1 w
      = (Ok (Continue stuck_page (resources ++ [JObj [("id", JStr "a")]])%list),
         client1, w')
    /\ upstream w' = upstream stuck_world.
Proof.
  intros Hup. eexists. split.
  - unfold paged_step. 
    change (py_get stuck_page "links" (JObj []))
      with (Ok (JObj [("next", JObj [("href", JStr "albums?name_after=A")])])).
    unfold bind at 1, lift at 1.
    change (py_get (JObj [("next", JObj [("href", JStr "albums?name_after=A")])])
              "next" JNull)
      with (Ok (JObj [("href", JStr "albums?name_after=A")])).
    unfold bind at 1, lift at 1. cbn [truthy negb].
    change (py_get (JObj [("href", JStr "albums?name_after=A")]) "href" JNull)
      with (Ok (JStr "albums?name_after=A")).
    unfold bind at 1, lift at 1.
    change (negb (truthy (JStr "albums?name_after=A"))) with false. cbv iota.
    change (py_get stuck_page "base" (JStr API_BASE_URL))
      with (Ok (JStr "https://lr.adobe.io/v2/catalogs/c1/")).
    unfold bind at 1, lift at 1.
    replace (py_urljoin any_netloc (JStr "https://lr.adobe.io/v2/catalogs/c1/")
               (JStr "albums?name_after=A"))
      with (Ok (JStr "https://lr.adobe.io/v2/catalogs/c1/albums?name_after=A"))
      by (vm_compute; reflexivity).
    unfold bind at 1, lift at 1.
    unfold bind at 1, _make_request_value, _make_request, bind, get_self,
      requests_request, lift, raise, ret.
    rewrite Hup. cbn [stuck_world serve upstream status_code text Z.eqb].
    change (raise_for_status (mkResponse 200 stuck_text)) with (Ok tt).
    cbv iota. rewrite stuck_text_decodes.
    change (negb (truthy stuck_page)) with false. cbv iota.
    reflexivity.
  - exact Hup.
Qed.

Lemma stuck_loop fuel : forall resources w,
  upstream w = upstream stuck_world ->
  paged_loop any_netloc fuel "T" stuck_page resources client1 w = None.
Proof.
  induction fuel as [|fuel IH]; intros resources w Hup; [reflexivity|].
  cbn [paged_loop].
  destruct (stuck_step resources w Hup) as (w' & -> & Hup').
  now apply IH.
Qed.

Lemma stuck_paged_resources fuel :
  _get_paged_resources any_netloc fuel "T" "/catalogs/c1/albums" client1
    stuck_world = None.
Proof.
  unfold _get_paged_resources.
  replace (_make_request "T" "GET" "/catalogs/c1/albums" client1 stuck_world)
    with (Ok stuck_page, client1,
          log_request stuck_world
            (api_request client1 "T" "GET" (request_url "/catalogs/c1/albums")))
    by (vm_compute; reflexivity).
  change (negb (truthy stuck_page)) with false. cbv iota.
  change (rs <-? py_get stuck_page "resources" (JArr []) ;; py_iter rs)
    with (Ok [JObj [("id", JStr "a")]]).
  cbv iota. now apply stuck_loop.
Qed.

(** C8, counterexample: on that upstream no number of iterations is enough
    for [_get_paged_resources] to return. *)
Lemma paged_resources_never_end :
  ~ exists fuel r,
      _get_paged_resources any_netloc fuel "T" "/catalogs/c1/albums" client1
        stuck_world = Some r.
Proof.
  intros (fuel & r & H). rewrite stuck_paged_resources in H. discriminate.
Qed.

(** C2, witness: the page URL of the specification. *)
Definition page2_url : string :=
  "https://lr.adobe.io/v2/catalogs/c1/albums/a1/assets?limit=20&offset=20".






(** C5, witness: the page of the specification, with a relative next link. *)
Definition albums_page : dict json :=
  [("resources", JArr [JObj [("id", JStr "a")]]);
   ("links", JObj [("next", JObj [("href", JStr "albums?limit=8&name_after=Zebra")])]);
   ("base", JStr "https://lr.adobe.io/v2/catalogs/c1/")].

Lemma albums_page_cursor_witness :
  albums_page_result any_netloc (JObj albums_page)
  = Ok (JArr [JObj [("id", JStr "a")]], Some "Zebra").
Proof.
  assert (Hd : albums_page <> []) by discriminate.
  pose proof (proj1 (albums_page_cursor any_netloc albums_page Hd)
                "albums?limit=8&name_after=Zebra"
                "https://lr.adobe.io/v2/catalogs/c1/"
                "https://lr.adobe.io/v2/catalogs/c1/albums?limit=8&name_after=Zebra"
                (mkParseResult "https" "lr.adobe.io" "/v2/catalogs/c1/albums"
                   EmptyString "limit=8&name_after=Zebra" EmptyString)
                eq_refl ltac:(discriminate) eq_refl eq_refl eq_refl)
    as (Hres & _ & _ & Hzebra).
  rewrite Hres. rewrite Hzebra by reflexivity. reflexivity.
Defined.

(** ** Whole calls on concrete upstreams *)

(** The first request is the catalog request, the second the page. *)
Definition page_world (page_text : string) : world :=
  serve (fun _ => 200)
        (fun k => match k with
                  | O => dq "while(1){}{'id':'c1'}"
                  | _ => page_text
                  end).

Definition next_only_text : string :=
  dq ("while (1) {}{'resources':[{'id':'a'}],"
      ++ "'links':{'next':{'href':'albums?limit=8&name_after=Zebra'}},"
      ++ "'base':'https://lr.adobe.io/v2/catalogs/c1/'}").

(** An albums page with a next link: the cursor is [Zebra], and two
    requests were sent, the catalog and the page. *)
Example get_albums_page_run :
  let '(r, self, w) :=
    get_albums_page no_fmt any_netloc "T" 8 None client0 (page_world next_only_text) in
  r = Ok (JArr [JObj [("id", JStr "a")]], Some "Zebra")
  /\ catalog self = catalog1
  /\ map req_url (sent w)
     = ["https://lr.adobe.io/v2/catalog";
        "https://lr.adobe.io/v2/catalogs/c1/albums?limit=8"].
Proof. vm_compute. repeat split. Qed.

Definition no_links_text : string := dq "while(1){}{'resources':[{'id':'a'}]}".

(** An assets page fetched by its URL, with offset 20 and no previous link
    in the answer. *)
Example get_album_assets_page_run :
  let '(r, _, w) :=
    get_album_assets_page no_fmt any_netloc "T" "a1" 20 (Some page2_url) client0
      (page_world no_links_text) in
  r = Ok (JArr [JObj [("id", JStr "a")]], JNull,
          JStr "https://lr.adobe.io/v2/catalogs/c1/albums/a1/assets?limit=20&offset=0")
  /\ map req_url (sent w) = ["https://lr.adobe.io/v2/catalog"; page2_url].
Proof. vm_compute. repeat split. Qed.

(** The same with offset 0: no previous URL. *)
Example get_album_assets_page_first_run :
  let '(r, _, _) :=
    get_album_assets_page no_fmt any_netloc "T" "a1" 20
      (Some "https://lr.adobe.io/v2/catalogs/c1/albums/a1/assets?limit=20&offset=0")
      client0 (page_world no_links_text) in
  r = Ok (JArr [JObj [("id", JStr "a")]], JNull, JNull).
Proof. vm_compute. reflexivity. Qed.

(** Two calls of [get_catalog] on an upstream that serves a catalog: one
    request. *)
Example get_catalog_twice_run :
  let '(r1, s1, w1) := get_catalog "T" client0 catalog_world in
  let '(r2, s2, w2) := get_catalog "T" s1 w1 in
  r1 = Ok catalog1 /\ r2 = Ok catalog1
  /\ sent w2 = [catalog_request client0 "T"].
Proof. vm_compute. repeat split. Qed.

(** The first asset of an album, and an album whose page is empty. *)
Example get_album_first_asset_run :
  fst (fst (get_album_first_asset no_fmt "T" "a1" client0
              (page_world (dq "while(1){}{'resources':[{'asset':{'id':'x9'}}]}"))))
    = Ok (JStr "x9")
  /\ fst (fst (get_album_first_asset no_fmt "T" "a1" client0
                 (page_world (dq "while(1){}{'resources':[]}"))))
     = Ok JNull.
Proof. vm_compute. split; reflexivity. Qed.

(** * Further properties *)

(** ** What the client methods leave alone

    A step of the client with token [tok]: the OAuth handler is the same,
    a memoized catalog is not replaced, the upstream and the random source
    are the same, no random token is drawn, and the log has grown by at
    most [n] requests, each a GET with the bearer headers, no body and no
    basic authentication. *)

Definition bearer_get (h : OAuthHandler) (tok : string) (r : request) : Prop :=
  exists url,
    r = mkRequest "GET" url
          [("Authorization", "Bearer " ++ tok);
           ("x-api-key", client_id h);
           ("Content-Type", "application/json")] [] None.

Definition client_step (P : request -> Prop) (n : nat) (tok : string)
  (self : LightroomClient) (w : world) (self' : LightroomClient) (w' : world)
  : Prop :=
  oauth_handler self' = oauth_handler self
  /\ (catalog self <> JNull -> catalog self' = catalog self)
  /\ upstream w' = upstream w
  /\ token_urlsafe w' = token_urlsafe w
  /\ drawn w' = drawn w
  /\ exists new,
       sent w' = (sent w ++ new)%list
       /\ (List.length new <= n)%nat
       /\ Forall (fun r => bearer_get (oauth_handler self) tok r /\ P r) new.

Definition keeps {A} (P : request -> Prop) (n : nat) (tok : string)
  (c : M LightroomClient A) : Prop :=
  forall self w,
    client_step P n tok self w (snd (fst (c self w))) (snd (c self w)).

Section Keeps.

Variable P : request -> Prop.
Variable tok : string.

Lemma client_step_refl n self w : client_step P n tok self w self w.
Proof.
  repeat split; auto. exists []. rewrite app_nil_r.
  repeat split; [simpl; lia|constructor].
Qed.

Lemma client_step_trans n m s0 w0 s1 w1 s2 w2 :
  client_step P n tok s0 w0 s1 w1 -> client_step P m tok s1 w1 s2 w2 ->
  client_step P (n + m) tok s0 w0 s2 w2.
Proof.
  intros (H1 & C1 & U1 & T1 & D1 & new1 & S1 & L1 & F1)
         (H2 & C2 & U2 & T2 & D2 & new2 & S2 & L2 & F2).
  repeat split; try congruence.
  - intros Hc. rewrite C2; [now apply C1|]. rewrite (C1 Hc). exact Hc.
  - exists (new1 ++ new2)%list. rewrite S2, S1, app_assoc.
    repeat split; [rewrite length_app; lia|].
    apply Forall_app. split; [exact F1|]. now rewrite <- H1.
Qed.

Lemma client_step_weaken n m s0 w0 s1 w1 :
  (n <= m)%nat -> client_step P n tok s0 w0 s1 w1 ->
  client_step P m tok s0 w0 s1 w1.
Proof.
  intros Hnm (H1 & C1 & U1 & T1 & D1 & new1 & S1 & L1 & F1).
  repeat split; auto. exists new1. repeat split; auto. lia.
Qed.

Lemma keeps_ret {A} (a : A) : keeps P 0 tok (ret a).
Proof. intros self w. apply client_step_refl. Qed.

Lemma keeps_raise {A} e : keeps P 0 tok (@raise LightroomClient A e).
Proof. intros self w. apply client_step_refl. Qed.

Lemma keeps_lift {A} (r : result A) : keeps P 0 tok (lift r).
Proof. intros self w. apply client_step_refl. Qed.

Lemma keeps_bind {A B} n m (c : M LightroomClient A) (k : A -> M LightroomClient B) :
  keeps P n tok c -> (forall a, keeps P m tok (k a)) ->
  keeps P (n + m) tok (bind c k).
Proof.
  intros Hc Hk self w. specialize (Hc self w). unfold bind.
  destruct (c self w) as [[[a|e] s1] w1]; simpl in Hc.
  - eapply client_step_trans; [exact Hc|apply Hk].
  - simpl. eapply client_step_weaken; [|exact Hc]. lia.
Qed.

Lemma keeps_try_except {A} n m (c : M LightroomClient A) handles h :
  keeps P n tok c -> (forall e, keeps P m tok (h e)) ->
  keeps P (n + m) tok (try_except c handles h).
Proof.
  intros Hc Hh self w. specialize (Hc self w). unfold try_except.
  destruct (c self w) as [[[a|e] s1] w1]; simpl in Hc.
  - simpl. eapply client_step_weaken; [|exact Hc]. lia.
  - destruct (handles e).
    + eapply client_step_trans; [exact Hc|apply Hh].
    + simpl. eapply client_step_weaken; [|exact Hc]. lia.
Qed.

(** One request satisfying [P] has been sent. *)
Lemma client_step_one self w url :
  P (api_request self tok "GET" url) ->
  client_step P 1 tok self w self (log_request w (api_request self tok "GET" url)).
Proof.
  intros HP. repeat split; auto.
  exists [api_request self tok "GET" url].
  repeat split; [simpl; lia|].
  constructor; [|constructor]. split; [now exists url|exact HP].
Qed.

Lemma keeps_make_request endpoint :
  (forall self, P (api_request self tok "GET" (request_url endpoint))) ->
  keeps P 1 tok (_make_request tok "GET" endpoint).
Proof.
  intros HP self w.
  destruct (_make_request_frame tok "GET" endpoint self w) as [r ->]. simpl.
  apply client_step_one, HP.
Qed.

Hypothesis P_catalog : forall self, P (catalog_request self tok).

Lemma keeps_get_catalog : keeps P 1 tok (get_catalog tok).
Proof.
  intros self w. destruct (catalog self) eqn:Hc;
    try (rewrite get_catalog_memo by congruence; apply client_step_refl).
  rewrite get_catalog_fetch by exact Hc.
  pose proof (keeps_make_request "/catalog" P_catalog self w) as Hreq.
  destruct (_make_request tok "GET" "/catalog" self w) as [[[c|e] s1] w1];
    simpl in *; [|exact Hreq].
  destruct Hreq as (H1 & C1 & rest). split; [exact H1|]. split; [congruence|].
  exact rest.
Qed.

Lemma keeps_resolve_catalog_id : keeps P 1 tok (resolve_catalog_id tok).
Proof.
  unfold resolve_catalog_id.
  apply (keeps_bind 1 0); [apply keeps_get_catalog|]. intros c.
  destruct (negb (truthy c)); [apply keeps_raise|].
  apply (keeps_bind 0 0); [apply keeps_lift|]. intros cid.
  destruct (negb (truthy cid)); [apply keeps_raise|apply keeps_ret].
Qed.

(** A method that resolves the catalog id and then sends one request. *)
Lemma keeps_catalog_scoped {A} (k : json -> M LightroomClient A) :
  (forall cid, keeps P 1 tok (k cid)) ->
  keeps P 2 tok (bind (resolve_catalog_id tok) k).
Proof. intros Hk. apply (keeps_bind 1 1); [apply keeps_resolve_catalog_id|exact Hk]. Qed.

Lemma keeps_get_asset_rendition fmt asset_id rendition_type :
  (forall self cid,
     P (api_request self tok "GET" (rendition_url fmt cid asset_id rendition_type))) ->
  keeps P 2 tok (get_asset_rendition fmt tok asset_id rendition_type).
Proof.
  intros HP. unfold get_asset_rendition. apply keeps_catalog_scoped. intros cid.
  intros self w. unfold bind, get_self, requests_request.
  destruct (upstream w _ _) as [resp|e]; simpl; [|apply client_step_one, HP].
  destruct (status_code resp =? 401); simpl; [apply client_step_one, HP|].
  unfold lift. destruct (raise_for_status resp); simpl; apply client_step_one, HP.
Qed.

Lemma keeps_first_asset_lookup fmt album_id :
  (forall self cid,
     P (api_request self tok "GET" (request_url (assets_endpoint fmt cid album_id 1)))) ->
  keeps P 2 tok (first_asset_lookup fmt tok album_id).
Proof.
  intros HP. unfold first_asset_lookup. apply keeps_catalog_scoped. intros cid.
  apply (keeps_bind 1 0); [apply keeps_make_request; intros; apply HP|].
  intros page.
  destruct (truthy page); [|apply keeps_ret].
  apply (keeps_bind 0 0); [apply keeps_lift|]. intros rs.
  destruct (truthy rs); [|apply keeps_ret].
  apply (keeps_bind 0 0); [apply keeps_lift|]. intros fa.
  apply (keeps_bind 0 0); [apply keeps_lift|]. intros a. apply keeps_lift.
Qed.

End Keeps.

Definition any_request (_ : request) : Prop := True.

(** X1: every public method of the client is such a step of at most two
    requests (one for [get_catalog]): no method changes the OAuth handler,
    replaces a catalog that is memoized, draws a random token or sends
    anything but GET requests with the bearer token, the client id as API
    key and no body; the client secret is in no request. *)
Theorem client_methods_frame fmt netloc_ok tok :
  keeps any_request 1 tok (get_catalog tok)
  /\ (forall limit name_after,
        keeps any_request 2 tok (get_albums_page fmt netloc_ok tok limit name_after))
  /\ (forall album_id, keeps any_request 2 tok (get_album fmt tok album_id))
  /\ (forall album_id limit page_url,
        keeps any_request 2 tok
          (get_album_assets_page fmt netloc_ok tok album_id limit page_url))
  /\ (forall album_id,
        keeps any_request 2 tok (get_album_first_asset fmt tok album_id))
  /\ (forall asset_id rendition_type,
        keeps any_request 2 tok
          (get_asset_rendition fmt tok asset_id rendition_type)).
Proof.
  assert (HP : forall r, any_request r) by (intros; exact I).
  split; [apply keeps_get_catalog; intros; apply HP|].
  split; [|split; [|split; [|split]]].
  - intros limit name_after. unfold get_albums_page.
    apply keeps_catalog_scoped; [intros; apply HP|]. intros cid.
    apply (keeps_bind _ _ 1 0); [apply keeps_make_request; intros; apply HP|].
    intros page. apply keeps_lift.
  - intros album_id. unfold get_album.
    apply keeps_catalog_scoped; [intros; apply HP|]. intros cid.
    apply keeps_make_request; intros; apply HP.
  - intros album_id limit page_url. unfold get_album_assets_page.
    apply keeps_catalog_scoped; [intros; apply HP|]. intros cid.
    apply (keeps_bind _ _ 1 0).
    + destruct (given page_url); apply keeps_make_request; intros; apply HP.
    + intros page. apply keeps_lift.
  - intros album_id. unfold get_album_first_asset.
    apply (keeps_try_except _ _ 2 0).
    + apply keeps_first_asset_lookup; intros; apply HP.
    + intros e. apply keeps_ret.
  - intros asset_id rendition_type.
    apply keeps_get_asset_rendition; intros; apply HP.
Qed.

(** ** Where the bearer token is sent *)

Definition to_api (r : request) : Prop :=
  startswith (API_BASE_URL ++ "/") (req_url r) = true.

Lemma startswith_app p s : startswith p (p ++ s) = true.
Proof. induction p as [|c p IH]; simpl; [reflexivity|]. now rewrite Ascii.eqb_refl. Qed.

(** An endpoint that starts with a slash is requested on the API host. *)
Lemma request_url_relative e :
  request_url (String "/" e) = API_BASE_URL ++ String "/" e.
Proof. reflexivity. Qed.

Lemma under_api_base e :
  startswith (API_BASE_URL ++ "/") (API_BASE_URL ++ String "/" e) = true.
Proof.
  change (API_BASE_URL ++ String "/" e) with ((API_BASE_URL ++ "/") ++ e).
  apply startswith_app.
Qed.

Lemma to_api_relative self tok e :
  to_api (api_request self tok "GET" (request_url (String "/" e))).
Proof. apply under_api_base. Qed.

Lemma request_url_absolute u :
  (startswith "http://" u || startswith "https://" u)%bool = true ->
  request_url u = u.
Proof. unfold request_url. now intros ->. Qed.

(** X2: every request of [get_catalog], [get_albums_page], [get_album],
    [get_album_first_asset], [get_asset_rendition], and of
    [get_album_assets_page] without page URL, goes to a URL under the API
    base URL.  [get_album_assets_page] with an absolute page URL sends its
    page request, bearer token included, to that URL as it is, whatever
    its host. *)
Theorem requests_go_to_the_api fmt netloc_ok tok :
  keeps to_api 1 tok (get_catalog tok)
  /\ (forall limit name_after,
        keeps to_api 2 tok (get_albums_page fmt netloc_ok tok limit name_after))
  /\ (forall album_id, keeps to_api 2 tok (get_album fmt tok album_id))
  /\ (forall album_id limit,
        keeps to_api 2 tok
          (get_album_assets_page fmt netloc_ok tok album_id limit None))
  /\ (forall album_id, keeps to_api 2 tok (get_album_first_asset fmt tok album_id))
  /\ (forall asset_id rendition_type,
        keeps to_api 2 tok (get_asset_rendition fmt tok asset_id rendition_type))
  /\ (forall album_id limit u self w cid self1 w1,
        (startswith "http://" u || startswith "https://" u)%bool = true ->
        resolve_catalog_id tok self w = (Ok cid, self1, w1) ->
        sent (snd (get_album_assets_page fmt netloc_ok tok album_id limit (Some u)
                     self w))
        = (sent w1 ++ [api_request self1 tok "GET" u])%list).
Proof.
  assert (Hcat : forall self, to_api (catalog_request self tok))
    by (intros; apply to_api_relative).
  split; [now apply keeps_get_catalog|].
  split; [|split; [|split; [|split; [|split]]]].
  - intros limit name_after. unfold get_albums_page.
    apply keeps_catalog_scoped; [exact Hcat|]. intros cid.
    apply (keeps_bind _ _ 1 0); [|intros page; apply keeps_lift].
    apply keeps_make_request. intros self.
    unfold albums_endpoint. destruct name_after as [[|c r]|];
      apply to_api_relative.
  - intros album_id. unfold get_album.
    apply keeps_catalog_scoped; [exact Hcat|]. intros cid.
    apply keeps_make_request. intros self. apply to_api_relative.
  - intros album_id limit. unfold get_album_assets_page.
    apply keeps_catalog_scoped; [exact Hcat|]. intros cid.
    apply (keeps_bind _ _ 1 0); [|intros page; apply keeps_lift].
    cbn [given]. apply keeps_make_request. intros self. apply to_api_relative.
  - intros album_id. unfold get_album_first_asset.
    apply (keeps_try_except _ _ 2 0); [|intros e; apply keeps_ret].
    apply keeps_first_asset_lookup; [exact Hcat|].
    intros self cid. apply to_api_relative.
  - intros asset_id rendition_type.
    apply keeps_get_asset_rendition; [exact Hcat|].
    intros self cid. apply under_api_base.
  - intros album_id limit u self w cid self1 w1 Habs Hcat'.
    unfold get_album_assets_page. rewrite (bind_ok _ _ _ _ _ _ _ Hcat').
    destruct u as [|c u]; [discriminate|]. cbn [given].
    destruct (_make_request_frame tok "GET" (String c u) self1 w1) as [r Hr].
    unfold bind. rewrite Hr. rewrite (request_url_absolute _ Habs).
    destruct r; reflexivity.
Qed.

(** ** The authorization URL *)

(** The values of a name in a list of pairs, in order. *)
Definition values_of (k : string) (l : list (string * string)) : list string :=
  map snd (filter (fun nv => String.eqb (fst nv) k) l).

Lemma dict_get_append d n v k :
  dict_get (dict_append d n v) k
  = if String.eqb n k then
      Some (match dict_get d k with Some o => o ++ [v] | None => [v] end)%list
    else dict_get d k.
Proof.
  unfold dict_append. destruct (String.eqb_spec n k) as [->|Hne].
  - destruct (dict_get d k); apply dict_get_set_same.
  - destruct (dict_get d n); now apply dict_get_set_other.
Qed.

(** What [parse_qs] holds for a name: its values in the order of the query,
    and nothing when there is none. *)
Lemma dict_get_add_pairs l : forall d k,
  dict_get (add_pairs d l) k
  = match dict_get d k, values_of k l with
    | None, [] => None
    | None, vs => Some vs
    | Some o, vs => Some (o ++ vs)%list
    end.
Proof.
  induction l as [|[n v] l IH]; intros d k.
  - simpl. destruct (dict_get d k); [now rewrite app_nil_r|reflexivity].
  - rewrite add_pairs_cons, IH, dict_get_append.
    unfold values_of. cbn [filter fst].
    destruct (String.eqb n k); cbn [map snd].
    + destruct (dict_get d k); [now rewrite <- app_assoc|reflexivity].
    + reflexivity.
Qed.

Lemma dict_get_parse_qs q k :
  dict_get (parse_qs q) k
  = match values_of k (parse_qsl q) with
    | [] => None
    | vs => Some vs
    end.
Proof.
  unfold parse_qs. fold (add_pairs [] (parse_qsl q)).
  now rewrite dict_get_add_pairs.
Qed.

Definition nonblank (kv : string * string) : bool :=
  negb (String.eqb (snd kv) EmptyString).

Lemma parse_field_flat k v :
  parse_field (quote_plus k ++ "=" ++ quote_plus v)
  = if nonblank (k, v) then Some (k, v) else None.
Proof.
  unfold nonblank. cbn [snd]. destruct (String.eqb_spec v EmptyString) as [->|Hv].
  - unfold parse_field. cbn [append quote_plus].
    rewrite split1_app by apply quote_plus_plain. reflexivity.
  - now apply parse_field_encoded.
Qed.

(** Reading back the query [urlencode] writes for a dict of strings: the
    pairs, less those with an empty value. *)
Lemma parse_qsl_urlencode_flat params :
  parse_qsl (urlencode_flat params) = filter nonblank params.
Proof.
  unfold parse_qsl, urlencode_flat.
  set (enc := fun kv : string * string => quote_plus (fst kv) ++ "=" ++ quote_plus (snd kv)).
  assert (Hf : filter_map parse_field (map enc params) = filter nonblank params).
  { induction params as [|[k v] params IH]; [reflexivity|].
    cbn [map filter_map filter]. unfold enc at 1. cbn [fst snd].
    rewrite parse_field_flat. destruct (nonblank (k, v)); now rewrite IH. }
  assert (Hplain : Forall (fun x => contains "&" x = false) (map enc params)).
  { apply Forall_forall. intros x Hx. apply in_map_iff in Hx as (kv & <- & _).
    apply encoded_field_plain. }
  destruct params as [|kv params]; [reflexivity|].
  destruct (join "&" (map enc (kv :: params))) eqn:J.
  - exfalso. cbn [map] in J. unfold enc at 1 in J.
    destruct (map enc params); simpl in J;
      destruct (quote_plus (fst kv)); discriminate.
  - rewrite <- J, split_join; [exact Hf|discriminate|exact Hplain].
Qed.

Definition authorization_params (h : OAuthHandler) (tok : string)
  : list (string * string) :=
  [("client_id", client_id h);
   ("redirect_uri", redirect_uri h);
   ("response_type", "code");
   ("scope", SCOPE);
   ("state", tok)].

Lemma get_authorization_url_eq h w :
  get_authorization_url h w
  = (Ok (AUTHORIZATION_URL ++ "?"
         ++ urlencode_flat (authorization_params h (token_urlsafe w (drawn w)))),
     mkOAuthHandler (client_id h) (client_secret h) (redirect_uri h)
       (Some (token_urlsafe w (drawn w))),
     mkWorld (upstream w) (token_urlsafe w) (sent w) (S (drawn w))).
Proof. reflexivity. Qed.

Lemma values_of_authorization h tok :
  values_of "state" (filter nonblank (authorization_params h tok))
    = (if String.eqb tok EmptyString then [] else [tok])
  /\ values_of "response_type" (filter nonblank (authorization_params h tok))
     = ["code"]
  /\ values_of "scope" (filter nonblank (authorization_params h tok)) = [SCOPE]
  /\ values_of "client_id" (filter nonblank (authorization_params h tok))
     = (if String.eqb (client_id h) EmptyString then [] else [client_id h]).
Proof.
  unfold authorization_params, values_of, nonblank. cbn [filter snd].
  destruct (String.eqb (client_id h) EmptyString),
           (String.eqb (redirect_uri h) EmptyString),
           (String.eqb tok EmptyString); repeat split; reflexivity.
Qed.

(** X3: [get_authorization_url] sends nothing, draws one random token and
    stores it as the state; the URL it returns is the authorization
    endpoint with a query that [parse_qs] reads back as that state (when it
    is not empty), [response_type=code], the five scopes and the client id;
    and a callback that brings this state back passes the check of
    [get_access_token]. *)
Theorem authorization_url_round_trip fmt h w code :
  let tok := token_urlsafe w (drawn w) in
  let h' := snd (fst (get_authorization_url h w)) in
  let w' := snd (get_authorization_url h w) in
  exists q,
    fst (fst (get_authorization_url h w)) = Ok (AUTHORIZATION_URL ++ "?" ++ q)
    /\ state h' = Some tok
    /\ client_id h' = client_id h /\ client_secret h' = client_secret h
    /\ redirect_uri h' = redirect_uri h
    /\ sent w' = sent w /\ drawn w' = S (drawn w)
    /\ (tok <> EmptyString -> dict_get (parse_qs q) "state" = Some [tok])
    /\ dict_get (parse_qs q) "response_type" = Some ["code"]
    /\ dict_get (parse_qs q) "scope" = Some [SCOPE]
    /\ (client_id h <> EmptyString ->
        dict_get (parse_qs q) "client_id" = Some [client_id h])
    /\ exists r,
         get_access_token fmt code (Some tok) h' w'
           = (r, h', log_request w' (token_request h' code))
         /\ r <> Err InvalidState.
Proof.
  intros tok h' w'. subst h' w'. rewrite get_authorization_url_eq. cbn [fst snd].
  fold tok. exists (urlencode_flat (authorization_params h tok)).
  destruct (values_of_authorization h tok) as (Hs & Hr & Hsc & Hc).
  repeat split; try reflexivity.
  - intros Htok. rewrite dict_get_parse_qs, parse_qsl_urlencode_flat, Hs.
    destruct (String.eqb_spec tok EmptyString); [congruence|reflexivity].
  - now rewrite dict_get_parse_qs, parse_qsl_urlencode_flat, Hr.
  - now rewrite dict_get_parse_qs, parse_qsl_urlencode_flat, Hsc.
  - intros Hid. rewrite dict_get_parse_qs, parse_qsl_urlencode_flat, Hc.
    destruct (String.eqb_spec (client_id h) EmptyString); [congruence|reflexivity].
  - apply get_access_token_passed. unfold state_rejected. cbn [state].
    rewrite String.eqb_refl. now destruct (String.eqb tok EmptyString).
Qed.

(** X4: only one authorization attempt is tracked.  After a second
    [get_authorization_url] the stored state is the second token: a
    callback with the first token, when it is not empty and differs from
    the second, is rejected with [InvalidState] and nothing is sent. *)
Theorem second_authorization_url_invalidates_first fmt h w code :
  let tok1 := token_urlsafe w (drawn w) in
  let tok2 := token_urlsafe w (S (drawn w)) in
  let '(_, h1, w1) := get_authorization_url h w in
  let '(_, h2, w2) := get_authorization_url h1 w1 in
  state h1 = Some tok1 /\ state h2 = Some tok2
  /\ (tok1 <> EmptyString -> tok1 <> tok2 ->
      get_access_token fmt code (Some tok1) h2 w2 = (Err InvalidState, h2, w2)).
Proof.
  intros tok1 tok2. rewrite get_authorization_url_eq.
  rewrite get_authorization_url_eq. cbn [token_urlsafe drawn].
  fold tok1 tok2. repeat split.
  intros Hne Hdiff. apply get_access_token_rejected.
  apply state_rejected_mismatch; [exact Hne|]. cbn [state]. congruence.
Qed.

(** ** The outcomes of the token exchange *)

Lemma exchange_ok_status fmt h code w resp :
  upstream w (List.length (sent w)) (token_request h code) = Ok resp ->
  response_ok resp = true ->
  fst (fst (exchange fmt h code h w)) = response_json resp.
Proof.
  intros Hup Hok. unfold exchange, bind, requests_request, lift.
  rewrite Hup, Hok. reflexivity.
Qed.

Lemma exchange_bad_status fmt h code w resp :
  upstream w (List.length (sent w)) (token_request h code) = Ok resp ->
  response_ok resp = false ->
  fst (fst (exchange fmt h code h w))
  = match token_error_detail fmt resp with
    | Ok error_detail =>
        Err (HTTPError ("Token exchange failed: " ++ error_detail
                        ++ " (Status: " ++ str_int (status_code resp) ++ ")"))
    | Err e => Err e
    end.
Proof.
  intros Hup Hok. unfold exchange, bind, requests_request, lift, raise.
  rewrite Hup, Hok. cbn [negb]. destruct (token_error_detail fmt resp); reflexivity.
Qed.

Lemma get_access_token_result fmt code st h w :
  state_rejected st (state h) = false ->
  fst (fst (get_access_token fmt code st h w))
  = match fst (fst (exchange fmt h code h w)) with
    | Ok v => Ok v
    | Err e =>
        if is_HTTPError e then Err e
        else Err (Exception ("Unexpected error during token exchange: "
                             ++ str_exn e))
    end.
Proof.
  intros Hst. unfold get_access_token, bind, get_self. rewrite Hst.
  unfold try_except.
  destruct (exchange fmt h code h w) as [[[v|e] h1] w1]; [reflexivity|].
  cbn [fst]. destruct (is_HTTPError e); reflexivity.
Qed.

(** The text that stands for the error in the message of a failed
    exchange, for a body that is a JSON object: the description, else the
    error code, else the raw body. *)
Definition error_detail_of (fmt : json -> string) (d : dict json) (raw : string)
  : string :=
  py_str fmt (field d "error_description" (field d "error" (JStr raw))).

(** X5: when the token endpoint answers with a status of 400 to 599,
    [get_access_token] raises [HTTPError] with a message that carries the
    status and, for a body that is a JSON object, its [error_description],
    else its [error], else the body itself; for a body that is not JSON,
    the body, or [HTTP <status>] when the body is empty.  A body that is
    JSON but not an object ends in the generic [Exception] instead. *)
Theorem failed_exchange_detail fmt code st h w resp :
  state_rejected st (state h) = false ->
  upstream w (List.length (sent w)) (token_request h code) = Ok resp ->
  response_ok resp = false ->
  let failed detail :=
    Err (HTTPError ("Token exchange failed: " ++ detail ++ " (Status: "
                    ++ str_int (status_code resp) ++ ")")) in
  let r := fst (fst (get_access_token fmt code st h w)) in
  (forall d, response_json resp = Ok (JObj d) ->
     r = failed (error_detail_of fmt d (text resp)))
  /\ (is_ok (response_json resp) = false -> text resp <> EmptyString ->
      r = failed (text resp))
  /\ (is_ok (response_json resp) = false -> text resp = EmptyString ->
      r = failed ("HTTP " ++ str_int (status_code resp)))
  /\ (forall v, response_json resp = Ok v -> (forall d, v <> JObj d) ->
      exists m, r = Err (Exception m)).
Proof.
  intros Hst Hup Hbad failed r. subst r.
  rewrite (get_access_token_result _ _ _ _ _ Hst).
  rewrite (exchange_bad_status _ _ _ _ _ Hup Hbad).
  unfold token_error_detail. split; [|split; [|split]].
  - intros d ->. reflexivity.
  - intros Hno Htext. destruct (response_json resp) as [v|e] eqn:E; [discriminate|].
    unfold response_json in E. rewrite (json_loads_error _ _ E).
    destruct (text resp); [congruence|reflexivity].
  - intros Hno Htext. destruct (response_json resp) as [v|e] eqn:E; [discriminate|].
    unfold response_json in E. rewrite (json_loads_error _ _ E).
    rewrite Htext. reflexivity.
  - intros v -> Hv. destruct v; try (eexists; reflexivity).
    now contradiction (Hv d).
Qed.

(** X6: whatever the token endpoint does, [get_access_token] raises nothing
    but the [ValueError] of the state check, [HTTPError], or the generic
    [Exception] that wraps every other failure (transport errors, a body
    that does not decode): no other exception class reaches the caller.
    With a status outside 400..599 it returns the decoded body. *)
Theorem get_access_token_outcomes fmt code st h w :
  (forall e, fst (fst (get_access_token fmt code st h w)) = Err e ->
     e = InvalidState \/ is_HTTPError e = true
     \/ exists m, e = Exception ("Unexpected error during token exchange: " ++ m))
  /\ (forall resp v,
        state_rejected st (state h) = false ->
        upstream w (List.length (sent w)) (token_request h code) = Ok resp ->
        response_ok resp = true ->
        response_json resp = Ok v ->
        fst (fst (get_access_token fmt code st h w)) = Ok v)
  /\ (forall e,
        state_rejected st (state h) = false ->
        upstream w (List.length (sent w)) (token_request h code) = Err e ->
        is_HTTPError e = false ->
        fst (fst (get_access_token fmt code st h w))
        = Err (Exception ("Unexpected error during token exchange: " ++ str_exn e))).
Proof.
  split; [|split].
  - intros e. destruct (state_rejected st (state h)) eqn:Hst.
    + rewrite get_access_token_rejected by exact Hst. intros [= <-]. now left.
    + rewrite (get_access_token_result _ _ _ _ _ Hst).
      destruct (fst (fst (exchange fmt h code h w))) as [v|e']; [discriminate|].
      destruct (is_HTTPError e') eqn:He; intros [= <-]; [tauto|].
      right. right. now eexists.
  - intros resp v Hst Hup Hok Hv.
    rewrite (get_access_token_result _ _ _ _ _ Hst).
    now rewrite (exchange_ok_status _ _ _ _ _ Hup Hok), Hv.
  - intros e Hst Hup He.
    rewrite (get_access_token_result _ _ _ _ _ Hst).
    unfold exchange, bind, requests_request. rewrite Hup. cbn [fst].
    now rewrite He.
Qed.

(** The request [refresh_access_token] posts. *)
Definition refresh_request (self : OAuthHandler) (refresh_token : string) : request :=
  mkRequest "POST" TOKEN_URL
    [("Content-Type", "application/x-www-form-urlencoded");
     ("x-api-key", client_id self)]
    [("grant_type", "refresh_token"); ("refresh_token", refresh_token)]
    (Some (client_id self, client_secret self)).

(** X7: [refresh_access_token] posts one request to the token endpoint,
    with the refresh grant and the client credentials as basic
    authentication, and leaves the handler as it was; it looks at no
    state.  A status of 400 to 599 raises [HTTPError]; a transport error
    or a body that does not decode is raised as it is, not wrapped as in
    [get_access_token]. *)
Theorem refresh_access_token_outcomes refresh_token h w :
  snd (fst (refresh_access_token refresh_token h w)) = h
  /\ snd (refresh_access_token refresh_token h w)
     = log_request w (refresh_request h refresh_token)
  /\ (forall e,
        upstream w (List.length (sent w)) (refresh_request h refresh_token) = Err e ->
        fst (fst (refresh_access_token refresh_token h w)) = Err e)
  /\ (forall resp,
        upstream w (List.length (sent w)) (refresh_request h refresh_token) = Ok resp ->
        (response_ok resp = false ->
         exists m, fst (fst (refresh_access_token refresh_token h w))
                   = Err (HTTPError m))
        /\ (response_ok resp = true ->
            fst (fst (refresh_access_token refresh_token h w))
            = response_json resp)).
Proof.
  unfold refresh_access_token, bind, get_self, requests_request, lift.
  fold (refresh_request h refresh_token).
  destruct (upstream w _ _) as [resp|e] eqn:Hup.
  - unfold raise_for_status.
    split; [destruct (response_ok resp); reflexivity|].
    split; [destruct (response_ok resp); reflexivity|].
    split; [discriminate|].
    intros resp' [= <-]. split; intros ->; [now eexists|reflexivity].
  - split; [reflexivity|]. split; [reflexivity|].
    split; [now intros e' [= <-]|discriminate].
Qed.

(** ** The outcomes of a request *)



(** ** When the catalog cannot be resolved *)

(** X10: a call of [get_catalog] that raises has memoized nothing: the
    client is as it was, with no catalog, and exactly the [/catalog]
    request was sent. *)
Theorem get_catalog_failure tok self w e self' w' :
  get_catalog tok self w = (Err e, self', w') ->
  self' = self /\ catalog self = JNull
  /\ w' = log_request w (catalog_request self tok).
Proof.
  intros H. destruct (catalog self) eqn:Hc;
    try (rewrite get_catalog_memo in H by congruence; discriminate).
  rewrite get_catalog_fetch in H by exact Hc.
  destruct (_make_request_frame tok "GET" "/catalog" self w) as [r Hr].
  rewrite Hr in H. destruct r; [discriminate|].
  injection H as _ <- <-. repeat split.
Qed.

Lemma resolve_catalog_id_cases tok self w :
  match get_catalog tok self w with
  | (Err e, self', w') => resolve_catalog_id tok self w = (Err e, self', w')
  | (Ok c, self', w') =>
      resolve_catalog_id tok self w
      = (if negb (truthy c) then Err (Exception "Could not retrieve catalog")
         else match py_get c "id" JNull with
              | Err e => Err e
              | Ok cid =>
                  if negb (truthy cid)
                  then Err (Exception "Could not retrieve catalog ID")
                  else Ok cid
              end,
         self', w')
  end.
Proof.
  unfold resolve_catalog_id.
  destruct (get_catalog tok self w) as [[[c|e] s1] w1] eqn:Hc.
  - rewrite (bind_ok _ _ _ _ _ _ _ Hc).
    destruct (negb (truthy c)); [reflexivity|].
    unfold bind, lift, raise, ret. destruct (py_get c "id" JNull) as [cid|e];
      [|reflexivity].
    destruct (negb (truthy cid)); reflexivity.
  - now rewrite (bind_err _ _ _ _ _ _ _ Hc).
Qed.

(** X11: when the catalog id cannot be resolved, every catalog-scoped
    method stops there: it raises the same exception and sends nothing
    more ([get_album_first_asset] returns [None]).  The id cannot be
    resolved when the catalog is empty or null ([Could not retrieve
    catalog]), when it is a dict without a usable [id] ([Could not
    retrieve catalog ID]), and when it is not a dict. *)
Theorem catalog_unavailable fmt netloc_ok tok self w :
  (forall e self1 w1,
     resolve_catalog_id tok self w = (Err e, self1, w1) ->
     (forall limit name_after,
        get_albums_page fmt netloc_ok tok limit name_after self w
        = (Err e, self1, w1))
     /\ (forall album_id, get_album fmt tok album_id self w = (Err e, self1, w1))
     /\ (forall album_id limit page_url,
           get_album_assets_page fmt netloc_ok tok album_id limit page_url self w
           = (Err e, self1, w1))
     /\ (forall asset_id rendition_type,
           get_asset_rendition fmt tok asset_id rendition_type self w
           = (Err e, self1, w1))
     /\ (forall album_id,
           get_album_first_asset fmt tok album_id self w = (Ok JNull, self1, w1)))
  /\ (forall c self1 w1,
        get_catalog tok self w = (Ok c, self1, w1) ->
        (truthy c = false ->
         resolve_catalog_id tok self w
         = (Err (Exception "Could not retrieve catalog"), self1, w1))
        /\ (forall d, c = JObj d -> d <> [] ->
            truthy (field d "id" JNull) = false ->
            resolve_catalog_id tok self w
            = (Err (Exception "Could not retrieve catalog ID"), self1, w1))
        /\ (truthy c = true -> (forall d, c <> JObj d) ->
            exists m, resolve_catalog_id tok self w
                      = (Err (AttributeError m), self1, w1))).
Proof.
  split.
  - intros e self1 w1 H. repeat split; intros.
    + unfold get_albums_page. now rewrite (bind_err _ _ _ _ _ _ _ H).
    + unfold get_album. now rewrite (bind_err _ _ _ _ _ _ _ H).
    + unfold get_album_assets_page. now rewrite (bind_err _ _ _ _ _ _ _ H).
    + unfold get_asset_rendition. now rewrite (bind_err _ _ _ _ _ _ _ H).
    + unfold get_album_first_asset, try_except, first_asset_lookup.
      now rewrite (bind_err _ _ _ _ _ _ _ H).
  - intros c self1 w1 H. pose proof (resolve_catalog_id_cases tok self w) as Hr.
    rewrite H in Hr. rewrite Hr. split; [|split].
    + now intros ->.
    + intros d -> Hd Hid. destruct d as [|kv d]; [congruence|].
      cbn [truthy negb py_get]. fold (field (kv :: d) "id" JNull).
      now rewrite Hid.
    + intros Ht Hnd. rewrite Ht. cbn [negb].
      destruct c; try (eexists; reflexivity). now contradiction (Hnd d).
Qed.

(** ** Integers written and read back *)





Definition digit_or_minus (c : ascii) : bool := (is_digit c || Ascii.eqb c "-")%bool.

Lemma string_of_uint_digits d : str_forall is_digit (NilEmpty.string_of_uint d) = true.
Proof. induction d; simpl; auto. Qed.

Lemma str_forall_impl (p q : ascii -> bool) s :
  (forall c, p c = true -> q c = true) ->
  str_forall p s = true -> str_forall q s = true.
Proof.
  intros Hpq. induction s as [|c s IH]; simpl; [reflexivity|].
  intros H. apply andb_prop in H as [Hc Hs]. now rewrite (Hpq _ Hc), IH.
Qed.

Lemma digit_facts c :
  is_digit c = true ->
  is_space c = false /\ always_safe c = true
  /\ Ascii.eqb c "-" = false /\ Ascii.eqb c "+" = false.
Proof.
  destruct c as [[] [] [] [] [] [] [] []]; intros H;
    solve [discriminate H | repeat split; reflexivity].
Qed.




(** ** Going back page by page *)



(** ** The cursor in the albums request *)

Lemma quote_char_safe c : always_safe c = true -> quote_char c = String c EmptyString.
Proof. unfold quote_char. now intros ->. Qed.

Lemma quote_plus_safe s : str_forall always_safe s = true -> quote_plus s = s.
Proof.
  induction s as [|c s IH]; simpl; [reflexivity|].
  intros H. apply andb_prop in H as [Hc Hs].
  now rewrite (quote_char_safe _ Hc), (IH Hs).
Qed.

Lemma str_int_safe z : str_forall always_safe (str_int z) = true.
Proof.
  assert (Hu : forall d, str_forall always_safe (NilZero.string_of_uint d) = true).
  { intros d. unfold NilZero.string_of_uint.
    assert (He : str_forall always_safe (NilEmpty.string_of_uint d) = true).
    { eapply str_forall_impl; [|apply string_of_uint_digits].
      intros c Hc. now destruct (digit_facts c Hc) as (_ & -> & _). }
    destruct d; try exact He; reflexivity. }
  unfold str_int, NilZero.string_of_int.
  destruct (Z.to_int z); [apply Hu|]. simpl. apply Hu.
Qed.

Lemma split1_none sep s : contains sep s = false -> split1 sep s = (s, None).
Proof.
  induction s as [|c s IH]; simpl; [reflexivity|].
  intros H. apply orb_false_elim in H as [Hc Hs]. now rewrite Hc, (IH Hs).
Qed.

Lemma parse_qsl_join l :
  Forall (fun x => contains "&" x = false) l ->
  parse_qsl (join "&" l) = filter_map parse_field l.
Proof.
  intros Hl. unfold parse_qsl.
  destruct (join "&" l) eqn:J.
  - destruct l as [|x [|y l]]; [reflexivity| |].
    + simpl in J. now subst x.
    + simpl in J. destruct x; discriminate.
  - rewrite <- J. destruct l as [|x l]; [discriminate|].
    rewrite split_join; [reflexivity|discriminate|exact Hl].
Qed.

Lemma safe_plain c s :
  always_safe c = false -> str_forall always_safe s = true -> contains c s = false.
Proof.
  intros Hc. induction s as [|a s IH]; simpl; [reflexivity|].
  intros H. apply andb_prop in H as [Ha Hs]. rewrite (IH Hs).
  destruct (Ascii.eqb_spec a c) as [->|_]; [congruence|reflexivity].
Qed.

(** The query of the request for an albums page. *)
Definition albums_query (limit : Z) (name_after : string) : string :=
  "limit=" ++ str_int limit ++ "&name_after=" ++ name_after.

Lemma albums_endpoint_query fmt cid limit c r :
  albums_endpoint fmt cid limit (Some (String c r))
  = "/catalogs/" ++ py_str fmt cid ++ "/albums?" ++ albums_query limit (String c r).
Proof.
  unfold albums_endpoint, albums_query.
  rewrite !append_assoc_r. reflexivity.
Qed.

(** X13: the cursor is put into the albums request as it is, without
    percent-encoding.  For a cursor of unreserved characters (letters,
    digits, [_.-~]) the query of the request reads back, with [parse_qs],
    as the limit and that cursor.  A cursor [x&y] of two such parts is cut:
    the query reads back with the cursor [x]. *)
Theorem albums_request_cursor fmt cid limit x :
  x <> EmptyString ->
  str_forall always_safe x = true ->
  (exists q,
     albums_endpoint fmt cid limit (Some x)
       = "/catalogs/" ++ py_str fmt cid ++ "/albums?" ++ q
     /\ dict_get (parse_qs q) "limit" = Some [str_int limit]
     /\ dict_get (parse_qs q) "name_after" = Some [x])
  /\ (forall y,
        str_forall always_safe y = true ->
        exists q,
          albums_endpoint fmt cid limit (Some (x ++ "&" ++ y))
            = "/catalogs/" ++ py_str fmt cid ++ "/albums?" ++ q
          /\ dict_get (parse_qs q) "name_after" = Some [x]).
Proof.
  intros Hx Hsafe.
  assert (Hfield : forall v, v <> EmptyString -> str_forall always_safe v = true ->
            forall k, str_forall always_safe k = true ->
            parse_field (k ++ "=" ++ v) = Some (k, v)
            /\ contains "&" (k ++ "=" ++ v) = false).
  { intros v Hv Hsv k Hsk. split.
    - rewrite <- (quote_plus_safe k Hsk) at 1.
      rewrite <- (quote_plus_safe v Hsv) at 1. now apply parse_field_encoded.
    - rewrite !contains_app, (safe_plain "&" k), (safe_plain "&" v); auto. }
  destruct (Hfield (str_int limit) (str_int_nonempty _) (str_int_safe _)
              "limit" eq_refl) as [Hl1 Hl2].
  destruct (Hfield x Hx Hsafe "name_after" eq_refl) as [Hn1 Hn2].
  split.
  - exists (albums_query limit x). split; [|split].
    + destruct x; [congruence|]. apply albums_endpoint_query.
    + rewrite dict_get_parse_qs.
      change (albums_query limit x)
        with (join "&" ["limit" ++ "=" ++ str_int limit; "name_after" ++ "=" ++ x]).
      rewrite parse_qsl_join by (repeat constructor; assumption).
      cbn [filter_map]. rewrite Hl1, Hn1. reflexivity.
    + rewrite dict_get_parse_qs.
      change (albums_query limit x)
        with (join "&" ["limit" ++ "=" ++ str_int limit; "name_after" ++ "=" ++ x]).
      rewrite parse_qsl_join by (repeat constructor; assumption).
      cbn [filter_map]. rewrite Hl1, Hn1. reflexivity.
  - intros y Hy. exists (albums_query limit (x ++ "&" ++ y)). split.
    + destruct x; [congruence|]. apply albums_endpoint_query.
    + rewrite dict_get_parse_qs.
      assert (Hq : albums_query limit (x ++ "&" ++ y)
                   = join "&" ["limit" ++ "=" ++ str_int limit;
                               "name_after" ++ "=" ++ x; y]).
      { unfold albums_query. cbn [join]. now rewrite !append_assoc_r. }
      rewrite Hq.
      assert (Hy1 : contains "&" y = false) by now apply safe_plain.
      assert (Hy2 : parse_field y = None).
      { unfold parse_field. now rewrite split1_none by now apply safe_plain. }
      rewrite parse_qsl_join by (repeat constructor; assumption).
      cbn [filter_map]. rewrite Hl1, Hn1, Hy2. reflexivity.
Qed.

(** ** What the eager loop collects *)

Lemma keeps_weaken {A} P n m tok (c : M LightroomClient A) :
  (n <= m)%nat -> keeps P n tok c -> keeps P m tok c.
Proof. intros Hnm H self w. eapply client_step_weaken; eauto. Qed.

Lemma keeps_paged_step netloc_ok tok page resources :
  keeps any_request 1 tok (paged_step netloc_ok tok page resources).
Proof.
  assert (HP : forall r, any_request r) by (intros; exact I).
  unfold paged_step.
  apply (keeps_bind _ _ 0 1); [apply keeps_lift|]. intros links.
  apply (keeps_bind _ _ 0 1); [apply keeps_lift|]. intros next.
  destruct (negb (truthy next));
    [apply (keeps_weaken _ 0 1); [lia|apply keeps_ret]|].
  apply (keeps_bind _ _ 0 1); [apply keeps_lift|]. intros href.
  destruct (negb (truthy href));
    [apply (keeps_weaken _ 0 1); [lia|apply keeps_ret]|].
  apply (keeps_bind _ _ 0 1); [apply keeps_lift|]. intros base.
  apply (keeps_bind _ _ 0 1); [apply keeps_lift|]. intros next_url.
  apply (keeps_bind _ _ 1 0).
  - destruct next_url;
      try (apply (keeps_weaken _ 0 1); [lia|apply keeps_raise]).
    apply keeps_make_request. intros; apply HP.
  - intros page'. destruct (negb (truthy page')); [apply keeps_ret|].
    apply (keeps_bind _ _ 0 0); [apply keeps_lift|]. intros rs.
    apply (keeps_bind _ _ 0 0); [apply keeps_lift|]. intros items.
    apply keeps_ret.
Qed.

(** An iteration only adds to the resources collected so far. *)
Lemma paged_step_grows netloc_ok tok page resources self w o self' w' :
  paged_step netloc_ok tok page resources self w = (Ok o, self', w') ->
  match o with
  | Continue _ resources' => exists items, resources' = (resources ++ items)%list
  | Break resources' => resources' = resources
  end.
Proof.
  unfold paged_step, bind, lift, ret, raise.
  destruct (py_get page "links" (JObj [])) as [links|e]; [|discriminate].
  destruct (py_get links "next" JNull) as [next|e]; [|discriminate].
  destruct (negb (truthy next)); [now intros [= <- _ _]|].
  destruct (py_get next "href" JNull) as [href|e]; [|discriminate].
  destruct (negb (truthy href)); [now intros [= <- _ _]|].
  destruct (py_get page "base" (JStr API_BASE_URL)) as [base|e]; [|discriminate].
  destruct (py_urljoin netloc_ok base href) as [next_url|e]; [|discriminate].
  destruct (_make_request_value tok "GET" next_url self w) as [[[p|e] s1] w1];
    [|discriminate].
  destruct (negb (truthy p)); [now intros [= <- _ _]|].
  destruct (py_get p "resources" (JArr [])) as [rs|e]; [|discriminate].
  destruct (py_iter rs) as [items|e]; [|discriminate].
  intros [= <- _ _]. now exists items.
Qed.

(** An iteration does not write the client. *)
Lemma paged_step_self netloc_ok tok page resources self w :
  snd (fst (paged_step netloc_ok tok page resources self w)) = self.
Proof.
  unfold paged_step, bind, lift, ret, raise.
  destruct (py_get page "links" (JObj [])) as [links|e]; [|reflexivity].
  destruct (py_get links "next" JNull) as [next|e]; [|reflexivity].
  destruct (negb (truthy next)); [reflexivity|].
  destruct (py_get next "href" JNull) as [href|e]; [|reflexivity].
  destruct (negb (truthy href)); [reflexivity|].
  destruct (py_get page "base" (JStr API_BASE_URL)) as [base|e]; [|reflexivity].
  destruct (py_urljoin netloc_ok base href) as [next_url|e]; [|reflexivity].
  assert (Hreq : snd (fst (_make_request_value tok "GET" next_url self w)) = self).
  { destruct next_url; try reflexivity. simpl.
    now destruct (_make_request_frame tok "GET" s self w) as [r ->]. }
  destruct (_make_request_value tok "GET" next_url self w) as [[[p|e] s1] w1];
    simpl in Hreq; subst s1; [|reflexivity].
  destruct (negb (truthy p)); [reflexivity|].
  destruct (py_get p "resources" (JArr [])) as [rs|e]; [|reflexivity].
  destruct (py_iter rs) as [items|e]; reflexivity.
Qed.

Lemma paged_loop_collects netloc_ok tok fuel :
  forall page resources self w r self' w',
    paged_loop netloc_ok fuel tok page resources self w = Some (r, self', w') ->
    self' = self
    /\ client_step any_request fuel tok self w self' w'
    /\ (forall l, r = Ok l -> exists more, l = (resources ++ more)%list).
Proof.
  induction fuel as [|fuel IH]; intros page resources self w r self' w' H;
    [discriminate|].
  cbn [paged_loop] in H.
  pose proof (keeps_paged_step netloc_ok tok page resources self w) as Hstep.
  pose proof (paged_step_self netloc_ok tok page resources self w) as Hself.
  destruct (paged_step netloc_ok tok page resources self w)
    as [[[o|e] s1] w1] eqn:E; simpl in Hstep, Hself; subst s1.
  - apply paged_step_grows in E. destruct o as [page' resources'|resources'].
    + destruct (IH _ _ _ _ _ _ _ H) as (-> & Hrest & Hl).
      split; [reflexivity|]. split.
      * apply (client_step_trans _ _ 1 fuel _ _ _ _ _ _ Hstep Hrest).
      * intros l Hr. destruct (Hl l Hr) as [more ->].
        destruct E as [items ->]. exists (items ++ more)%list.
        now rewrite app_assoc.
    + injection H as <- <- <-. subst resources'. split; [reflexivity|]. split.
      * eapply client_step_weaken; [|exact Hstep]. lia.
      * intros l [= <-]. exists []. now rewrite app_nil_r.
  - injection H as <- <- <-. split; [reflexivity|]. split.
    + eapply client_step_weaken; [|exact Hstep]. lia.
    + discriminate.
Qed.

(** The resources of a page as the loop takes them. *)
Definition page_items (page : json) : result (list json) :=
  rs <-? py_get page "resources" (JArr []) ;; py_iter rs.

(** X14: when [_get_paged_resources] returns, it has sent at most one
    request per evaluation of the loop condition plus the first, all of
    them bearer GET requests, and has left the client as it was (the
    catalog memo is neither read nor written).  The list it returns starts
    with the resources of the first page, in their order, and the later
    pages only add to its end; an empty first page gives the empty list. *)
(** X14: when [_get_paged_resources] returns, it has sent at most one
    request per evaluation of the loop condition plus the first, all of
    them bearer GET requests, and has left the client as it was (the
    catalog memo is neither read nor written).  The list it returns starts
    with the resources of the first page, in their order, and the later
    pages only add to its end; an empty first page gives the empty list. *)
Theorem paged_resources_collect netloc_ok fuel tok endpoint self w r self' w' :
  _get_paged_resources netloc_ok fuel tok endpoint self w = Some (r, self', w') ->
  self' = self
  /\ client_step any_request (S fuel) tok self w self' w'
  /\ (forall l, r = Ok l ->
      exists resp page,
        upstream w (List.length (sent w))
          (api_request self tok "GET" (request_url endpoint)) = Ok resp
        /\ _process_json_response (text resp) = Ok page
        /\ ((truthy page = false /\ l = [])
            \/ exists items more,
                 page_items page = Ok items /\ l = (items ++ more)%list)).
Proof.
  unfold _get_paged_resources. intros H.
  pose proof (keeps_make_request any_request tok endpoint
                (fun _ => I) self w) as Hreq.
  destruct (_make_request_frame tok "GET" endpoint self w) as [r1 Hframe].
  destruct (_make_request tok "GET" endpoint self w) as [[[page|e] s1] w1] eqn:E;
    simpl in Hreq; injection Hframe as _ -> _.
  - apply _make_request_ok in E as (_ & _ & resp & Hup & Hdec).
    destruct (negb (truthy page)) eqn:Hp.
    + injection H as <- <- <-. split; [reflexivity|]. split.
      * eapply client_step_weaken; [|exact Hreq]. lia.
      * intros l [= <-]. exists resp, page. repeat split; auto.
        left. apply negb_true_iff in Hp. now split.
    + fold (page_items page) in H.
      destruct (page_items page) as [items|e] eqn:Hitems.
      * apply paged_loop_collects in H as (-> & Hloop & Hl).
        split; [reflexivity|]. split.
        -- apply (client_step_trans _ _ 1 fuel _ _ _ _ _ _ Hreq Hloop).
        -- intros l Hr. destruct (Hl l Hr) as [more ->].
           exists resp, page. repeat split; auto. right. now exists items, more.
      * injection H as <- <- <-. split; [reflexivity|]. split.
        -- eapply client_step_weaken; [|exact Hreq]. lia.
        -- discriminate.
  - injection H as <- <- <-. split; [reflexivity|]. split.
    + eapply client_step_weaken; [|exact Hreq]. lia.
    + discriminate.
Qed.

(** * Properties of the views *)

(** ** What the views send, and with whose token *)

Lemma lightroom_client_eta self :
  lightroom_client (mkServer (oauth_handler self) (catalog self)) = self.
Proof. now destruct self. Qed.

Lemma with_client_eq {A} (c : M LightroomClient A) s w :
  with_client c s w
  = (fst (fst (c (lightroom_client s) w)),
     mkServer (oauth_handler (snd (fst (c (lightroom_client s) w))))
              (catalog (snd (fst (c (lightroom_client s) w)))),
     snd (c (lightroom_client s) w)).
Proof. unfold with_client. now destruct (c (lightroom_client s) w) as [[r self] w']. Qed.

(** Steps of any length. *)
Definition client_steps (P : request -> Prop) (tok : string)
  (self : LightroomClient) (w : world) (self' : LightroomClient) (w' : world)
  : Prop :=
  exists n, client_step P n tok self w self' w'.

Definition keeps_some {A} (P : request -> Prop) (tok : string)
  (c : M LightroomClient A) : Prop :=
  forall self w, client_steps P tok self w (snd (fst (c self w))) (snd (c self w)).

Lemma keeps_keeps_some {A} P n tok (c : M LightroomClient A) :
  keeps P n tok c -> keeps_some P tok c.
Proof. intros H self w. exists n. apply H. Qed.

Lemma keeps_some_bind {A B} P tok (c : M LightroomClient A)
  (k : A -> M LightroomClient B) :
  keeps_some P tok c -> (forall a, keeps_some P tok (k a)) ->
  keeps_some P tok (bind c k).
Proof.
  intros Hc Hk self w. destruct (Hc self w) as [n Hn]. unfold bind.
  destruct (c self w) as [[[a|e] s1] w1]; cbn [fst snd] in Hn.
  - destruct (Hk a s1 w1) as [m Hm]. exists (n + m)%nat.
    eapply client_step_trans; [exact Hn|exact Hm].
  - exists n. exact Hn.
Qed.

Section ViewsFrame.

Variable fmt : json -> string.
Variable netloc_ok : string -> bool.
Variable ALBUMS_PER_PAGE : Z.
Variable PHOTOS_PER_PAGE : Z.
Variable P : request -> Prop.
Variable tok : string.
Hypothesis P_any : forall r, P r.

Lemma keeps_get_albums_page limit name_after :
  keeps P 2 tok (get_albums_page fmt netloc_ok tok limit name_after).
Proof.
  unfold get_albums_page. apply keeps_catalog_scoped; [intros; apply P_any|].
  intros cid.
  apply (keeps_bind _ _ 1 0); [apply keeps_make_request; intros; apply P_any|].
  intros page. apply keeps_lift.
Qed.

Lemma keeps_get_album album_id : keeps P 2 tok (get_album fmt tok album_id).
Proof.
  unfold get_album. apply keeps_catalog_scoped; [intros; apply P_any|].
  intros cid. apply keeps_make_request; intros; apply P_any.
Qed.

Lemma keeps_get_album_assets_page album_id limit page_url :
  keeps P 2 tok (get_album_assets_page fmt netloc_ok tok album_id limit page_url).
Proof.
  unfold get_album_assets_page. apply keeps_catalog_scoped; [intros; apply P_any|].
  intros cid. apply (keeps_bind _ _ 1 0).
  - destruct (given page_url); apply keeps_make_request; intros; apply P_any.
  - intros page. apply keeps_lift.
Qed.

Lemma keeps_get_album_first_asset album_id :
  keeps P 2 tok (get_album_first_asset fmt tok album_id).
Proof.
  unfold get_album_first_asset. apply (keeps_try_except _ _ 2 0).
  - apply keeps_first_asset_lookup; intros; apply P_any.
  - intros e. apply keeps_ret.
Qed.

Lemma keeps_enrich_album album : keeps P 2 tok (enrich_album fmt tok album).
Proof.
  unfold enrich_album. apply (keeps_bind _ _ 0 2); [apply keeps_lift|].
  intros album_id. destruct (truthy album_id).
  - apply (keeps_bind _ _ 2 0); [apply keeps_get_album_first_asset|].
    intros a. apply keeps_lift.
  - apply (keeps_weaken _ 0); [lia|apply keeps_ret].
Qed.

Lemma keeps_enrich_albums l :
  keeps P (2 * List.length l) tok (enrich_albums fmt tok l).
Proof.
  induction l as [|album l IH]; [apply keeps_ret|].
  cbn [enrich_albums].
  apply (keeps_weaken _ (2 + (2 * List.length l + 0))); [simpl; lia|].
  apply keeps_bind; [apply keeps_enrich_album|]. intros album'.
  apply keeps_bind; [exact IH|]. intros rest'. apply keeps_ret.
Qed.

Lemma keeps_album_entry album : keeps P 2 tok (album_entry fmt tok album).
Proof.
  unfold album_entry. apply (keeps_bind _ _ 0 2); [apply keeps_lift|].
  intros album_id. destruct (truthy album_id).
  - apply (keeps_bind _ _ 2 0); [apply keeps_get_album_first_asset|].
    intros a. apply (keeps_bind _ _ 0 0); [apply keeps_lift|]. intros p.
    apply (keeps_bind _ _ 0 0); [apply keeps_lift|]. intros n.
    apply (keeps_bind _ _ 0 0); [apply keeps_lift|]. intros ac. apply keeps_ret.
  - apply (keeps_weaken _ 0); [lia|apply keeps_ret].
Qed.

Lemma keeps_album_entries l :
  keeps P (2 * List.length l) tok (album_entries fmt tok l).
Proof.
  induction l as [|album l IH]; [apply keeps_ret|].
  cbn [album_entries].
  apply (keeps_weaken _ (2 + (2 * List.length l + 0))); [simpl; lia|].
  apply keeps_bind; [apply keeps_album_entry|]. intros entry.
  apply keeps_bind; [exact IH|]. intros rest'. apply keeps_ret.
Qed.

(** The [try] blocks of the views. *)
Lemma keeps_albums_body :
  keeps_some P tok
    (bind (get_albums_page fmt netloc_ok tok ALBUMS_PER_PAGE None)
       (fun p => bind (enrich fmt tok (fst p))
                   (fun albums_list => ret (albums_list, snd p)))).
Proof.
  apply keeps_some_bind; [eapply keeps_keeps_some, keeps_get_albums_page|].
  intros p. apply keeps_some_bind; [|intros; eapply keeps_keeps_some, keeps_ret].
  unfold enrich. apply keeps_some_bind; [eapply keeps_keeps_some, keeps_lift|].
  intros items. apply keeps_some_bind; [eapply keeps_keeps_some, keeps_enrich_albums|].
  intros items'. eapply keeps_keeps_some, keeps_ret.
Qed.

Lemma keeps_albums_api_body name_after :
  keeps_some P tok
    (bind (get_albums_page fmt netloc_ok tok ALBUMS_PER_PAGE (Some name_after))
       (fun p => bind (lift (py_iter (fst p)))
          (fun items => bind (album_entries fmt tok items)
             (fun albums_data => ret (albums_data, snd p))))).
Proof.
  apply keeps_some_bind; [eapply keeps_keeps_some, keeps_get_albums_page|].
  intros p. apply keeps_some_bind; [eapply keeps_keeps_some, keeps_lift|].
  intros items. apply keeps_some_bind; [eapply keeps_keeps_some, keeps_album_entries|].
  intros d. eapply keeps_keeps_some, keeps_ret.
Qed.

Lemma keeps_album_view_body album_id page_url :
  keeps P 4 tok
    (bind (get_album fmt tok album_id)
       (fun album_info =>
          bind (get_album_assets_page fmt netloc_ok tok album_id PHOTOS_PER_PAGE
                  page_url)
            (fun p => ret (album_info, p)))).
Proof.
  apply (keeps_bind _ _ 2 2); [apply keeps_get_album|]. intros a.
  apply (keeps_bind _ _ 2 0); [apply keeps_get_album_assets_page|].
  intros p. apply keeps_ret.
Qed.

Lemma keeps_album_photos_api_body album_id page_url :
  keeps P 2 tok
    (bind (get_album_assets_page fmt netloc_ok tok album_id PHOTOS_PER_PAGE
             (Some page_url))
       (fun p => let '(photos, next_url, _) := p in
          bind (lift (py_iter photos))
            (fun items => bind (lift (photo_entries items))
               (fun photos_data => ret (photos_data, next_url))))).
Proof.
  apply (keeps_bind _ _ 2 0); [apply keeps_get_album_assets_page|].
  intros [[photos next_url] prev_url].
  apply (keeps_bind _ _ 0 0); [apply keeps_lift|]. intros items.
  apply (keeps_bind _ _ 0 0); [apply keeps_lift|]. intros d. apply keeps_ret.
Qed.

End ViewsFrame.

(** What a view with a session leaves behind: the session as it was; with
    no access token in the session the objects of the process and the
    world as they were; with an access token a step of the client with
    that token. *)
Definition view_step (fmt : json -> string) (n : option nat)
  (session : dict json) (s : server) (w : world)
  (out : view_result * dict json * server * world) : Prop :=
  snd (fst (fst out)) = session
  /\ match dict_get session "access_token" with
     | None => snd (fst out) = s /\ snd out = w
     | Some access_token =>
         let tok := py_str fmt access_token in
         let s' := snd (fst out) in
         match n with
         | Some n =>
             client_step any_request n tok
               (lightroom_client s) w (lightroom_client s') (snd out)
         | None =>
             client_steps any_request tok
               (lightroom_client s) w (lightroom_client s') (snd out)
         end
     end.

Lemma with_client_keeps {A} n tok (c : M LightroomClient A) s w :
  keeps any_request n tok c ->
  client_step any_request n tok (lightroom_client s) w
    (lightroom_client (snd (fst (with_client c s w)))) (snd (with_client c s w)).
Proof.
  intros H. rewrite with_client_eq. cbn [fst snd].
  rewrite lightroom_client_eta. apply H.
Qed.

Lemma with_client_keeps_some {A} tok (c : M LightroomClient A) s w :
  keeps_some any_request tok c ->
  client_steps any_request tok (lightroom_client s) w
    (lightroom_client (snd (fst (with_client c s w)))) (snd (with_client c s w)).
Proof.
  intros H. rewrite with_client_eq. cbn [fst snd].
  rewrite lightroom_client_eta. apply H.
Qed.

Lemma any_request_any r : any_request r.
Proof. exact I. Qed.

(** X15: the views that show albums and photos never write the session.
    Without an access token in the session each of them answers with the
    redirect to the login page or with status 401, and sends nothing and
    changes nothing.  With an access token, everything such a view sends
    is a GET request with that token as bearer token, the handler is not
    changed and a memoized catalog is not replaced; an album page sends at
    most four requests, a page of photos and a thumbnail at most two. *)
Theorem views_use_the_session_token fmt netloc_ok ALBUMS_PER_PAGE PHOTOS_PER_PAGE
  session s w :
  view_step fmt None session s w
    (albums fmt netloc_ok ALBUMS_PER_PAGE session s w)
  /\ (forall args,
        view_step fmt None session s w
          (albums_api fmt netloc_ok ALBUMS_PER_PAGE args session s w))
  /\ (forall album_id args,
        view_step fmt (Some 4%nat) session s w
          (album_view fmt netloc_ok PHOTOS_PER_PAGE album_id args session s w))
  /\ (forall album_id args,
        view_step fmt (Some 2%nat) session s w
          (album_photos_api fmt netloc_ok PHOTOS_PER_PAGE album_id args session s w))
  /\ (forall asset_id args,
        view_step fmt (Some 2%nat) session s w
          (thumbnail fmt asset_id args session s w))
  /\ (dict_get session "access_token" = None ->
      fst (fst (fst (albums fmt netloc_ok ALBUMS_PER_PAGE session s w)))
        = Redirect url_for_login
      /\ (forall args,
            fst (fst (fst (albums_api fmt netloc_ok ALBUMS_PER_PAGE args session s w)))
            = Json (JObj [("error", JStr "Unauthorized")]) 401)
      /\ (forall album_id args,
            fst (fst (fst (album_view fmt netloc_ok PHOTOS_PER_PAGE album_id args
                             session s w)))
            = Redirect url_for_login)
      /\ (forall album_id args,
            fst (fst (fst (album_photos_api fmt netloc_ok PHOTOS_PER_PAGE album_id
                             args session s w)))
            = Json (JObj [("error", JStr "Unauthorized")]) 401)
      /\ (forall asset_id args,
            fst (fst (fst (thumbnail fmt asset_id args session s w)))
            = Text "Unauthorized" 401)).
Proof.
  split; [|split; [|split; [|split; [|split]]]].
  - unfold albums, view_step.
    destruct (dict_get session "access_token") as [t|]; [|now repeat split].
    pose proof (with_client_keeps_some (py_str fmt t) _ s w
                  (keeps_albums_body fmt netloc_ok ALBUMS_PER_PAGE any_request
                     (py_str fmt t) any_request_any)) as H.
    destruct (with_client _ s w) as [[r s'] w']. split; [reflexivity|exact H].
  - intros args. unfold albums_api, view_step.
    destruct (dict_get session "access_token") as [t|]; [|now repeat split].
    destruct (present (dict_get args "name_after")) as [name_after|].
    + pose proof (with_client_keeps_some (py_str fmt t) _ s w
                    (keeps_albums_api_body fmt netloc_ok ALBUMS_PER_PAGE any_request
                       (py_str fmt t) any_request_any name_after)) as H.
      destruct (with_client _ s w) as [[r s'] w']. split; [reflexivity|exact H].
    + split; [reflexivity|]. exists 0%nat. apply client_step_refl.
  - intros album_id args. unfold album_view, view_step.
    destruct (dict_get session "access_token") as [t|]; [|now repeat split].
    pose proof (with_client_keeps 4 (py_str fmt t) _ s w
                  (keeps_album_view_body fmt netloc_ok PHOTOS_PER_PAGE any_request
                     (py_str fmt t) any_request_any album_id
                     (present (dict_get args "page_url")))) as H.
    destruct (with_client _ s w) as [[r s'] w']. split; [reflexivity|exact H].
  - intros album_id args. unfold album_photos_api, view_step.
    destruct (dict_get session "access_token") as [t|]; [|now repeat split].
    destruct (present (dict_get args "page_url")) as [page_url|].
    + pose proof (with_client_keeps 2 (py_str fmt t) _ s w
                    (keeps_album_photos_api_body fmt netloc_ok PHOTOS_PER_PAGE
                       any_request (py_str fmt t) any_request_any album_id page_url))
        as H.
      destruct (with_client _ s w) as [[r s'] w']. split; [reflexivity|exact H].
    + split; [reflexivity|]. apply client_step_refl.
  - intros asset_id args. unfold thumbnail, view_step.
    destruct (dict_get session "access_token") as [t|]; [|now repeat split].
    destruct (negb (mem _ allowed_types)).
    + split; [reflexivity|]. apply client_step_refl.
    + pose proof (with_client_keeps 2 (py_str fmt t) _ s w
                    (keeps_get_asset_rendition any_request (py_str fmt t)
                       (fun _ => I) fmt asset_id
                       match dict_get args "type" with
                       | Some t0 => t0
                       | None => "thumbnail2x"
                       end (fun _ _ => I))) as H.
      destruct (with_client _ s w) as [[r s'] w']. split; [reflexivity|exact H].
  - intros Hno. unfold albums, albums_api, album_view, album_photos_api, thumbnail.
    rewrite Hno. repeat split.
Qed.

(** ** The rendition types of [thumbnail] *)

Lemma mem_In x l : mem x l = true -> In x l.
Proof.
  unfold mem. intros H. apply existsb_exists in H as (y & Hy & E).
  apply String.eqb_eq in E. now subst.
Qed.

(** A request for the catalog, or for a rendition of the asset in one of
    the allowed types. *)
Definition rendition_request (fmt : json -> string) (asset_id : string)
  (r : request) : Prop :=
  req_url r = API_BASE_URL ++ "/catalog"
  \/ exists cid t,
       In t allowed_types
       /\ req_url r = rendition_url fmt cid asset_id t.

(** X16: [thumbnail] answers a rendition type outside the allowed list
    with status 400 and sends nothing; a request without [type] is served
    as [thumbnail2x]; and every request the view sends is the catalog
    request or the request of a rendition of that asset in an allowed type,
    at most two in all. *)
Theorem thumbnail_rendition_types fmt asset_id args session s w access_token :
  dict_get session "access_token" = Some access_token ->
  (forall t, dict_get args "type" = Some t -> mem t allowed_types = false ->
     thumbnail fmt asset_id args session s w
     = (Text "Invalid rendition type. Allowed: thumbnail, thumbnail2x, 640, 1280, 1920, 2048, 2560"
          400, session, s, w))
  /\ (dict_get args "type" = None ->
      thumbnail fmt asset_id args session s w
      = thumbnail fmt asset_id [("type", "thumbnail2x")] session s w)
  /\ client_step (rendition_request fmt asset_id) 2 (py_str fmt access_token)
       (lightroom_client s) w
       (lightroom_client (snd (fst (thumbnail fmt asset_id args session s w))))
       (snd (thumbnail fmt asset_id args session s w)).
Proof.
  intros Htok. split; [|split].
  - intros t Ht Hmem. unfold thumbnail. now rewrite Htok, Ht, Hmem.
  - intros Ht. unfold thumbnail. now rewrite Htok, Ht.
  - unfold thumbnail. rewrite Htok.
    set (t := match dict_get args "type" with Some t => t | None => "thumbnail2x" end).
    destruct (mem t allowed_types) eqn:Hmem; cbn [negb];
      [|apply client_step_refl].
    assert (K : keeps (rendition_request fmt asset_id) 2 (py_str fmt access_token)
                  (get_asset_rendition fmt (py_str fmt access_token) asset_id t)).
    { apply keeps_get_asset_rendition.
      - intros self. now left.
      - intros self cid. right. exists cid, t. split; [now apply mem_In|reflexivity]. }
    rewrite with_client_eq. cbn [fst snd]. rewrite lightroom_client_eta. apply K.
Qed.

(** ** The callback *)

Lemma server_eta s : mkServer (oauth s) (memo s) = s.
Proof. now destruct s. Qed.

(** The session after the three assignments of [callback]. *)
Definition logged_in (session : dict json) (d : dict json) (access_token : json)
  : dict json :=
  dict_set
    (dict_set (dict_set session "access_token" access_token)
       "refresh_token" (field d "refresh_token" JNull))
    "expires_in" (field d "expires_in" (JInt 3600)).

Lemma store_token_cases token_data session :
  (exists d access_token,
     token_data = JObj d /\ dict_get d "access_token" = Some access_token
     /\ store_token token_data session = (Ok tt, logged_in session d access_token))
  \/ (exists e, store_token token_data session = (Err e, session)).
Proof.
  unfold store_token.
  destruct token_data as [| | | | | |d]; try (right; eexists; reflexivity).
  cbn [py_item py_get]. destruct (dict_get d "access_token") as [a|] eqn:Ha.
  - left. exists d, a. repeat split. exact Ha.
  - right. eexists; reflexivity.
Qed.

Lemma logged_in_reads session d access_token :
  dict_get (logged_in session d access_token) "access_token" = Some access_token
  /\ dict_get (logged_in session d access_token) "refresh_token"
     = Some (field d "refresh_token" JNull)
  /\ dict_get (logged_in session d access_token) "expires_in"
     = Some (field d "expires_in" (JInt 3600))
  /\ (forall k, k <> "access_token" -> k <> "refresh_token" -> k <> "expires_in" ->
      dict_get (logged_in session d access_token) k = dict_get session k).
Proof.
  unfold logged_in. repeat split.
  - rewrite !dict_get_set_other by discriminate. apply dict_get_set_same.
  - rewrite dict_get_set_other by discriminate. apply dict_get_set_same.
  - apply dict_get_set_same.
  - intros k H1 H2 H3. rewrite !dict_get_set_other by congruence. reflexivity.
Qed.

Lemma get_access_token_frame fmt code st h w :
  exists r,
    get_access_token fmt code st h w
    = (r, h, if state_rejected st (state h) then w
             else log_request w (token_request h code)).
Proof.
  destruct (state_rejected st (state h)) eqn:Hst.
  - rewrite get_access_token_rejected by exact Hst. now eexists.
  - destruct (get_access_token_passed fmt code st h w Hst) as (r & -> & _).
    now eexists.
Qed.

(** X17: [callback] changes neither the OAuth handler (the stored state
    stays, used or not) nor the catalog memo, and sends at most the token
    request.  It answers with the redirect to the albums only when the
    token exchange returned a dict that has an [access_token]; the session
    then holds that token, the [refresh_token] of the dict or [None] and
    its [expires_in] or 3600, and its other keys are as before.  In every
    other case the answer is a text with status 400 or 500 and the session
    is as it was; with an [error] argument, or without [code], the status
    is 400 and nothing is sent. *)
Theorem callback_session fmt args session s w :
  let out := callback fmt args session s w in
  let r := fst (fst (fst out)) in
  let session' := snd (fst (fst out)) in
  let w' := snd out in
  snd (fst out) = s
  /\ (w' = w
      \/ exists code,
           present (dict_get args "code") = Some code
           /\ w' = log_request w (token_request (oauth s) code))
  /\ ((exists body status,
         r = Text body status /\ (status = 400 \/ status = 500)
         /\ session' = session)
      \/ (r = Redirect url_for_albums
          /\ exists code d access_token,
               present (dict_get args "code") = Some code
               /\ fst (fst (get_access_token fmt code (dict_get args "state")
                              (oauth s) w)) = Ok (JObj d)
               /\ dict_get d "access_token" = Some access_token
               /\ session' = logged_in session d access_token
               /\ dict_get session' "access_token" = Some access_token
               /\ dict_get session' "refresh_token"
                  = Some (field d "refresh_token" JNull)
               /\ dict_get session' "expires_in"
                  = Some (field d "expires_in" (JInt 3600))
               /\ (forall k, k <> "access_token" -> k <> "refresh_token" ->
                   k <> "expires_in" -> dict_get session' k = dict_get session k)))
  /\ (forall e, present (dict_get args "error") = Some e ->
      out = (Text ("Authentication error: "
                   ++ match dict_get args "error_description" with
                      | Some description => description
                      | None => e
                      end) 400, session, s, w))
  /\ (present (dict_get args "error") = None ->
      present (dict_get args "code") = None ->
      out = (Text "No authorization code provided" 400, session, s, w)).
Proof.
  cbv zeta. unfold callback.
  destruct (present (dict_get args "error")) as [e|] eqn:He.
  { cbn [fst snd]. repeat split; auto.
    - left. do 2 eexists. repeat split. now left.
    - now intros e' [= <-].
    - discriminate. }
  destruct (present (dict_get args "code")) as [code|] eqn:Hc.
  2:{ cbn [fst snd]. repeat split; auto.
      - left. do 2 eexists. repeat split. now left.
      - discriminate. }
  destruct (get_access_token_frame fmt code (dict_get args "state") (oauth s) w)
    as [r Hr].
  rewrite Hr. rewrite server_eta.
  assert (Hw : (if state_rejected (dict_get args "state") (state (oauth s))
                then w else log_request w (token_request (oauth s) code)) = w
               \/ exists code0,
                    Some code = Some code0
                    /\ (if state_rejected (dict_get args "state") (state (oauth s))
                        then w else log_request w (token_request (oauth s) code))
                       = log_request w (token_request (oauth s) code0)).
  { destruct (state_rejected _ _); [now left|right]. now exists code. }
  destruct r as [token_data|e].
  - destruct (store_token_cases token_data session)
      as [(d & a & -> & Ha & Hs)|(e & Hs)]; rewrite Hs; cbn [fst snd].
    + split; [reflexivity|]. split; [exact Hw|]. split; [|split; discriminate].
      right. split; [reflexivity|]. exists code, d, a.
      destruct (logged_in_reads session d a) as (H1 & H2 & H3 & H4).
      repeat split; auto. now rewrite Hr.
    + split; [reflexivity|]. split; [exact Hw|]. split; [|split; discriminate].
      left. do 2 eexists. repeat split. now right.
  - cbn [fst snd]. split; [reflexivity|]. split; [exact Hw|].
    split; [|split; discriminate].
    left. do 2 eexists. repeat split. now right.
Qed.

(** X18: the state check at the callback.  A callback with a code and a
    state that is not empty and differs from the stored state is answered
    with status 500 and [Invalid state parameter]; nothing is sent and
    nothing changes.  A callback with a code and no [state] argument is
    not checked: the token request for its code is sent, whatever state is
    stored. *)
Theorem callback_state_check fmt args session s w code :
  present (dict_get args "error") = None ->
  present (dict_get args "code") = Some code ->
  (forall st, dict_get args "state" = Some st -> st <> EmptyString ->
     state (oauth s) <> Some st ->
     callback fmt args session s w
     = (Text "Error during authentication: Invalid state parameter" 500,
        session, s, w))
  /\ (dict_get args "state" = None ->
      snd (callback fmt args session s w)
      = log_request w (token_request (oauth s) code)).
Proof.
  intros He Hc. unfold callback. rewrite He, Hc. split.
  - intros st Hst Hne Hdiff. rewrite Hst.
    rewrite get_access_token_rejected
      by (now apply state_rejected_mismatch).
    now rewrite server_eta.
  - intros Hst. rewrite Hst.
    destruct (get_access_token_passed fmt code None (oauth s) w eq_refl)
      as (r & -> & _).
    destruct r as [token_data|e]; [|reflexivity].
    now destruct (store_token token_data session) as [[[]|e] session'].
Qed.

(** ** The catalog memo belongs to the process *)

(** The catalog id [resolve_catalog_id] reads off a catalog. *)
Definition catalog_id_of (c : json) : result json :=
  if negb (truthy c) then Err (Exception "Could not retrieve catalog")
  else match py_get c "id" JNull with
       | Err e => Err e
       | Ok cid =>
           if negb (truthy cid)
           then Err (Exception "Could not retrieve catalog ID")
           else Ok cid
       end.

Lemma resolve_catalog_id_memo tok self w :
  catalog self <> JNull ->
  resolve_catalog_id tok self w = (catalog_id_of (catalog self), self, w).
Proof.
  intros Hc. pose proof (resolve_catalog_id_cases tok self w) as H.
  rewrite get_catalog_memo in H by exact Hc. exact H.
Qed.

(** [keeps] for a client whose memoized catalog is [c0]. *)
Definition keeps_at {A} (c0 : json) (P : request -> Prop) (n : nat) (tok : string)
  (c : M LightroomClient A) : Prop :=
  forall self w,
    catalog self = c0 ->
    client_step P n tok self w (snd (fst (c self w))) (snd (c self w)).

Definition keeps_some_at {A} (c0 : json) (P : request -> Prop) (tok : string)
  (c : M LightroomClient A) : Prop :=
  forall self w,
    catalog self = c0 ->
    client_steps P tok self w (snd (fst (c self w))) (snd (c self w)).

Section KeepsAt.

Variable c0 : json.
Hypothesis c0_memoized : c0 <> JNull.
Variable P : request -> Prop.
Variable tok : string.

Lemma keeps_at_keeps {A} n (c : M LightroomClient A) :
  keeps P n tok c -> keeps_at c0 P n tok c.
Proof. intros H self w _. apply H. Qed.

Lemma client_step_memo n self w self' w' :
  catalog self = c0 -> client_step P n tok self w self' w' -> catalog self' = c0.
Proof.
  intros Hc (_ & C & _). rewrite C; [exact Hc|]. now rewrite Hc.
Qed.

Lemma keeps_at_bind {A B} n m (c : M LightroomClient A)
  (k : A -> M LightroomClient B) :
  keeps_at c0 P n tok c -> (forall a, keeps_at c0 P m tok (k a)) ->
  keeps_at c0 P (n + m) tok (bind c k).
Proof.
  intros Hc Hk self w H0. specialize (Hc self w H0). unfold bind.
  destruct (c self w) as [[[a|e] s1] w1]; cbn [fst snd] in Hc.
  - eapply client_step_trans; [exact Hc|]. apply Hk.
    eapply client_step_memo; eauto.
  - cbn [fst snd]. eapply client_step_weaken; [|exact Hc]. lia.
Qed.

Lemma keeps_at_weaken {A} n m (c : M LightroomClient A) :
  (n <= m)%nat -> keeps_at c0 P n tok c -> keeps_at c0 P m tok c.
Proof. intros Hnm H self w H0. eapply client_step_weaken; eauto. Qed.

Lemma keeps_at_try_except {A} n m (c : M LightroomClient A) handles h :
  keeps_at c0 P n tok c -> (forall e, keeps_at c0 P m tok (h e)) ->
  keeps_at c0 P (n + m) tok (try_except c handles h).
Proof.
  intros Hc Hh self w H0. specialize (Hc self w H0). unfold try_except.
  destruct (c self w) as [[[a|e] s1] w1]; cbn [fst snd] in Hc.
  - cbn [fst snd]. eapply client_step_weaken; [|exact Hc]. lia.
  - destruct (handles e).
    + eapply client_step_trans; [exact Hc|]. apply Hh.
      eapply client_step_memo; eauto.
    + cbn [fst snd]. eapply client_step_weaken; [|exact Hc]. lia.
Qed.

Lemma keeps_some_at_keeps_at {A} n (c : M LightroomClient A) :
  keeps_at c0 P n tok c -> keeps_some_at c0 P tok c.
Proof. intros H self w H0. exists n. now apply H. Qed.

Lemma keeps_some_at_bind {A B} (c : M LightroomClient A)
  (k : A -> M LightroomClient B) :
  keeps_some_at c0 P tok c -> (forall a, keeps_some_at c0 P tok (k a)) ->
  keeps_some_at c0 P tok (bind c k).
Proof.
  intros Hc Hk self w H0. destruct (Hc self w H0) as [n Hn]. unfold bind.
  destruct (c self w) as [[[a|e] s1] w1]; cbn [fst snd] in Hn.
  - destruct (Hk a s1 w1) as [m Hm]; [eapply client_step_memo; eauto|].
    exists (n + m)%nat. eapply client_step_trans; [exact Hn|exact Hm].
  - exists n. exact Hn.
Qed.

(** With a memoized catalog the catalog id costs no request, and the rest
    of the method runs with the id of that catalog. *)
Lemma keeps_at_scoped {A} n (k : json -> M LightroomClient A) :
  (forall cid, catalog_id_of c0 = Ok cid -> keeps_at c0 P n tok (k cid)) ->
  keeps_at c0 P n tok (bind (resolve_catalog_id tok) k).
Proof.
  intros Hk self w H0. unfold bind.
  rewrite resolve_catalog_id_memo by (now rewrite H0). rewrite H0.
  destruct (catalog_id_of c0) as [cid|e] eqn:E.
  - now apply Hk.
  - cbn [fst snd]. apply client_step_refl.
Qed.

End KeepsAt.

(** A request for something of the catalog with id [cid]. *)
Definition in_catalog (fmt : json -> string) (cid : json) (r : request) : Prop :=
  startswith (API_BASE_URL ++ "/catalogs/" ++ py_str fmt cid ++ "/") (req_url r)
  = true.

Lemma startswith_after a b c : startswith (a ++ b) (a ++ c) = startswith b c.
Proof. induction a as [|x a IH]; simpl; [reflexivity|]. now rewrite Ascii.eqb_refl. Qed.

Lemma in_catalog_url x rest :
  startswith (API_BASE_URL ++ "/catalogs/" ++ x ++ "/")
    (API_BASE_URL ++ "/catalogs/" ++ x ++ String "/" rest) = true.
Proof.
  rewrite startswith_after. rewrite startswith_after. rewrite startswith_after.
  reflexivity.
Qed.

Section SharedCatalog.

Variable fmt : json -> string.
Variable netloc_ok : string -> bool.
Variable c0 : json.
Variable cid : json.
Hypothesis c0_id : catalog_id_of c0 = Ok cid.
Variable tok : string.

Lemma c0_memoized : c0 <> JNull.
Proof. intros ->. discriminate c0_id. Qed.

Lemma cid_unique cid' : catalog_id_of c0 = Ok cid' -> cid' = cid.
Proof. rewrite c0_id. now intros [= <-]. Qed.

Lemma in_catalog_endpoint self rest :
  in_catalog fmt cid
    (api_request self tok "GET"
       (request_url ("/catalogs/" ++ py_str fmt cid ++ String "/" rest))).
Proof. apply in_catalog_url. Qed.

Lemma albums_endpoint_in self limit name_after :
  in_catalog fmt cid
    (api_request self tok "GET" (request_url (albums_endpoint fmt cid limit name_after))).
Proof.
  unfold albums_endpoint. destruct name_after as [[|c r]|];
    rewrite ?append_assoc_r; apply in_catalog_endpoint.
Qed.

Lemma assets_endpoint_in self album_id limit :
  in_catalog fmt cid
    (api_request self tok "GET" (request_url (assets_endpoint fmt cid album_id limit))).
Proof. apply in_catalog_endpoint. Qed.

Lemma keeps_at_make_request P endpoint :
  (forall self, P (api_request self tok "GET" (request_url endpoint))) ->
  keeps_at c0 P 1 tok (_make_request tok "GET" endpoint).
Proof. intros H. apply keeps_at_keeps. now apply keeps_make_request. Qed.

Lemma keeps_at_get_albums_page limit name_after :
  keeps_at c0 (in_catalog fmt cid) 1 tok
    (get_albums_page fmt netloc_ok tok limit name_after).
Proof.
  unfold get_albums_page. apply (keeps_at_scoped c0 c0_memoized).
  intros cid' E. apply cid_unique in E as ->.
  apply (keeps_at_bind c0 c0_memoized _ _ 1 0).
  - apply keeps_at_make_request. intros. apply albums_endpoint_in.
  - intros page. apply keeps_at_keeps, keeps_lift.
Qed.

Lemma keeps_at_get_album album_id :
  keeps_at c0 (in_catalog fmt cid) 1 tok (get_album fmt tok album_id).
Proof.
  unfold get_album. apply (keeps_at_scoped c0 c0_memoized).
  intros cid' E. apply cid_unique in E as ->.
  apply keeps_at_make_request. intros. apply in_catalog_endpoint.
Qed.

Lemma keeps_at_get_album_first_asset album_id :
  keeps_at c0 (in_catalog fmt cid) 1 tok (get_album_first_asset fmt tok album_id).
Proof.
  unfold get_album_first_asset.
  apply (keeps_at_try_except c0 c0_memoized _ _ 1 0);
    [|intros; apply keeps_at_keeps, keeps_ret].
  unfold first_asset_lookup. apply (keeps_at_scoped c0 c0_memoized).
  intros cid' E. apply cid_unique in E as ->.
  apply (keeps_at_bind c0 c0_memoized _ _ 1 0).
  - apply keeps_at_make_request. intros. apply assets_endpoint_in.
  - intros page. apply keeps_at_keeps.
    destruct (truthy page); [|apply keeps_ret].
    apply (keeps_bind _ _ 0 0); [apply keeps_lift|]. intros rs.
    destruct (truthy rs); [|apply keeps_ret].
    apply (keeps_bind _ _ 0 0); [apply keeps_lift|]. intros fa.
    apply (keeps_bind _ _ 0 0); [apply keeps_lift|]. intros a. apply keeps_lift.
Qed.

(** The page request goes to the page URL when one is given. *)
Definition in_catalog_or (page_url : option string) (r : request) : Prop :=
  in_catalog fmt cid r
  \/ exists u, given page_url = Some u /\ req_url r = request_url u.

Lemma keeps_at_get_album_assets_page album_id limit page_url :
  keeps_at c0 (in_catalog_or page_url) 1 tok
    (get_album_assets_page fmt netloc_ok tok album_id limit page_url).
Proof.
  unfold get_album_assets_page. apply (keeps_at_scoped c0 c0_memoized).
  intros cid' E. apply cid_unique in E as ->.
  apply (keeps_at_bind c0 c0_memoized _ _ 1 0).
  - destruct (given page_url) as [u|] eqn:G; apply keeps_at_make_request; intros self.
    + right. now exists u.
    + left. apply assets_endpoint_in.
  - intros page. apply keeps_at_keeps, keeps_lift.
Qed.

Lemma keeps_at_get_asset_rendition asset_id rendition_type :
  keeps_at c0 (in_catalog fmt cid) 1 tok
    (get_asset_rendition fmt tok asset_id rendition_type).
Proof.
  unfold get_asset_rendition. apply (keeps_at_scoped c0 c0_memoized).
  intros cid' E. apply cid_unique in E as ->.
  apply keeps_at_keeps.
  assert (HP : forall self,
             in_catalog fmt cid
               (api_request self tok "GET"
                  (rendition_url fmt cid asset_id rendition_type))).
  { intros self. unfold rendition_url. apply in_catalog_url. }
  intros self w. unfold bind, get_self, requests_request.
  destruct (upstream w _ _) as [resp|e]; cbn [fst snd]; [|apply client_step_one, HP].
  destruct (status_code resp =? 401); cbn [fst snd]; [apply client_step_one, HP|].
  unfold lift. destruct (raise_for_status resp); cbn [fst snd];
    apply client_step_one, HP.
Qed.

Lemma keeps_at_enrich_albums l :
  keeps_at c0 (in_catalog fmt cid) (List.length l) tok (enrich_albums fmt tok l).
Proof.
  induction l as [|album l IH]; [apply keeps_at_keeps, keeps_ret|].
  cbn [enrich_albums].
  apply (keeps_at_weaken c0 _ _ (1 + (List.length l + 0))); [simpl; lia|].
  apply (keeps_at_bind c0 c0_memoized).
  - unfold enrich_album.
    apply (keeps_at_bind c0 c0_memoized _ _ 0 1); [apply keeps_at_keeps, keeps_lift|].
    intros album_id. destruct (truthy album_id).
    + apply (keeps_at_bind c0 c0_memoized _ _ 1 0);
        [apply keeps_at_get_album_first_asset|].
      intros a. apply keeps_at_keeps, keeps_lift.
    + apply (keeps_at_weaken c0 _ _ 0); [lia|apply keeps_at_keeps, keeps_ret].
  - intros album'. apply (keeps_at_bind c0 c0_memoized); [exact IH|].
    intros rest'. apply keeps_at_keeps, keeps_ret.
Qed.

Lemma keeps_at_album_entries l :
  keeps_at c0 (in_catalog fmt cid) (List.length l) tok (album_entries fmt tok l).
Proof.
  induction l as [|album l IH]; [apply keeps_at_keeps, keeps_ret|].
  cbn [album_entries].
  apply (keeps_at_weaken c0 _ _ (1 + (List.length l + 0))); [simpl; lia|].
  apply (keeps_at_bind c0 c0_memoized).
  - unfold album_entry.
    apply (keeps_at_bind c0 c0_memoized _ _ 0 1); [apply keeps_at_keeps, keeps_lift|].
    intros album_id. destruct (truthy album_id).
    + apply (keeps_at_bind c0 c0_memoized _ _ 1 0);
        [apply keeps_at_get_album_first_asset|].
      intros a. apply keeps_at_keeps.
      apply (keeps_bind _ _ 0 0); [apply keeps_lift|]. intros p.
      apply (keeps_bind _ _ 0 0); [apply keeps_lift|]. intros n.
      apply (keeps_bind _ _ 0 0); [apply keeps_lift|]. intros ac. apply keeps_ret.
    + apply (keeps_at_weaken c0 _ _ 0); [lia|apply keeps_at_keeps, keeps_ret].
  - intros entry. apply (keeps_at_bind c0 c0_memoized); [exact IH|].
    intros rest'. apply keeps_at_keeps, keeps_ret.
Qed.

End SharedCatalog.

Lemma with_client_keeps_at {A} c0 P n tok (c : M LightroomClient A) s w :
  memo s = c0 -> keeps_at c0 P n tok c ->
  client_step P n tok (lightroom_client s) w
    (lightroom_client (snd (fst (with_client c s w)))) (snd (with_client c s w)).
Proof.
  intros Hm H. rewrite with_client_eq. cbn [fst snd].
  rewrite lightroom_client_eta. now apply H.
Qed.

Lemma with_client_keeps_some_at {A} c0 P tok (c : M LightroomClient A) s w :
  memo s = c0 -> keeps_some_at c0 P tok c ->
  client_steps P tok (lightroom_client s) w
    (lightroom_client (snd (fst (with_client c s w)))) (snd (with_client c s w)).
Proof.
  intros Hm H. rewrite with_client_eq. cbn [fst snd].
  rewrite lightroom_client_eta. now apply H.
Qed.

Lemma client_step_impl (P Q : request -> Prop) n tok self w self' w' :
  (forall r, P r -> Q r) ->
  client_step P n tok self w self' w' -> client_step Q n tok self w self' w'.
Proof.
  intros HPQ (H1 & C1 & U1 & T1 & D1 & new & S1 & L1 & F1).
  repeat split; auto. exists new. repeat split; auto.
  eapply Forall_impl; [|exact F1]. intros r [Hb Hp]. split; [exact Hb|now apply HPQ].
Qed.

(** X19: the catalog is memoized for the process, not for the session.
    Once a catalog with a usable id is memoized, the views of every
    session, whatever its access token, ask for the albums, photos and
    renditions of that catalog and never for the catalog itself; only the
    page request of an album page goes elsewhere, to the page URL it was
    given.  With the memo, a thumbnail and a page of photos cost one
    request and an album page two.  [logout] empties the session and
    leaves the memo and the handler as they are, so the memo is there for
    whoever logs in next. *)
Theorem catalog_memo_is_shared fmt netloc_ok ALBUMS_PER_PAGE PHOTOS_PER_PAGE
  session s w access_token cid :
  dict_get session "access_token" = Some access_token ->
  catalog_id_of (memo s) = Ok cid ->
  let tok := py_str fmt access_token in
  let step (P : request -> Prop) (n : nat)
        (out : view_result * dict json * server * world) :=
    client_step P n tok (lightroom_client s) w
      (lightroom_client (snd (fst out))) (snd out) in
  (exists n,
     step (in_catalog fmt cid) n (albums fmt netloc_ok ALBUMS_PER_PAGE session s w))
  /\ (forall args,
      exists n,
        step (in_catalog fmt cid) n
          (albums_api fmt netloc_ok ALBUMS_PER_PAGE args session s w))
  /\ (forall album_id args,
        step (in_catalog_or fmt cid (dict_get args "page_url")) 2%nat
          (album_view fmt netloc_ok PHOTOS_PER_PAGE album_id args session s w))
  /\ (forall album_id args,
        step (in_catalog_or fmt cid (dict_get args "page_url")) 1%nat
          (album_photos_api fmt netloc_ok PHOTOS_PER_PAGE album_id args session s w))
  /\ (forall asset_id args,
        step (in_catalog fmt cid) 1%nat (thumbnail fmt asset_id args session s w))
  /\ logout session s w = (Redirect url_for_login, [], s, w).
Proof.
  intros Htok Hid tok step. subst step. cbv beta.
  pose proof (c0_memoized (memo s) cid Hid) as Hm.
  assert (Hgiven : forall args r,
             in_catalog_or fmt cid (present (dict_get args "page_url")) r ->
             in_catalog_or fmt cid (dict_get args "page_url") r).
  { intros args r [H|(u & G & E)]; [now left|right]. exists u. split; [|exact E].
    destruct (dict_get args "page_url") as [[|c x]|]; exact G. }
  split; [|split; [|split; [|split; [|split]]]].
  - unfold albums. rewrite Htok. fold tok.
    match goal with |- context [with_client ?c s w] =>
      pose proof (with_client_keeps_some_at (memo s) (in_catalog fmt cid) tok c s w
                    eq_refl) as H
    end.
    destruct (with_client _ s w) as [[r s'] w']. cbn [fst snd] in *. apply H.
    apply (keeps_some_at_bind _ Hm).
    { eapply keeps_some_at_keeps_at, keeps_at_get_albums_page, Hid. }
    intros p. apply (keeps_some_at_bind _ Hm).
    2:{ intros a. eapply keeps_some_at_keeps_at, keeps_at_keeps, keeps_ret. }
    unfold enrich. apply (keeps_some_at_bind _ Hm).
    { eapply keeps_some_at_keeps_at, keeps_at_keeps, keeps_lift. }
    intros items. apply (keeps_some_at_bind _ Hm).
    { eapply keeps_some_at_keeps_at, keeps_at_enrich_albums, Hid. }
    intros items'. eapply keeps_some_at_keeps_at, keeps_at_keeps, keeps_ret.
  - intros args. unfold albums_api. rewrite Htok. fold tok.
    destruct (present (dict_get args "name_after")) as [name_after|];
      [|exists 0%nat; apply client_step_refl].
    match goal with |- context [with_client ?c s w] =>
      pose proof (with_client_keeps_some_at (memo s) (in_catalog fmt cid) tok c s w
                    eq_refl) as H
    end.
    destruct (with_client _ s w) as [[r s'] w']. cbn [fst snd] in *. apply H.
    apply (keeps_some_at_bind _ Hm).
    { eapply keeps_some_at_keeps_at, keeps_at_get_albums_page, Hid. }
    intros p. apply (keeps_some_at_bind _ Hm).
    { eapply keeps_some_at_keeps_at, keeps_at_keeps, keeps_lift. }
    intros items. apply (keeps_some_at_bind _ Hm).
    { eapply keeps_some_at_keeps_at, keeps_at_album_entries, Hid. }
    intros d. eapply keeps_some_at_keeps_at, keeps_at_keeps, keeps_ret.
  - intros album_id args. unfold album_view. rewrite Htok. fold tok.
    match goal with |- context [with_client ?c s w] =>
      pose proof (with_client_keeps_at (memo s)
                    (in_catalog_or fmt cid (present (dict_get args "page_url")))
                    2 tok c s w eq_refl) as H
    end.
    destruct (with_client _ s w) as [[r s'] w']. cbn [fst snd] in *.
    eapply client_step_impl; [apply Hgiven|]. apply H.
    apply (keeps_at_bind _ Hm _ _ 1 1).
    { intros self w0 H0.
      eapply client_step_impl;
        [|apply (keeps_at_get_album fmt (memo s) cid Hid tok album_id self w0 H0)].
      intros r0 Hr0. now left. }
    intros a. apply (keeps_at_bind _ Hm _ _ 1 0).
    { apply keeps_at_get_album_assets_page, Hid. }
    intros p. apply keeps_at_keeps, keeps_ret.
  - intros album_id args. unfold album_photos_api. rewrite Htok. fold tok.
    destruct (present (dict_get args "page_url")) as [page_url|] eqn:Hp;
      [|apply client_step_refl].
    match goal with |- context [with_client ?c s w] =>
      pose proof (with_client_keeps_at (memo s)
                    (in_catalog_or fmt cid (present (dict_get args "page_url")))
                    1 tok c s w eq_refl) as H
    end.
    destruct (with_client _ s w) as [[r s'] w']. cbn [fst snd] in *.
    eapply client_step_impl; [apply Hgiven|]. apply H. rewrite Hp.
    apply (keeps_at_bind _ Hm _ _ 1 0).
    { apply keeps_at_get_album_assets_page, Hid. }
    intros [[photos next_url] prev_url]. apply keeps_at_keeps.
    apply (keeps_bind _ _ 0 0); [apply keeps_lift|]. intros items.
    apply (keeps_bind _ _ 0 0); [apply keeps_lift|]. intros d. apply keeps_ret.
  - intros asset_id args. unfold thumbnail. rewrite Htok. fold tok.
    destruct (negb (mem _ allowed_types)); [apply client_step_refl|].
    match goal with |- context [with_client ?c s w] =>
      pose proof (with_client_keeps_at (memo s) (in_catalog fmt cid)
                    1 tok c s w eq_refl) as H
    end.
    destruct (with_client _ s w) as [[r s'] w']. cbn [fst snd] in *. apply H.
    apply keeps_at_get_asset_rendition, Hid.
  - reflexivity.
Qed.

(** ** The albums page and the first assets *)

(** An album of the page and the album the template gets: the same dict,
    with [first_asset_id] set when the album has an id. *)
Definition enriched (album album' : json) : Prop :=
  exists d d',
    album = JObj d /\ album' = JObj d'
    /\ (forall k, k <> "first_asset_id" -> dict_get d' k = dict_get d k)
    /\ (truthy (field d "id" JNull) = true -> dict_get d' "first_asset_id" <> None)
    /\ (truthy (field d "id" JNull) = false -> d' = d).

Definition is_dict (v : json) : Prop := exists d, v = JObj d.

Lemma get_album_first_asset_returns fmt tok album_id self w :
  exists v, fst (fst (get_album_first_asset fmt tok album_id self w)) = Ok v.
Proof.
  unfold get_album_first_asset, try_except.
  destruct (first_asset_lookup fmt tok album_id self w) as [[[v|e] s1] w1];
    eexists; reflexivity.
Qed.

Lemma enrich_album_dict fmt tok d self w :
  exists album',
    fst (fst (enrich_album fmt tok (JObj d) self w)) = Ok album'
    /\ enriched (JObj d) album'.
Proof.
  unfold enrich_album, bind, lift. cbn [py_get]. fold (field d "id" JNull).
  destruct (truthy (field d "id" JNull)) eqn:Hid.
  - destruct (get_album_first_asset_returns fmt tok
                (py_str fmt (field d "id" JNull)) self w) as [v Hv].
    destruct (get_album_first_asset _ _ _ self w) as [[r s1] w1].
    cbn [fst] in Hv. subst r. cbn [set_item fst].
    eexists. split; [reflexivity|]. exists d, (dict_set d "first_asset_id" v).
    repeat split.
    + intros k Hk. apply dict_get_set_other. congruence.
    + intros _. now rewrite dict_get_set_same.
    + intros H. congruence.
  - eexists. split; [reflexivity|]. exists d, d. repeat split. intros H. congruence.
Qed.

Lemma enrich_albums_dicts fmt tok l :
  Forall is_dict l ->
  forall self w,
  exists l',
    fst (fst (enrich_albums fmt tok l self w)) = Ok l' /\ Forall2 enriched l l'.
Proof.
  induction 1 as [|album l [d ->] Hl IH]; intros self w.
  - exists []. split; [reflexivity|constructor].
  - cbn [enrich_albums]. unfold bind at 1.
    destruct (enrich_album_dict fmt tok d self w) as (album' & Ha & He).
    destruct (enrich_album fmt tok (JObj d) self w) as [[r s1] w1].
    cbn [fst] in Ha. subst r. unfold bind at 1.
    destruct (IH s1 w1) as (l' & Hl' & Hf).
    destruct (enrich_albums fmt tok l s1 w1) as [[r s2] w2].
    cbn [fst] in Hl'. subst r. exists (album' :: l').
    split; [reflexivity|now constructor].
Qed.

Lemma enrich_albums_not_dict fmt tok l :
  Exists (fun album => ~ is_dict album) l ->
  forall self w,
  exists m, fst (fst (enrich_albums fmt tok l self w)) = Err (AttributeError m).
Proof.
  induction l as [|album l IH]; intros H self w; [inversion H|].
  cbn [enrich_albums]. unfold bind at 1.
  destruct album as [| | | | | |d];
    try (eexists; reflexivity).
  apply Exists_cons in H as [H|H]; [exfalso; apply H; now exists d|].
  destruct (enrich_album fmt tok (JObj d) self w) as [[[a|e] s1] w1] eqn:E.
  - unfold bind at 1. destruct (IH H s1 w1) as [m Hm].
    destruct (enrich_albums fmt tok l s1 w1) as [[r s2] w2].
    cbn [fst] in Hm. subst r. now exists m.
  - destruct (enrich_album_dict fmt tok d self w) as (album' & Ha & _).
    rewrite E in Ha. discriminate.
Qed.

Lemma enrich_list fmt tok l self w :
  enrich fmt tok (JArr l) self w
  = match enrich_albums fmt tok l self w with
    | (Ok l', self', w') => (Ok (JArr l'), self', w')
    | (Err e, self', w') => (Err e, self', w')
    end.
Proof.
  unfold enrich, bind, lift, ret. cbn [py_iter].
  now destruct (enrich_albums fmt tok l self w) as [[[l'|e] s1] w1].
Qed.

(** X20: when [get_albums_page] returns a list of dicts, [albums] renders
    the albums page, whatever happens to the requests for the first
    assets: the template gets the albums in the same order, each with its
    keys and values as they were, and with [first_asset_id] set (to the id
    or to [None]) exactly when the album has an id; the cursor is passed
    on.  When an element of the list is not a dict, the view answers with
    status 500. *)
Theorem albums_page_renders fmt netloc_ok ALBUMS_PER_PAGE session s w
  access_token l next_name_after :
  dict_get session "access_token" = Some access_token ->
  fst (fst (get_albums_page fmt netloc_ok (py_str fmt access_token)
              ALBUMS_PER_PAGE None (lightroom_client s) w))
  = Ok (JArr l, next_name_after) ->
  (Forall is_dict l ->
   exists l',
     fst (fst (fst (albums fmt netloc_ok ALBUMS_PER_PAGE session s w)))
     = Render "albums.html"
         [("albums", JArr l'); ("next_name_after", optional next_name_after)]
     /\ Forall2 enriched l l')
  /\ (Exists (fun album => ~ is_dict album) l ->
      exists body,
        fst (fst (fst (albums fmt netloc_ok ALBUMS_PER_PAGE session s w)))
        = Text body 500).
Proof.
  intros Htok Hpage. unfold albums. rewrite Htok. rewrite with_client_eq.
  cbn [fst snd]. unfold bind.
  destruct (get_albums_page _ _ _ _ _ _ w) as [[r s1] w1]. cbn [fst] in Hpage.
  subst r. cbn [fst snd]. rewrite enrich_list. split.
  - intros Hl. destruct (enrich_albums_dicts fmt (py_str fmt access_token) l Hl s1 w1)
      as (l' & Hl' & Hf).
    destruct (enrich_albums _ _ l s1 w1) as [[r s2] w2]. cbn [fst] in Hl'. subst r.
    exists l'. split; [reflexivity|exact Hf].
  - intros Hl.
    destruct (enrich_albums_not_dict fmt (py_str fmt access_token) l Hl s1 w1)
      as (m & Hm).
    destruct (enrich_albums _ _ l s1 w1) as [[r s2] w2]. cbn [fst] in Hm. subst r.
    eexists. reflexivity.
Qed.

(** ** Logging in *)

Lemma oauth_start_eq session s w :
  dict_get session "access_token" = None ->
  oauth_start session s w
  = (Redirect (AUTHORIZATION_URL ++ "?"
               ++ urlencode_flat
                    (authorization_params (oauth s) (token_urlsafe w (drawn w)))),
     session,
     mkServer
       (mkOAuthHandler (client_id (oauth s)) (client_secret (oauth s))
          (redirect_uri (oauth s)) (Some (token_urlsafe w (drawn w))))
       (memo s),
     mkWorld (upstream w) (token_urlsafe w) (sent w) (S (drawn w))).
Proof. intros H. unfold oauth_start. now rewrite H, get_authorization_url_eq. Qed.

(** X21: the login round trip.  [oauth_start] in a session without access
    token sends nothing and redirects to the authorization URL, whose
    [state] is a fresh random token.  When the browser comes back to
    [callback] with a code and that state, the token request for the code
    is sent; when the token endpoint answers it with a 2xx status and a
    JSON object that has an [access_token], the answer is the redirect to
    the albums and the session holds the token, so that [index] now leads
    to the albums; after [logout] it leads to the login page again. *)
Theorem login_round_trip fmt session s w code resp d access_token :
  dict_get session "access_token" = None ->
  code <> EmptyString ->
  upstream w (List.length (sent w)) (token_request (oauth s) code) = Ok resp ->
  response_ok resp = true ->
  response_json resp = Ok (JObj d) ->
  dict_get d "access_token" = Some access_token ->
  let st := token_urlsafe w (drawn w) in
  let out1 := oauth_start session s w in
  let out2 :=
    callback fmt [("code", code); ("state", st)]
      (snd (fst (fst out1))) (snd (fst out1)) (snd out1) in
  let session2 := snd (fst (fst out2)) in
  (exists q,
     fst (fst (fst out1)) = Redirect (AUTHORIZATION_URL ++ "?" ++ q)
     /\ (st <> EmptyString -> dict_get (parse_qs q) "state" = Some [st]))
  /\ snd (fst (fst out1)) = session
  /\ sent (snd out1) = sent w
  /\ fst (fst (fst out2)) = Redirect url_for_albums
  /\ sent (snd out2) = (sent w ++ [token_request (oauth s) code])%list
  /\ dict_get session2 "access_token" = Some access_token
  /\ fst (fst (fst (index session2 (snd (fst out2)) (snd out2))))
     = Redirect url_for_albums
  /\ (let out3 := logout session2 (snd (fst out2)) (snd out2) in
      fst (fst (fst (index (snd (fst (fst out3))) (snd (fst out3)) (snd out3))))
      = Redirect url_for_login).
Proof.
  intros Hno Hcode Hup Hok Hjson Hat st out1 out2 session2.
  subst out1 out2 session2. rewrite oauth_start_eq by exact Hno. cbn [fst snd].
  fold st.
  set (h1 := mkOAuthHandler _ _ _ (Some st)).
  set (w1 := mkWorld _ _ _ _).
  assert (Hpass : state_rejected (Some st) (Some st) = false).
  { unfold state_rejected. rewrite String.eqb_refl.
    now destruct (String.eqb st EmptyString). }
  assert (Hcb : callback fmt [("code", code); ("state", st)] session
                  (mkServer h1 (memo s)) w1
                = (Redirect url_for_albums, logged_in session d access_token,
                   mkServer h1 (memo s),
                   log_request w1 (token_request h1 code))).
  { unfold callback. cbn [dict_get String.eqb Ascii.eqb Bool.eqb present oauth memo].
    destruct code as [|c code]; [congruence|]. cbn [present].
    destruct (get_access_token_frame fmt (String c code) (Some st) h1 w1)
      as [r Hr].
    pose proof (get_access_token_result fmt (String c code) (Some st) h1 w1 Hpass)
      as Hres.
    rewrite (exchange_ok_status fmt h1 (String c code) w1 resp Hup Hok) in Hres.
    rewrite Hjson in Hres. rewrite Hr in Hres. cbn [fst] in Hres. subst r.
    rewrite Hr. change (state h1) with (Some st). rewrite Hpass.
    destruct (store_token_cases (JObj d) session)
      as [(d' & a & [= <-] & Ha & Hs)|(e & Hs)].
    - rewrite Hs. rewrite Hat in Ha. injection Ha as <-. reflexivity.
    - unfold store_token in Hs. cbn [py_item py_get] in Hs. rewrite Hat in Hs.
      discriminate. }
  rewrite Hcb. cbn [fst snd].
  destruct (logged_in_reads session d access_token) as (H1 & _).
  split.
  { exists (urlencode_flat (authorization_params (oauth s) st)).
    split; [reflexivity|]. intros Hst.
    rewrite dict_get_parse_qs, parse_qsl_urlencode_flat.
    destruct (values_of_authorization (oauth s) st) as (Hs & _). rewrite Hs.
    destruct (String.eqb_spec st EmptyString); [congruence|reflexivity]. }
  repeat split; try reflexivity; try exact H1.
  unfold index. now rewrite H1.
Qed.

(** ** The page URL of the query string *)

Lemma get_album_assets_page_by_url fmt netloc_ok tok album_id limit c u self w cid :
  catalog_id_of (catalog self) = Ok cid ->
  snd (get_album_assets_page fmt netloc_ok tok album_id limit (Some (String c u))
         self w)
  = log_request w (api_request self tok "GET" (request_url (String c u))).
Proof.
  intros Hid. unfold get_album_assets_page. unfold bind at 1.
  rewrite resolve_catalog_id_memo by (intros E; rewrite E in Hid; discriminate).
  rewrite Hid. cbn [given]. unfold bind.
  destruct (_make_request_frame tok "GET" (String c u) self w) as [r ->].
  now destruct r.
Qed.

(** X22: the page URL of the query string is followed as it is.  In a
    session with an access token, on a process with a usable catalog
    memoized, [album_photos_api] with an absolute [page_url] sends exactly
    one request: a GET to that URL, on whatever host, with the access token
    of the session as bearer token and the client id as API key. *)
Theorem page_url_gets_the_token fmt netloc_ok PHOTOS_PER_PAGE album_id args
  session s w access_token cid u :
  dict_get session "access_token" = Some access_token ->
  catalog_id_of (memo s) = Ok cid ->
  dict_get args "page_url" = Some u ->
  (startswith "http://" u || startswith "https://" u)%bool = true ->
  sent (snd (album_photos_api fmt netloc_ok PHOTOS_PER_PAGE album_id args session s w))
  = (sent w
     ++ [mkRequest "GET" u
           [("Authorization", ("Bearer " ++ py_str fmt access_token)%string);
            ("x-api-key", client_id (oauth s));
            ("Content-Type", "application/json")] [] None])%list.
Proof.
  intros Htok Hid Hu Habs. unfold album_photos_api. rewrite Htok, Hu.
  destruct u as [|c u]; [discriminate|]. cbn [present].
  rewrite with_client_eq. cbn [snd]. unfold bind at 1.
  pose proof (get_album_assets_page_by_url fmt netloc_ok (py_str fmt access_token)
                album_id PHOTOS_PER_PAGE c u (lightroom_client s) w cid Hid) as Hw.
  destruct (get_album_assets_page _ _ _ _ _ _ _ w) as [[[[[photos next] prev]|e] s1] w1];
    cbn [snd] in Hw; subst w1.
  - unfold bind, lift, ret.
    destruct (py_iter photos) as [items|e]; [|cbn [snd]];
      [destruct (photo_entries items); cbn [snd]|];
      now rewrite request_url_absolute by exact Habs.
  - cbn [snd]. now rewrite request_url_absolute by exact Habs.
Qed.

(** * Scenarios for the further properties *)

Definition server0 : server := mkServer handler0 JNull.

(** The objects of a process that has a catalog memoized. *)
Definition server1 : server := mkServer handler0 catalog1.

(** The session of a user who is logged in. *)
Definition session1 : dict json := [("access_token", JStr "T")].

(** X2, witness: a page URL on another host gets the bearer request. *)
Lemma requests_go_to_the_api_witness :
  sent (snd (get_album_assets_page no_fmt any_netloc "T" "a1" 20
               (Some "https://example.org/steal") client1 catalog_world))
  = [api_request client1 "T" "GET" "https://example.org/steal"].
Proof.
  pose proof (requests_go_to_the_api no_fmt any_netloc "T")
    as (_ & _ & _ & _ & _ & _ & H).
  apply (H "a1" 20 "https://example.org/steal" client1 catalog_world (JStr "c1")
           client1 catalog_world); reflexivity.
Defined.

(** X3, witness: the state of the URL is the token drawn. *)
Lemma authorization_url_round_trip_witness :
  exists q,
    fst (fst (get_authorization_url handler0 token_world))
    = Ok (AUTHORIZATION_URL ++ "?" ++ q)
    /\ dict_get (parse_qs q) "state" = Some ["nonce0"].
Proof.
  pose proof (authorization_url_round_trip no_fmt handler0 token_world "code") as H.
  cbv zeta in H.
  destruct H as (q & Hurl & _ & _ & _ & _ & _ & _ & Hstate & _).
  exists q. split; [exact Hurl|]. apply Hstate. discriminate.
Defined.

(** X4, witness: the first of two authorization attempts comes back. *)
Lemma second_authorization_url_invalidates_first_witness :
  let h2 :=
    mkOAuthHandler "client" "secret" "https://localhost:8443/callback"
      (Some "nonce1") in
  let w2 := mkWorld (upstream token_world) (token_urlsafe token_world) [] 2 in
  get_access_token no_fmt "code" (Some "nonce0") h2 w2 = (Err InvalidState, h2, w2).
Proof.
  pose proof (second_authorization_url_invalidates_first no_fmt handler0 token_world
                "code") as H.
  cbv zeta in H. rewrite !get_authorization_url_eq in H.
  destruct H as (_ & _ & H). apply H; discriminate.
Defined.

(** X5, witness: the token endpoint refuses the code. *)
Definition denied_text : string :=
  dq "{'error':'invalid_grant','error_description':'code expired'}".

Definition denied_world : world := serve (fun _ => 400) (fun _ => denied_text).

Lemma failed_exchange_detail_witness :
  fst (fst (get_access_token no_fmt "code" None handler0 denied_world))
  = Err (HTTPError "Token exchange failed: code expired (Status: 400)").
Proof.
  pose proof (failed_exchange_detail no_fmt "code" None handler0 denied_world
                (mkResponse 400 denied_text) eq_refl eq_refl eq_refl) as H.
  cbv zeta in H. destruct H as (H & _).
  apply (H [("error", JStr "invalid_grant");
            ("error_description", JStr "code expired")]).
  vm_compute. reflexivity.
Defined.

(** X6, witness: a successful exchange. *)
Lemma get_access_token_outcomes_witness :
  fst (fst (get_access_token no_fmt "code" (Some "abc") handler0 token_world))
  = Ok (JObj [("access_token", JStr "t")]).
Proof.
  pose proof (get_access_token_outcomes no_fmt "code" (Some "abc") handler0
                token_world) as (_ & H & _).
  apply (H (mkResponse 200 (dq "{'access_token':'t'}"))); reflexivity.
Defined.

(** X7, witness: a successful refresh. *)
Lemma refresh_access_token_outcomes_witness :
  fst (fst (refresh_access_token "r" handler0 token_world))
  = Ok (JObj [("access_token", JStr "t")]).
Proof.
  pose proof (refresh_access_token_outcomes "r" handler0 token_world)
    as (_ & _ & _ & H).
  destruct (H (mkResponse 200 (dq "{'access_token':'t'}")) eq_refl) as (_ & Hok).
  rewrite Hok by reflexivity. reflexivity.
Defined.



(** X10, witness: the catalog request is answered 401. *)
Lemma get_catalog_failure_witness :
  snd (fst (get_catalog "T" client0 expired_world)) = client0
  /\ catalog client0 = JNull
  /\ snd (get_catalog "T" client0 expired_world)
     = log_request expired_world (catalog_request client0 "T").
Proof.
  apply (get_catalog_failure "T" client0 expired_world TokenExpired
           (snd (fst (get_catalog "T" client0 expired_world)))
           (snd (get_catalog "T" client0 expired_world))).
  reflexivity.
Defined.

(** X11, witness: the catalog request is answered with an empty body. *)
Lemma catalog_unavailable_witness :
  get_albums_page no_fmt any_netloc "T" 8 None client0 empty_world
  = (Err (Exception "Could not retrieve catalog"), client0,
     log_request empty_world (catalog_request client0 "T")).
Proof.
  pose proof (catalog_unavailable no_fmt any_netloc "T" client0 empty_world)
    as (H & _).
  apply (H (Exception "Could not retrieve catalog") client0
           (log_request empty_world (catalog_request client0 "T")) eq_refl).
Defined.


(** X13, witness: the cursor of the specification. *)
Lemma albums_request_cursor_witness :
  exists q,
    albums_endpoint no_fmt (JStr "c1") 8 (Some "Zebra") = "/catalogs/c1/albums?" ++ q
    /\ dict_get (parse_qs q) "name_after" = Some ["Zebra"].
Proof.
  destruct (albums_request_cursor no_fmt (JStr "c1") 8 "Zebra"
              ltac:(discriminate) eq_refl) as ((q & He & _ & Hn) & _).
  exists q. split; [exact He|exact Hn].
Defined.

(** X14, witness: an upstream whose pages carry no next link. *)
Lemma paged_resources_collect_witness :
  client_step any_request 3 "T" client1 last_page_world client1
    (log_request last_page_world
       (api_request client1 "T" "GET" (request_url "/catalogs/c1/albums"))).
Proof.
  apply (paged_resources_collect any_netloc 2 "T" "/catalogs/c1/albums" client1
           last_page_world (Ok [JObj [("id", JStr "a")]]) client1
           (log_request last_page_world
              (api_request client1 "T" "GET" (request_url "/catalogs/c1/albums")))).
  vm_compute. reflexivity.
Defined.

(** X15, witness: a thumbnail asked for without session. *)
Lemma views_use_the_session_token_witness :
  fst (fst (fst (thumbnail no_fmt "a1" [] [] server0 failing_world)))
  = Text "Unauthorized" 401.
Proof.
  pose proof (views_use_the_session_token no_fmt any_netloc 8 20 [] server0
                failing_world) as (_ & _ & _ & _ & _ & H).
  destruct (H eq_refl) as (_ & _ & _ & _ & Ht). apply Ht.
Defined.

(** X16, witness: a rendition type that is a path. *)
Lemma thumbnail_rendition_types_witness :
  thumbnail no_fmt "a1" [("type", "../../catalog")] session1 server1 failing_world
  = (Text "Invalid rendition type. Allowed: thumbnail, thumbnail2x, 640, 1280, 1920, 2048, 2560"
       400, session1, server1, failing_world).
Proof.
  apply (proj1 (thumbnail_rendition_types no_fmt "a1" [("type", "../../catalog")]
                  session1 server1 failing_world (JStr "T") eq_refl)
           "../../catalog"); reflexivity.
Defined.

(** X17, witness: the user refused the authorization. *)
Lemma callback_session_witness :
  callback no_fmt [("error", "access_denied")] [] server0 token_world
  = (Text "Authentication error: access_denied" 400, [], server0, token_world).
Proof.
  pose proof (callback_session no_fmt [("error", "access_denied")] [] server0
                token_world) as H.
  cbv zeta in H. destruct H as (_ & _ & _ & H & _).
  apply (H "access_denied"). reflexivity.
Defined.

(** X18, witness: a callback with a state that was never issued. *)
Lemma callback_state_check_witness :
  callback no_fmt [("code", "c"); ("state", "evil")] [] server0 token_world
  = (Text "Error during authentication: Invalid state parameter" 500,
     [], server0, token_world).
Proof.
  apply (proj1 (callback_state_check no_fmt [("code", "c"); ("state", "evil")] []
                  server0 token_world "c" eq_refl eq_refl) "evil");
    [reflexivity|discriminate|discriminate].
Defined.

(** X19, witness: a thumbnail for a session of the process that has the
    catalog [c1] memoized. *)
Lemma catalog_memo_is_shared_witness :
  client_step (in_catalog no_fmt (JStr "c1")) 1 "T"
    (lightroom_client server1) failing_world
    (lightroom_client
       (snd (fst (thumbnail no_fmt "a1" [] session1 server1 failing_world))))
    (snd (thumbnail no_fmt "a1" [] session1 server1 failing_world)).
Proof.
  pose proof (catalog_memo_is_shared no_fmt any_netloc 8 20 session1 server1
                failing_world (JStr "T") (JStr "c1") eq_refl eq_refl) as H.
  cbv zeta in H. destruct H as (_ & _ & _ & _ & H & _).
  apply (H "a1" []).
Defined.

(** X20, witness: a page of one album; the lookup of its first asset gets
    the page itself for an answer and finds no asset in it. *)
Lemma albums_page_renders_witness :
  exists l',
    fst (fst (fst (albums no_fmt any_netloc 8 session1 server0
                     (page_world next_only_text))))
    = Render "albums.html"
        [("albums", JArr l'); ("next_name_after", JStr "Zebra")]
    /\ Forall2 enriched [JObj [("id", JStr "a")]] l'.
Proof.
  apply (proj1 (albums_page_renders no_fmt any_netloc 8 session1 server0
                  (page_world next_only_text) (JStr "T")
                  [JObj [("id", JStr "a")]] (Some "Zebra") eq_refl
                  ltac:(vm_compute; reflexivity))).
  repeat constructor. now exists [("id", JStr "a")].
Defined.

(** X21, witness: logging in on an upstream that grants the token [t]. *)
Lemma login_round_trip_witness :
  fst (fst (fst (callback no_fmt [("code", "code"); ("state", "nonce0")]
                   (snd (fst (fst (oauth_start [] server0 token_world))))
                   (snd (fst (oauth_start [] server0 token_world)))
                   (snd (oauth_start [] server0 token_world)))))
  = Redirect url_for_albums.
Proof.
  pose proof (login_round_trip no_fmt [] server0 token_world "code"
                (mkResponse 200 (dq "{'access_token':'t'}"))
                [("access_token", JStr "t")] (JStr "t")
                eq_refl ltac:(discriminate) eq_refl eq_refl
                ltac:(vm_compute; reflexivity) eq_refl) as H.
  cbv zeta in H. destruct H as (_ & _ & _ & H & _). exact H.
Defined.

(** X22, witness: a page URL on another host. *)
Lemma page_url_gets_the_token_witness :
  sent (snd (album_photos_api no_fmt any_netloc 20 "a1"
               [("page_url", "https://example.org/steal")] session1 server1
               failing_world))
  = [mkRequest "GET" "https://example.org/steal"
       [("Authorization", "Bearer T"); ("x-api-key", "client");
        ("Content-Type", "application/json")] [] None].
Proof.
  apply (page_url_gets_the_token no_fmt any_netloc 20 "a1"
           [("page_url", "https://example.org/steal")] session1 server1
           failing_world (JStr "T") (JStr "c1") "https://example.org/steal");
    reflexivity.
Defined.
